(** * mod2mus: ProTracker MOD to MUS conversion

    A shallow embedding of [src/mod2mus.cpp] (the body of [main] and the
    helpers it uses) together with the properties of the period resolver,
    the effect translator, the pattern sequencer / compressor and the
    sample writer.

    Conventions.  C++ integers are modelled as [Z]; a [uint8_t] holds a
    value in [0, 255] and a [uint32_t] conversion is written out as a
    reduction modulo [2^32].  Indices into [std::vector]s and [size_t]
    offsets are [nat].  The input stream [fIn] is a list of bytes with an
    explicit read position. *)

From Stdlib Require Import ZArith List Lia Bool Sorted.
From stdpp Require Import base list.
Import ListNotations.

Local Open Scope Z_scope.

(** ** Period table and period-to-note resolver (lines 180-185, 308-330) *)

Definition ProTrackerPeriodTable : list Z :=
  [ 856;808;762;720;678;640;604;570;538;508;480;453;
    428;404;381;360;339;320;302;285;269;254;240;226;
    214;202;190;180;170;160;151;143;135;127;120;113 ].

(** [ProTrackerPeriodTable[i]]. *)
Definition period_at (i : nat) : Z := nth i ProTrackerPeriodTable 0.

(** The [for (uint8_t i = 0; i < 36; i++)] loop of lines 312-329.  [n] is
    the number of iterations left, [i] the loop index.  The result is the
    value of [note] when the loop is left; [note] is 0 when the loop runs
    off the end of the table. *)
Fixpoint note_loop (period : Z) (n : nat) (i : nat) : Z :=
  match n with
  | O => 0
  | S n' =>
      if period >=? period_at i then
        if negb (period =? period_at i) && negb (Nat.eqb i 0) then
          let p1 := period_at (i - 1) in
          let p2 := period_at i in
          if p1 - period <? period - p2
          then Z.of_nat i
          else Z.of_nat i + 1
        else Z.of_nat i + 1
      else note_loop period n' (S i)
  end.

(** Lines 309-330: [note] starts at 0 and is only assigned inside the guard
    [period > 0 && period != 0xFFF]. *)
Definition period_to_note (period : Z) : Z :=
  if (period >? 0) && negb (period =? 0xFFF)
  then note_loop period (length ProTrackerPeriodTable) 0
  else 0.

(** Line 308: the 12-bit period packed in the first two bytes of a cell. *)
Definition cell_period (b0 b1 : Z) : Z :=
  Z.lor (Z.shiftl (Z.land b0 0x0F) 8) b1.

(** Line 331: the sample number packed in bytes 0 and 2 of a cell. *)
Definition cell_instr (b0 b2 : Z) : Z :=
  Z.lor (Z.shiftr b2 4) (Z.land b0 0x10).

(** ** Effect translator (lines 332-377)

    The [switch] assigns the locals [command] and [param] and, for the two
    control-flow effects, the loop variables [ord], [startRow] and [row] of
    the enclosing loops.  The record collects the values of these five
    variables after the [switch]. *)

Record Effect := mkEffect {
  e_command : Z;
  e_param : Z;
  e_ord : Z;
  e_startRow : Z;
  e_row : Z
}.

Definition translate_effect (b2 b3 : Z) (ord startRow row : Z) : Effect :=
  let command := 0x14 in
  let param := b3 in
  match Z.land b2 0x0F with
  | 0x00 => mkEffect (if negb (param =? 0) then 0x0B else command) param ord startRow row
  | 0x01 => mkEffect 0x0C param ord startRow row
  | 0x02 => mkEffect 0x0D param ord startRow row
  | 0x03 => mkEffect 0x07 param ord startRow row
  | 0x04 => mkEffect 0x09 param ord startRow row
  | 0x05 => mkEffect 0x08 param ord startRow row
  | 0x06 => mkEffect 0x0A param ord startRow row
  | 0x07 => mkEffect 0x10 param ord startRow row
  | 0x09 => mkEffect 0x06 param ord startRow row
  | 0x0A => mkEffect 0x0E param ord startRow row
  | 0x0B =>
      let ord := if param >? ord then param - 1 else ord in
      let param := 0x00 in
      let startRow := 0 in
      let row := 64 in
      mkEffect command param ord startRow row
  | 0x0C => mkEffect 0x00 param ord startRow row
  | 0x0D =>
      let param := 0x00 in
      let startRow := param in
      let row := 64 in
      mkEffect command param ord startRow row
  | 0x0E =>
      let param := Z.land param 0x0F in
      match Z.land b3 0xF0 with
      | 0x10 => mkEffect 0x03 param ord startRow row
      | 0x20 => mkEffect 0x04 param ord startRow row
      | 0x90 => mkEffect 0x0F param ord startRow row
      | 0xA0 => mkEffect 0x01 param ord startRow row
      | 0xB0 => mkEffect 0x02 param ord startRow row
      | 0xC0 => mkEffect 0x11 param ord startRow row
      | _ => mkEffect command 0x00 ord startRow row
      end
  | 0x0F => mkEffect 0x12 param ord startRow row
  | _ => mkEffect command 0 ord startRow row
  end.

(** ** Channel state and event compressor (lines 278-285, 379-403) *)

Record ChannelState := mkChannelState {
  note : Z;
  instr : Z;
  command : Z;
  param : Z;
  repeatOffset : nat
}.

(** The default member initialisers of [struct ChannelState]. *)
Definition newChannelState : ChannelState :=
  mkChannelState 0xFF 0xFF 0xFF 0xFF 0.

#[global] Instance ChannelState_inhabited : Inhabited ChannelState :=
  populate newChannelState.

(** [musicData[off]++] on a [uint8_t] element. *)
Definition incr_byte (b : Z) : Z := (b + 1) mod 256.

(** [musicData.back() |= 0x80]. *)
Definition flag_back (musicData : list Z) : list Z :=
  alter (fun b => Z.lor b 0x80) (length musicData - 1)%nat musicData.

(** Lines 379-403 for one cell: [n], [i], [c], [p] are the translated note,
    instrument, command and parameter; the result is the channel's state
    and the stream after the statement.  Reads and writes outside
    [musicData] are undefined in the source; here a read yields 0 and a
    write does nothing, and [emit_in_range] below shows that neither
    happens. *)
Definition emit (cs : ChannelState) (musicData : list Z) (n i c p : Z)
  : ChannelState * list Z :=
  if (n =? note cs) && (i =? instr cs) && (c =? command cs) && (p =? param cs) then
    if negb (Nat.eqb (repeatOffset cs) 0)
       && (nth (repeatOffset cs) musicData 0 <? 0xFF)
    then (cs, alter incr_byte (repeatOffset cs) musicData)
    else (mkChannelState (note cs) (instr cs) (command cs) (param cs)
            (length musicData),
          musicData ++ [0x80])
  else
    let cs := mkChannelState (note cs) (instr cs) (command cs) (param cs) 0 in
    if (c =? command cs) && (p =? param cs) then
      (cs, flag_back musicData)
    else
      (mkChannelState n i c p (repeatOffset cs), musicData ++ [n; i; c; p]).

(** ** Binary records (lines 83-135)

    The records are taken as already decoded: a packed big- or little-endian
    field is the integer it holds, a [char] array is the list of its bytes. *)

Module MODSampleHeader.
Record t := mk {
    name : list Z;      (* 22 chars *)
    length : Z;         (* uint16be, in words *)
    finetune : Z;
    volume : Z;
    loopStart : Z;      (* uint16be, in words *)
    loopLength : Z      (* uint16be, in words *)
  }.
End MODSampleHeader.

Module MODFileHeader.
Record t := mk {
    name : list Z;                     (* 20 chars *)
    sample : list MODSampleHeader.t;   (* 31 entries *)
    numOrders : Z;
    restartPos : Z;
    orderList : list Z;                (* 128 entries *)
    magic : list Z                     (* 4 chars *)
  }.
End MODFileHeader.

Module KMSampleHeader.
Record t := mk {
    id : list Z;
    chunkSize : Z;
    name : list Z;
    loopStart : Z;
    sampleSize : Z
  }.
End KMSampleHeader.

Module KMSampleReference.
Record t := mk {
    name : list Z;
    finetune : Z;
    volume : Z
  }.
End KMSampleReference.

Module KMSongHeader.
Record t := mk {
    id : list Z;
    chunkSize : Z;
    name : list Z;
    sample : list KMSampleReference.t;
    unknown : Z;
    numChannels : Z;
    restartPos : Z;
    musicSize : Z
  }.
End KMSongHeader.

(** [sizeof(MODFileHeader)], [sizeof(KMSongHeader)], [sizeof(KMSampleHeader)]. *)
Definition sizeof_MODFileHeader : Z := 20 + 31 * 30 + 1 + 1 + 128 + 4.
Definition sizeof_KMSongHeader : Z := 4 + 4 + 32 + 31 * 34 + 2 + 4 + 4 + 4.
Definition sizeof_KMSampleHeader : Z := 4 + 4 + 32 + 4 + 4.

(** [static_cast<uint32_t>] and assignment to a [uint32le] field. *)
Definition to_uint32 (x : Z) : Z := x mod 2 ^ 32.

(** ** Input stream

    [fIn] is the whole source file.  A byte past its end reads as 0: the
    zero-initialised [sampleData] vector keeps its zeros there, while the
    uninitialised [modData] array of line 305 is indeterminate in the source,
    so statements about the value of a cell are meaningful for cells that
    lie inside the file. *)
Definition byte_at (fIn : list Z) (pos : Z) : Z :=
  if pos <? 0 then 0 else nth (Z.to_nat pos) fIn 0.

Definition read_bytes (fIn : list Z) (pos : Z) (n : nat) : list Z :=
  map (fun k => byte_at fIn (pos + Z.of_nat k)) (seq 0 n).

(** ** Names (lines 162-177, 247-258) *)

(** The characters of a C string held in a buffer: up to the first NUL. *)
Fixpoint c_str (s : list Z) : list Z :=
  match s with
  | [] => []
  | c :: s' => if c =? 0 then [] else c :: c_str s'
  end.

(** [if (c > 0x00 && c < 0x20) c = ' ';] *)
Definition clear_control (c : Z) : Z :=
  if (c >? 0x00) && (c <? 0x20) then 0x20 else c.

(** [s.resize(n)]: truncate or pad with NULs. *)
Definition resize (n : nat) (s : list Z) : list Z :=
  take n s ++ replicate (n - length s) 0.

Definition SampleName (index : Z) (modName : list Z) : list Z :=
  let s := c_str (take 22 modName) in
  let s := map clear_control s in
  let s := [0x30; 0x30; 0x3A] ++ s in
  let s := alter (fun c => c + Z.quot index 10) 0%nat s in
  let s := alter (fun c => c + Z.rem index 10) 1%nat s in
  resize 32 s.

(** Lines 247 and 254-258: [strncpy] into the zeroed 32-byte field, then the
    control characters cleared. *)
Definition song_name (modName : list Z) : list Z :=
  map clear_control (resize 32 (c_str (take 20 modName))).

(** ** Validation (lines 213-243) *)

Definition magics : list (list Z) :=
  [ [0x31; 0x43; 0x48; 0x4E];     (* "1CHN" *)
    [0x32; 0x43; 0x48; 0x4E];     (* "2CHN" *)
    [0x33; 0x43; 0x48; 0x4E];     (* "3CHN" *)
    [0x4D; 0x2E; 0x4B; 0x2E] ].   (* "M.K." *)

Definition bytes_eqb (a b : list Z) : bool :=
  bool_decide (a = b).

(** Lines 214-222: the number of channels, 0 when no signature matches. *)
Fixpoint identify (magic : list Z) (i : nat) (candidates : list (list Z)) : nat :=
  match candidates with
  | [] => 0
  | m :: rest => if bytes_eqb m (take 4 magic) then i + 1 else identify magic (i + 1) rest
  end.

(** Lines 235-243. *)
Definition count_patterns (orderList : list Z) : Z :=
  fold_left (fun numPatterns ord =>
               let pat := nth ord orderList 0 in
               if (pat <? 128) && (numPatterns <=? pat) then pat + 1 else numPatterns)
            (seq 0 128) 0.

(** Lines 260-274: one sample reference of the song header. *)
Definition sample_reference (i : nat) (modSample : MODSampleHeader.t) : KMSampleReference.t :=
  if MODSampleHeader.length modSample <? 2 then
    KMSampleReference.mk (replicate 32 0) 0 0
  else
    KMSampleReference.mk
      (SampleName (Z.of_nat i + 1) (MODSampleHeader.name modSample))
      (Z.land (MODSampleHeader.finetune modSample) 0x0F)
      (if MODSampleHeader.volume modSample <? 64
       then MODSampleHeader.volume modSample else 64).

(** ** Pattern sequencer (lines 287-406) *)

(** The variables of [main] that the three nested loops read and write,
    followed by three ghost fields that record the history of the run and
    are never read by the program. *)
Record SeqState := mkSeqState {
  ord : Z;
  row : Z;
  startRow : Z;
  fpos : Z;                          (* read position of [fIn] *)
  channelState : list ChannelState;
  musicData : list Z;
  kmRestartPos : Z;                  (* [kmSong.restartPos] *)
  steps : nat;                       (* ghost: cells processed so far *)
  begun : list Z;                    (* ghost: value of [ord] at each entry
                                        of the outer loop body, in order *)
  captures : list Z                  (* ghost: every value assigned to
                                        [kmSong.restartPos], in order *)
}.

Section Sequencer.

Variable fIn : list Z.
Variable modHeader : MODFileHeader.t.
Variable numChannels : nat.

(** The four bytes [modData] that line 306 reads at position [pos]. *)
Definition read_cell (pos : Z) : Z * Z * Z * Z :=
  (byte_at fIn pos, byte_at fIn (pos + 1), byte_at fIn (pos + 2), byte_at fIn (pos + 3)).

(** Lines 303-403: the body of the channel loop for channel [chn]. *)
Definition cell_step (st : SeqState) (chn : nat) : SeqState :=
  let chnState := channelState st !!! chn in
  let '(b0, b1, b2, b3) := read_cell (fpos st) in
  let period := cell_period b0 b1 in
  let n := period_to_note period in
  let i := cell_instr b0 b2 in
  let e := translate_effect b2 b3 (ord st) (startRow st) (row st) in
  let '(chnState', musicData') := emit chnState (musicData st) n i (e_command e) (e_param e) in
  mkSeqState (e_ord e) (e_row e) (e_startRow e) (fpos st + 4)
    (<[chn := chnState']> (channelState st)) musicData'
    (kmRestartPos st) (S (steps st)) (begun st) (captures st).

(** Lines 301-404: [for (int chn = 0; chn < numChannels; chn++)]. *)
Definition chn_loop (st : SeqState) : SeqState :=
  fold_left cell_step (seq 0 numChannels) st.

(** Line 300. *)
Definition clear_startRow (st : SeqState) : SeqState :=
  mkSeqState (ord st) (row st) 0 (fpos st) (channelState st) (musicData st)
    (kmRestartPos st) (steps st) (begun st) (captures st).

(** The [row++] of line 298. *)
Definition next_row (st : SeqState) : SeqState :=
  mkSeqState (ord st) (row st + 1) (startRow st) (fpos st) (channelState st)
    (musicData st) (kmRestartPos st) (steps st) (begun st) (captures st).

(** Lines 298-405: the row loop, entered with [row] already initialised.
    [None] means that [fuel] iterations did not reach [row >= 64]. *)
Fixpoint row_loop (fuel : nat) (st : SeqState) : option SeqState :=
  if row st <? 64 then
    match fuel with
    | O => None
    | S fuel' => row_loop fuel' (next_row (chn_loop (clear_startRow st)))
    end
  else Some st.

Definition order_at (o : Z) : Z :=
  nth (Z.to_nat o) (MODFileHeader.orderList modHeader) 0.

(** Lines 293-298: the seek, the capture of the restart offset and the
    initialisation [row = startRow] of the row loop. *)
Definition ord_begin (st : SeqState) : SeqState :=
  let pos := sizeof_MODFileHeader
             + (Z.of_nat numChannels * 64 * 4) * order_at (ord st) in
  let size := to_uint32 (Z.of_nat (length (musicData st))) in
  if MODFileHeader.restartPos modHeader =? ord st then
    mkSeqState (ord st) (startRow st) (startRow st) pos (channelState st)
      (musicData st) size (steps st) (begun st ++ [ord st]) (captures st ++ [size])
  else
    mkSeqState (ord st) (startRow st) (startRow st) pos (channelState st)
      (musicData st) (kmRestartPos st) (steps st) (begun st ++ [ord st]) (captures st).

(** The [ord++] of line 291. *)
Definition next_ord (st : SeqState) : SeqState :=
  mkSeqState (ord st + 1) (row st) (startRow st) (fpos st) (channelState st)
    (musicData st) (kmRestartPos st) (steps st) (begun st) (captures st).

(** Lines 291-406: the order loop.  [None] means that the fuel of this loop
    or of a row loop ran out. *)
Fixpoint ord_loop (fuel : nat) (st : SeqState) : option SeqState :=
  if ord st <? MODFileHeader.numOrders modHeader then
    match fuel with
    | O => None
    | S fuel' =>
        match row_loop 64 (ord_begin st) with
        | None => None
        | Some st' => ord_loop fuel' (next_ord st')
        end
    end
  else Some st.

(** Lines 287-291: the state in which the order loop is entered.  The header
    has been read, [kmSong] is zero-initialised, [row] does not exist yet. *)
Definition seq_init : SeqState :=
  mkSeqState 0 0 0 sizeof_MODFileHeader
    (replicate numChannels newChannelState) [] 0 0%nat [] [].

(** The sequencer run with as much fuel as there can be orders. *)
Definition sequence : option SeqState :=
  ord_loop (Z.to_nat (MODFileHeader.numOrders modHeader)) seq_init.

End Sequencer.

(** ** Sample writer (lines 414-442) and [main] *)

(** What [Write] has appended to [fOut], in order. *)
Inductive Written :=
| WSong (kmSong : KMSongHeader.t)
| WData (bytes : list Z)
| WSample (kmSample : KMSampleHeader.t).

Definition tag_SONG : list Z := [0x53; 0x4F; 0x4E; 0x47].
Definition tag_SMPL : list Z := [0x53; 0x4D; 0x50; 0x4C].

Definition no_sample : MODSampleHeader.t :=
  MODSampleHeader.mk (replicate 22 0) 0 0 0 0 0.

(** [modHeader.sample[i]]. *)
Definition sample_at (modHeader : MODFileHeader.t) (i : nat) : MODSampleHeader.t :=
  nth i (MODFileHeader.sample modHeader) no_sample.

(** Lines 420-432: the header [kmSample] of slot [i]. *)
Definition sample_header (i : nat) (modSample : MODSampleHeader.t) : KMSampleHeader.t :=
  let name := SampleName (Z.of_nat i + 1) (MODSampleHeader.name modSample) in
  let length := MODSampleHeader.length modSample in
  let loopStart := MODSampleHeader.loopStart modSample in
  let loopLength := MODSampleHeader.loopLength modSample in
  if (loopLength >? 1) && (loopStart <? length)
     && negb (loopStart + loopLength + length =? 0)
  then
    let kmLoopStart := to_uint32 (loopStart * 2) in
    let kmSampleSize := to_uint32 (kmLoopStart + loopLength * 2) in
    KMSampleHeader.mk tag_SMPL (to_uint32 (sizeof_KMSampleHeader + kmSampleSize))
      name kmLoopStart kmSampleSize
  else
    let kmSampleSize := to_uint32 (length * 2) in
    let kmLoopStart := kmSampleSize in
    KMSampleHeader.mk tag_SMPL (to_uint32 (sizeof_KMSampleHeader + kmSampleSize))
      name kmLoopStart kmSampleSize.

(** Lines 418-441: the body of the sample loop for slot [i], on the read
    position of [fIn] and the contents of [fOut]. *)
Definition sample_step (fIn : list Z) (modHeader : MODFileHeader.t)
  (io : Z * list Written) (i : nat) : Z * list Written :=
  let '(pos, fOut) := io in
  let modSample := sample_at modHeader i in
  let kmSample := sample_header i modSample in
  let sampleData := read_bytes fIn pos (Z.to_nat (KMSampleHeader.sampleSize kmSample)) in
  let pos := pos + KMSampleHeader.sampleSize kmSample in
  if MODSampleHeader.length modSample <? 2 then (pos, fOut)
  else (pos, fOut ++ [WSample kmSample; WData sampleData]).

(** Line 414. *)
Definition sample_data_start (modHeader : MODFileHeader.t) (numChannels : nat) : Z :=
  sizeof_MODFileHeader
  + (Z.of_nat numChannels * 64 * 4) * count_patterns (MODFileHeader.orderList modHeader).

(** Lines 414-442. *)
Definition write_samples (fIn : list Z) (modHeader : MODFileHeader.t)
  (numChannels : nat) (fOut : list Written) : Z * list Written :=
  fold_left (sample_step fIn modHeader) (seq 0 31)
    (sample_data_start modHeader numChannels, fOut).

(** Lines 245-276 and 408-409: the song header once the sequencer is done. *)
Definition song_header (modHeader : MODFileHeader.t) (numChannels : nat)
  (st : SeqState) : KMSongHeader.t :=
  KMSongHeader.mk tag_SONG
    (to_uint32 (sizeof_KMSongHeader + Z.of_nat (length (musicData st))))
    (song_name (MODFileHeader.name modHeader))
    (map (fun i => sample_reference i (sample_at modHeader i)) (seq 0 31))
    0
    (Z.of_nat numChannels)
    (kmRestartPos st)
    (to_uint32 (Z.of_nat (length (musicData st)))).

(** [main] from line 210 on, with both files open and the header read: the
    exit code and what was written to [fOut].  [None] stands for a run of
    the sequencer that exhausts its fuel. *)
Definition main (fIn : list Z) (modHeader : MODFileHeader.t) : option (Z * list Written) :=
  let numChannels := identify (MODFileHeader.magic modHeader) 0 magics in
  if Nat.eqb numChannels 0 then Some (-3, [])
  else if MODFileHeader.numOrders modHeader >? 128 then Some (-4, [])
  else
    match sequence fIn modHeader numChannels with
    | None => None
    | Some st =>
        let kmSong := song_header modHeader numChannels st in
        let fOut := [WSong kmSong; WData (musicData st)] in
        Some (0, snd (write_samples fIn modHeader numChannels fOut))
    end.

(** * Reference definitions

    Definitions that follow the words of the specification; the properties
    below compare the program with them. *)

(** The "no note" value: [note] keeps the 0 it is initialised with. *)
Definition NO_NOTE : Z := 0.

(** The resolver as the specification words it: the first table index whose
    entry does not exceed the period, then the nearest of that entry and its
    predecessor, the entry itself on a tie. *)
Definition period_to_note_ref (period : Z) : Z :=
  if (period =? 0) || (period =? 0xFFF) then NO_NOTE
  else
    match list_find (fun t => t <= period) ProTrackerPeriodTable with
    | None => NO_NOTE
    | Some (i, t) =>
        if (period =? t) || Nat.eqb i 0 then Z.of_nat i + 1
        else if Z.abs (period - period_at (i - 1)) <? Z.abs (period - t)
             then Z.of_nat i
             else Z.of_nat i + 1
    end.

(** The "no effect" command: [command] keeps the 0x14 it is initialised
    with. *)
Definition NO_EFFECT : Z := 0x14.

(** The sub-commands of the extended command that have a destination code,
    keyed by the high nibble of the parameter. *)
Definition extended_codes : list (Z * Z) :=
  [ (0x1, 0x03); (0x2, 0x04); (0x9, 0x0F); (0xA, 0x01); (0xB, 0x02); (0xC, 0x11) ].

(** The top-level commands that have a [case] label. *)
Definition handled_commands : list Z :=
  [ 0x0; 0x1; 0x2; 0x3; 0x4; 0x5; 0x6; 0x7; 0x9; 0xA; 0xB; 0xC; 0xD; 0xE; 0xF ].

Fixpoint assoc (k : Z) (l : list (Z * Z)) : option Z :=
  match l with
  | [] => None
  | (k', v) :: l' => if k =? k' then Some v else assoc k l'
  end.

(** The 256 values of a byte. *)
Definition all_bytes : list Z := map Z.of_nat (seq 0 256).

(** The extended command on every byte parameter, as a boolean check. *)
Definition extended_ok (b3 : Z) : bool :=
  let e := translate_effect 0x0E b3 0 0 0 in
  match assoc (Z.shiftr b3 4) extended_codes with
  | Some c => (e_command e =? c) && (e_param e =? Z.land b3 0x0F)
  | None => (e_command e =? NO_EFFECT) && (e_param e =? 0)
  end.

(** * Notions used in the statements *)

(** [k] consecutive cells of one channel that all translate to the same
    note, instrument, command and parameter, fed to the compressor with no
    other channel in between. *)
Fixpoint emit_run (k : nat) (cs : ChannelState) (musicData : list Z) (n i c p : Z)
  : ChannelState * list Z :=
  match k with
  | O => (cs, musicData)
  | S k' =>
      let '(cs', musicData') := emit cs musicData n i c p in
      emit_run k' cs' musicData' n i c p
  end.

(** The four fields of a channel state equal the translated cell. *)
Definition same_event (cs : ChannelState) (n i c p : Z) : Prop :=
  n = note cs /\ i = instr cs /\ c = command cs /\ p = param cs.

(** A channel state with its repeat-run closed. *)
Definition close_run (cs : ChannelState) : ChannelState :=
  mkChannelState (note cs) (instr cs) (command cs) (param cs) 0.

(** The count bytes that stand for [r >= 1] repeats of an event: every
    saturated byte 0xFF stands for 128 repeats, the last byte [0x80 + m] for
    [m + 1]. *)
Definition repeat_bytes (r : nat) : list Z :=
  replicate ((r - 1) / 128) 0xFF ++ [0x80 + Z.of_nat ((r - 1) mod 128)].

(** Position-jump (0xB) and pattern-break (0xD), the two commands that act
    on the loops. *)
Definition is_control (cmd : Z) : bool := (cmd =? 0x0B) || (cmd =? 0x0D).

(** The command nibble of the cell at position [pos] of the file. *)
Definition cell_command (fIn : list Z) (pos : Z) : Z :=
  Z.land (byte_at fIn (pos + 2)) 0x0F.

(** The effect parameter of the cell at position [pos] of the file. *)
Definition cell_param (fIn : list Z) (pos : Z) : Z :=
  byte_at fIn (pos + 3).

(** [cells k st st']: the state [st'] is reached from [st] by processing
    [k] cells of one order: nothing but the loop variables, the channel
    states and the stream has changed, and the stream has only grown. *)
Definition cells (k : nat) (st st' : SeqState) : Prop :=
  ord st <= ord st'
  /\ (length (musicData st) <= length (musicData st')
      <= length (musicData st) + 4 * k)%nat
  /\ steps st' = (steps st + k)%nat
  /\ fpos st' = fpos st + 4 * Z.of_nat k
  /\ kmRestartPos st' = kmRestartPos st
  /\ begun st' = begun st
  /\ captures st' = captures st
  /\ length (channelState st') = length (channelState st).

(** Some of the [k] consecutive cells from position [pos] on carries a
    position-jump or a pattern-break. *)
Fixpoint row_has_control (fIn : list Z) (pos : Z) (k : nat) : bool :=
  match k with
  | O => false
  | S k' => is_control (cell_command fIn pos) || row_has_control fIn (pos + 4) k'
  end.

(** The header with another declared order count. *)
Definition with_numOrders (n : Z) (modHeader : MODFileHeader.t) : MODFileHeader.t :=
  MODFileHeader.mk (MODFileHeader.name modHeader) (MODFileHeader.sample modHeader)
    n (MODFileHeader.restartPos modHeader) (MODFileHeader.orderList modHeader)
    (MODFileHeader.magic modHeader).

(** The sample data that the sample loop writes, in order. *)
Definition written_data (fOut : list Written) : list (list Z) :=
  omap (fun w => match w with WData bytes => Some bytes | _ => None end) fOut.

(** The SMPL headers that the sample loop writes, in order. *)
Definition written_headers (fOut : list Written) : list KMSampleHeader.t :=
  omap (fun w => match w with WSample kmSample => Some kmSample | _ => None end) fOut.

(** A channel state whose back references into the stream [out] are
    valid: an open repeat-run lies inside the stream, and a channel that
    has emitted an event (its command is no longer the initial 0xFF) finds
    the stream non-empty. *)
Definition chan_ok (out : list Z) (cs : ChannelState) : Prop :=
  (repeatOffset cs = 0%nat \/ (repeatOffset cs < length out)%nat)
  /\ (command cs = 0xFF \/ out <> []).

Definition seq_ok (st : SeqState) : Prop :=
  Forall (chan_ok (musicData st)) (channelState st).

(** The accesses to the stream that [emit] makes are inside it: the count
    byte [musicData[repeatOffset]] of a hold and the [back()] of a
    continuation. *)
Definition accesses_in_range (cs : ChannelState) (out : list Z) (n i c p : Z) : Prop :=
  (same_event cs n i c p -> repeatOffset cs <> 0%nat ->
   (repeatOffset cs < length out)%nat)
  /\ (~ same_event cs n i c p -> c = command cs -> p = param cs -> out <> []).

(** ** Several channels

    What a cell does to the channel states and the stream, as a step on
    the pair of them: [cell_step] performs [mstep] with the translated
    cell.  A trace is a list of such steps, each with its channel. *)
Definition mstep (s : list ChannelState * list Z) (x : nat * (Z * Z * Z * Z))
  : list ChannelState * list Z :=
  let '(chn, (n, i, c, p)) := x in
  let r := emit (s.1 !!! chn) s.2 n i c p in
  (<[chn := r.1]> s.1, r.2).

(** The number of bytes by which the steps of channel [chn] in a trace
    extend the stream. *)
Fixpoint own_growth (chn : nat) (trace : list (nat * (Z * Z * Z * Z)))
  (s : list ChannelState * list Z) : nat :=
  match trace with
  | [] => 0
  | x :: trace' =>
      ((if Nat.eqb x.1 chn then length (mstep s x).2 - length s.2 else 0)
       + own_growth chn trace' (mstep s x))%nat
  end.

(** A count byte: 0x80 for one repeat up to 0xFF for 128. *)
Definition is_count (v : Z) : Prop := 0x80 <= v <= 0xFF.

(** The repeat-run of a channel, if open, points at a count byte. *)
Definition run_ok (out : list Z) (cs : ChannelState) : Prop :=
  repeatOffset cs = 0%nat \/ exists v, out !! repeatOffset cs = Some v /\ is_count v.

(** Every open run points at a count byte, and no two channels share one. *)
Definition compressor_inv (s : list ChannelState * list Z) : Prop :=
  (forall k cs, s.1 !! k = Some cs -> run_ok s.2 cs)
  /\ (forall k1 k2 cs1 cs2,
         k1 <> k2 -> s.1 !! k1 = Some cs1 -> s.1 !! k2 = Some cs2 ->
         repeatOffset cs1 <> 0%nat -> repeatOffset cs1 <> repeatOffset cs2).

(** The steps of no channel but [chn]. *)
Definition foreign (chn : nat) (F : list (nat * (Z * Z * Z * Z))) : Prop :=
  Forall (fun x => x.1 <> chn) F.

(** * Example inputs *)

Definition header_of (magic : list Z) (numOrders restartPos : Z)
  (orders : list Z) (samples : list MODSampleHeader.t) : MODFileHeader.t :=
  MODFileHeader.mk (replicate 20 0)
    (samples ++ replicate (31 - length samples) no_sample)
    numOrders restartPos
    (orders ++ replicate (128 - length orders) 0) magic.

(** A file image: 1084 header bytes (not inspected, the header is passed
    decoded), then the given pattern and sample bytes. *)
Definition file_of (payload : list Z) : list Z :=
  replicate 1084 0 ++ payload.

(** One pattern of [numChannels] channels, 64 rows of 4 bytes per channel:
    the given cells, then empty cells to the end of the pattern. *)
Definition pattern_of (numChannels : nat) (cells : list Z) : list Z :=
  cells ++ replicate (numChannels * 64 * 4 - length cells) 0.

Definition magic_1CHN : list Z := [0x31; 0x43; 0x48; 0x4E].
Definition magic_2CHN : list Z := [0x32; 0x43; 0x48; 0x4E].

(** A one-channel file of three orders that all play pattern 0; the first
    cell of the pattern is a position-jump to order 2, the second row holds
    note period 428 with sample 1 and "set volume 0x20". *)
Definition jump_header : MODFileHeader.t :=
  header_of magic_1CHN 3 1 [0; 0; 0] [].

Definition jump_file : list Z :=
  file_of (pattern_of 1 [0x00; 0x00; 0x0B; 0x02;  0x01; 0xAC; 0x1C; 0x20]).

(** A two-channel file of one order: in row 0 channel 0 holds a
    pattern-break with parameter 0x32 and channel 1 holds note period 428
    with sample 1 and "set volume 0x20". *)
Definition break_header : MODFileHeader.t :=
  header_of magic_2CHN 1 0 [0] [].

Definition break_file : list Z :=
  file_of (pattern_of 2 [0x00; 0x00; 0x0D; 0x32;  0x01; 0xAC; 0x1C; 0x20]).

(** What [main] writes for [jump_file]. *)
Definition jump_output : list Written :=
  Eval vm_compute in
    match main jump_file jump_header with
    | Some (_, fOut) => fOut
    | None => []
    end.

(** The state in which the first row of [break_file] is processed. *)
Definition break_start : SeqState :=
  ord_begin break_header 2 (seq_init 2).

(** A one-channel file of one order.  Row 0: period 428, sample 1, "set
    volume 0x20"; row 1: period 404 with the same sample, command and
    parameter. *)
Definition flag_header : MODFileHeader.t :=
  header_of magic_1CHN 1 0 [0] [].

Definition flag_file : list Z :=
  file_of (pattern_of 1 [0x01; 0xAC; 0x1C; 0x20;  0x01; 0x94; 0x1C; 0x20]).

(** A one-channel file of one order.  Row 0: period 428, sample 1, no
    effect; rows 1 and 2: period 404, sample 1, no effect. *)
Definition run_file : list Z :=
  file_of (pattern_of 1
    [0x01; 0xAC; 0x10; 0x00;  0x01; 0x94; 0x10; 0x00;  0x01; 0x94; 0x10; 0x00]).

(** The state in which the first row of a one-channel, one-order file is
    processed. *)
Definition one_channel_start : SeqState :=
  clear_startRow (ord_begin flag_header 1 (seq_init 1)).

(** [flag_file] played as two orders of pattern 0, restart position 1. *)
Definition restart_header : MODFileHeader.t :=
  header_of magic_1CHN 2 1 [0; 0] [].

(** The state in which the sequencer ends on it. *)
Definition restart_final : SeqState :=
  Eval vm_compute in
    match sequence flag_file restart_header 1 with
    | Some st => st
    | None => seq_init 1
    end.

(** A file without orders whose sample slot 1 declares a length of 1 word
    with a loop of 2 words from word 0, and whose slot 2 declares 2 words
    without a loop.  The sample data follow the one pattern that the order
    list names: 2 bytes for slot 1, then 4 bytes for slot 2. *)
Definition skip_header : MODFileHeader.t :=
  header_of magic_1CHN 0 0 []
    [ MODSampleHeader.mk (replicate 22 0) 1 0 0 0 2;
      MODSampleHeader.mk (replicate 22 0) 2 0 64 0 1 ].

Definition skip_file : list Z :=
  file_of (pattern_of 1 [] ++ [0xAA; 0xBB] ++ [0x01; 0x02; 0x03; 0x04]).

(** * The rest of the program

    The parts of [src/mod2mus.cpp] that the sequencer and the sample writer
    above take as given: the packed integers of the binary records, the
    reading of the source header and the byte image of what is written. *)

(** ** Packed integers (lines 19-80)

    [std::endian::native] is a parameter of the model; the two values that
    the source compares it with are the only ones considered.  Conversions
    between integer types are modular, as the language standard that
    provides [<bit>] defines them. *)

Inductive endian := endian_little | endian_big.

Definition endian_eqb (a b : endian) : bool :=
  match a, b with
  | endian_little, endian_little | endian_big, endian_big => true
  | _, _ => false
  end.

(** The six types [T] at which [packed] is instantiated (lines 68-80). *)
Inductive int_type := uint32_t | uint16_t | uint8_t | int32_t | int16_t | int8_t.

(** [sizeof(T)]. *)
Definition sizeof (T : int_type) : nat :=
  match T with
  | uint32_t | int32_t => 4
  | uint16_t | int16_t => 2
  | uint8_t | int8_t => 1
  end.

Definition is_signed (T : int_type) : bool :=
  match T with
  | int32_t | int16_t | int8_t => true
  | _ => false
  end.

(** The number of values of [T]. *)
Definition modulus (T : int_type) : Z := 2 ^ (8 * Z.of_nat (sizeof T)).

(** The values of [T]. *)
Definition in_range (T : int_type) (x : Z) : Prop :=
  if is_signed T then - (modulus T / 2) <= x < modulus T / 2
  else 0 <= x < modulus T.

(** Conversion of an integer to [T]. *)
Definition convert (T : int_type) (x : Z) : Z :=
  let u := x mod modulus T in
  if is_signed T && (modulus T / 2 <=? u) then u - modulus T else u.

(** Lines 40-46; [x] is a [uint16_t].  The masks keep the result below
    [2^16], so the conversion to the return type is exact. *)
Definition constexpr_bswap16 (x : Z) : Z :=
  Z.lor (Z.lor 0 (Z.land (Z.shiftr x 8) 0x00FF)) (Z.land (Z.shiftl x 8) 0xFF00).

(** Lines 47-55; [x] is a [uint32_t]. *)
Definition constexpr_bswap32 (x : Z) : Z :=
  Z.lor (Z.lor (Z.lor (Z.lor 0
    (Z.shiftl (Z.land x 0x000000FF) 24))
    (Z.shiftl (Z.land x 0x0000FF00) 8))
    (Z.shiftr (Z.land x 0x00FF0000) 8))
    (Z.shiftr (Z.land x 0xFF000000) 24).

(** Lines 57-63: the overload of [bswap] that an argument of type [T]
    selects; every overload returns a [uint32_t]. *)
Definition bswap (T : int_type) (x : Z) : Z :=
  match T with
  | uint32_t => constexpr_bswap32 x
  | uint16_t => constexpr_bswap16 x
  | uint8_t => x
  | int32_t => constexpr_bswap32 (convert uint32_t x)
  | int16_t => constexpr_bswap16 (convert uint16_t x)
  | int8_t => convert uint32_t x
  end.

(** The [w] low bytes of [u], least significant first. *)
Fixpoint le_bytes (w : nat) (u : Z) : list Z :=
  match w with
  | O => []
  | S w' => u mod 256 :: le_bytes w' (u / 256)
  end.

(** The number that a list of bytes spells, least significant first. *)
Fixpoint le_value (bytes : list Z) : Z :=
  match bytes with
  | [] => 0
  | b :: bytes' => b + 256 * le_value bytes'
  end.

(** Bytes in the order of an endianness, given least significant first. *)
Definition in_order (e : endian) (bytes : list Z) : list Z :=
  match e with
  | endian_little => bytes
  | endian_big => rev bytes
  end.

(** The object representation of a value of [T] on a host of endianness
    [native], which [memcpy] copies out of and into the value. *)
Definition object_bytes (native : endian) (T : int_type) (value : Z) : list Z :=
  in_order native (le_bytes (sizeof T) (value mod modulus T)).

Definition object_value (native : endian) (T : int_type) (bytes : list Z) : Z :=
  convert T (le_value (in_order native bytes)).

(** Lines 22-27: [packed<T, endianness>::operator=], giving [m_value]. *)
Definition packed_assign (endianness native : endian) (T : int_type) (value : Z)
  : list Z :=
  let value :=
    if negb (endian_eqb native endianness) then convert T (bswap T value)
    else value in
  object_bytes native T value.

(** Lines 29-36: [packed<T, endianness>::operator T], from [m_value]. *)
Definition packed_read (endianness native : endian) (T : int_type)
  (m_value : list Z) : Z :=
  let value := object_value native T m_value in
  if negb (endian_eqb native endianness) then convert T (bswap T value)
  else value.

(** The bytes of a value of [T] in the order of an endianness. *)
Definition encode (e : endian) (T : int_type) (value : Z) : list Z :=
  in_order e (le_bytes (sizeof T) (value mod modulus T)).

(** Byte [k] of a number, counted from the least significant one. *)
Definition byte_of (k : Z) (x : Z) : Z := Z.land (Z.shiftr x (8 * k)) (Z.ones 8).

(** A control character, the ones that lines 167 and 256 replace. *)
Definition is_control_char (c : Z) : Prop := 0 < c < 0x20.

(** The order list entry that line 238 reads. *)
Definition order_entry (orderList : list Z) (ord : nat) : Z := nth ord orderList 0.

(** The values of the 16-bit and of the 8-bit fields of the source header. *)
Definition is_uint16 (x : Z) : Prop := 0 <= x < 65536.
Definition is_byte (x : Z) : Prop := 0 <= x < 256.

(** The position of [fIn] at which the data of slot [i] are read: the
    sizes that the earlier slots consumed, from line 414 on. *)
Fixpoint sample_pos (modHeader : MODFileHeader.t) (numChannels : nat) (i : nat) : Z :=
  match i with
  | O => sample_data_start modHeader numChannels
  | S j =>
      sample_pos modHeader numChannels j
      + KMSampleHeader.sampleSize (sample_header j (sample_at modHeader j))
  end.

(** What the sample loop writes for slot [i]. *)
Definition sample_chunk (fIn : list Z) (modHeader : MODFileHeader.t)
  (numChannels : nat) (i : nat) : list Written :=
  let kmSample := sample_header i (sample_at modHeader i) in
  if MODSampleHeader.length (sample_at modHeader i) <? 2 then []
  else [ WSample kmSample;
         WData (read_bytes fIn (sample_pos modHeader numChannels i)
                  (Z.to_nat (KMSampleHeader.sampleSize kmSample))) ].

(** ** The music stream as a sequence of items

    What lines 379-403 append to [musicData] is either the four bytes of an
    event or one count byte. *)
Inductive Item :=
| Event (n i c p : Z)
| Count (v : Z).

Definition item_bytes (it : Item) : list Z :=
  match it with
  | Event n i c p => [n; i; c; p]
  | Count v => [v]
  end.

Definition stream_of (items : list Item) : list Z :=
  concat (map item_bytes items).

(** The values that the fields of an item take: a note of the period
    table or none, a 5-bit sample number, a command of the translator, any
    byte as parameter; a count byte has its top bit set. *)
Definition item_ok (it : Item) : Prop :=
  match it with
  | Event n i c p => 0 <= n <= 36 /\ 0 <= i <= 31 /\ 0 <= c <= 0x14 /\ 0 <= p <= 0xFF
  | Count v => is_count v
  end.

(** A reader of the stream that tells a count byte from the first byte of
    an event by its top bit. *)
Fixpoint parse (musicData : list Z) : option (list Item) :=
  match musicData with
  | [] => Some []
  | b :: rest =>
      if 0x80 <=? b then option_map (cons (Count b)) (parse rest)
      else
        match rest with
        | i :: c :: p :: rest' => option_map (cons (Event b i c p)) (parse rest')
        | _ => None
        end
  end.

(** A stream that is a sequence of well-formed items. *)
Definition well_formed (musicData : list Z) : Prop :=
  exists items, musicData = stream_of items /\ Forall item_ok items.

(** The state in which the sequencer ends on [flag_file]. *)
Definition flag_final : SeqState :=
  Eval vm_compute in
    match sequence flag_file flag_header 1 with
    | Some st => st
    | None => seq_init 1
    end.

(** ** Reading the source header (lines 83-99, 138-142 and 210-211)

    [Read(fIn, modHeader)] fills the header with the first 1084 bytes of
    the file, and every packed field is decoded when it is used.  The
    packed fields are zero-initialised, so that a field past the end of a
    short file reads as 0 here as in the source; the two [char] arrays are
    not, and what they hold past the end of the file is indeterminate in
    the source. *)

Definition sizeof_MODSampleHeader : Z := 22 + 2 + 1 + 1 + 2 + 2.

Section Host.

Variable native : endian.
Variable fIn : list Z.

(** The packed field of type [T] stored at position [pos]. *)
Definition read_packed (endianness : endian) (T : int_type) (pos : Z) : Z :=
  packed_read endianness native T (read_bytes fIn pos (sizeof T)).

Definition read_MODSampleHeader (pos : Z) : MODSampleHeader.t :=
  MODSampleHeader.mk
    (read_bytes fIn pos 22)
    (read_packed endian_big uint16_t (pos + 22))
    (read_packed endian_big uint8_t (pos + 24))
    (read_packed endian_big uint8_t (pos + 25))
    (read_packed endian_big uint16_t (pos + 26))
    (read_packed endian_big uint16_t (pos + 28)).

Definition read_MODFileHeader : MODFileHeader.t :=
  MODFileHeader.mk
    (read_bytes fIn 0 20)
    (map (fun i => read_MODSampleHeader (20 + sizeof_MODSampleHeader * Z.of_nat i))
         (seq 0 31))
    (read_packed endian_big uint8_t 950)
    (read_packed endian_big uint8_t 951)
    (map (fun ord => read_packed endian_big uint8_t (952 + Z.of_nat ord)) (seq 0 128))
    (read_bytes fIn 1080 4).

(** [main] from line 210 on, on the bytes of the source file. *)
Definition main_file : option (Z * list Written) :=
  main fIn read_MODFileHeader.

End Host.

(** The number that two bytes spell, most significant first. *)
Definition be16 (hi lo : Z) : Z := 256 * hi + lo.

(** The fields of sample slot [i] as the bytes of the file spell them. *)
Definition slot_fields (fIn : list Z) (i : nat) (modSample : MODSampleHeader.t) : Prop :=
  let pos := 20 + 30 * Z.of_nat i in
  MODSampleHeader.name modSample = read_bytes fIn pos 22
  /\ MODSampleHeader.length modSample
     = be16 (byte_at fIn (pos + 22)) (byte_at fIn (pos + 23))
  /\ MODSampleHeader.finetune modSample = byte_at fIn (pos + 24)
  /\ MODSampleHeader.volume modSample = byte_at fIn (pos + 25)
  /\ MODSampleHeader.loopStart modSample
     = be16 (byte_at fIn (pos + 26)) (byte_at fIn (pos + 27))
  /\ MODSampleHeader.loopLength modSample
     = be16 (byte_at fIn (pos + 28)) (byte_at fIn (pos + 29)).

(** ** The bytes of the output file (lines 101-135, 150-160)

    [Write] copies the object representation of a record: its fields in
    order, without padding since every field is an array of bytes; a packed
    field holds what [operator=] stored for the value assigned to it. *)

Section Image.

Variable native : endian.

Definition KMSampleReference_bytes (r : KMSampleReference.t) : list Z :=
  KMSampleReference.name r
  ++ packed_assign endian_little native uint8_t (KMSampleReference.finetune r)
  ++ packed_assign endian_little native uint8_t (KMSampleReference.volume r).

Definition KMSongHeader_bytes (kmSong : KMSongHeader.t) : list Z :=
  KMSongHeader.id kmSong
  ++ packed_assign endian_little native uint32_t (KMSongHeader.chunkSize kmSong)
  ++ KMSongHeader.name kmSong
  ++ concat (map KMSampleReference_bytes (KMSongHeader.sample kmSong))
  ++ packed_assign endian_little native uint16_t (KMSongHeader.unknown kmSong)
  ++ packed_assign endian_little native uint32_t (KMSongHeader.numChannels kmSong)
  ++ packed_assign endian_little native uint32_t (KMSongHeader.restartPos kmSong)
  ++ packed_assign endian_little native uint32_t (KMSongHeader.musicSize kmSong).

Definition KMSampleHeader_bytes (kmSample : KMSampleHeader.t) : list Z :=
  KMSampleHeader.id kmSample
  ++ packed_assign endian_little native uint32_t (KMSampleHeader.chunkSize kmSample)
  ++ KMSampleHeader.name kmSample
  ++ packed_assign endian_little native uint32_t (KMSampleHeader.loopStart kmSample)
  ++ packed_assign endian_little native uint32_t (KMSampleHeader.sampleSize kmSample).

Definition written_bytes (w : Written) : list Z :=
  match w with
  | WSong kmSong => KMSongHeader_bytes kmSong
  | WData bytes => bytes
  | WSample kmSample => KMSampleHeader_bytes kmSample
  end.

(** The contents of the output file. *)
Definition file_bytes (fOut : list Written) : list Z :=
  concat (map written_bytes fOut).

End Image.

(** The size that a chunk declares: the little-endian 32-bit number after
    its 4-byte id. *)
Definition declared_size (chunk : list Z) : Z :=
  le_value (take 4 (drop 4 chunk)).

(** A reader that walks a file chunk by chunk, trusting the declared
    sizes; [None] when a size is below that of the id and size fields or
    exceeds what is left. *)
Fixpoint read_chunks (fuel : nat) (bytes : list Z) : option (list (list Z)) :=
  match bytes with
  | [] => Some []
  | _ :: _ =>
      match fuel with
      | O => None
      | S fuel' =>
          let size := Z.to_nat (declared_size bytes) in
          if (8 <=? size)%nat && (size <=? length bytes)%nat
          then option_map (cons (take size bytes)) (read_chunks fuel' (drop size bytes))
          else None
      end
  end.

(** A chunk whose length is the size it declares. *)
Definition chunk_ok (chunk : list Z) : Prop :=
  (8 <= length chunk)%nat /\ declared_size chunk = Z.of_nat (length chunk).

(** The slots whose samples are written. *)
Definition written_slots (modHeader : MODFileHeader.t) : list nat :=
  List.filter (fun i => 2 <=? MODSampleHeader.length (sample_at modHeader i)) (seq 0 31).

(** *** Example file

    The bytes of a source header, field by field, and a file that starts
    with them. *)
Definition MODSampleHeader_bytes (modSample : MODSampleHeader.t) : list Z :=
  MODSampleHeader.name modSample
  ++ encode endian_big uint16_t (MODSampleHeader.length modSample)
  ++ encode endian_big uint8_t (MODSampleHeader.finetune modSample)
  ++ encode endian_big uint8_t (MODSampleHeader.volume modSample)
  ++ encode endian_big uint16_t (MODSampleHeader.loopStart modSample)
  ++ encode endian_big uint16_t (MODSampleHeader.loopLength modSample).

Definition MODFileHeader_bytes (modHeader : MODFileHeader.t) : list Z :=
  MODFileHeader.name modHeader
  ++ concat (map MODSampleHeader_bytes (MODFileHeader.sample modHeader))
  ++ encode endian_big uint8_t (MODFileHeader.numOrders modHeader)
  ++ encode endian_big uint8_t (MODFileHeader.restartPos modHeader)
  ++ concat (map (encode endian_big uint8_t) (MODFileHeader.orderList modHeader))
  ++ MODFileHeader.magic modHeader.

(** [skip_file] with the bytes of its header in place: one empty pattern,
    then 2 bytes for slot 1 and 4 bytes for slot 2. *)
Definition skip_mod : list Z :=
  MODFileHeader_bytes skip_header
  ++ pattern_of 1 [] ++ [0xAA; 0xBB] ++ [0x01; 0x02; 0x03; 0x04].

(** What [main_file] writes for it. *)
Definition skip_output : list Written :=
  Eval vm_compute in
    match main_file endian_little skip_mod with
    | Some (_, fOut) => fOut
    | None => []
    end.





(** The stream splits after [k] bytes into two well-formed streams: byte
    [k] is where an item starts, or the end of the stream. *)
Definition item_boundary (musicData : list Z) (k : nat) : Prop :=
  exists s1 s2,
    musicData = s1 ++ s2 /\ length s1 = k /\ well_formed s1 /\ well_formed s2.

(** The restart offset that [st] holds is such a place, and the open
    runs of the channels point at count bytes. *)
Definition restart_inv (st : SeqState) : Prop :=
  (exists k, kmRestartPos st = to_uint32 (Z.of_nat k)
             /\ item_boundary (musicData st) k)
  /\ compressor_inv (channelState st, musicData st).



(** * Properties *)

(** ** Period-to-note resolver *)

Lemma period_table_length : length ProTrackerPeriodTable = 36%nat.
Proof. reflexivity. Qed.

Lemma period_at_lookup (i : nat) :
  (i < 36)%nat -> ProTrackerPeriodTable !! i = Some (period_at i).
Proof.
  intros Hi. unfold period_at. rewrite nth_lookup.
  destruct (lookup_lt_is_Some_2 ProTrackerPeriodTable i) as [x Hx].
  - rewrite period_table_length. exact Hi.
  - rewrite Hx. reflexivity.
Qed.

Lemma lookup_period_at (i : nat) (x : Z) :
  ProTrackerPeriodTable !! i = Some x -> (i < 36)%nat /\ x = period_at i.
Proof.
  intros Hx. split.
  - apply lookup_lt_Some in Hx. rewrite period_table_length in Hx. exact Hx.
  - unfold period_at. rewrite nth_lookup, Hx. reflexivity.
Qed.

(** The table is strictly descending. *)
Lemma period_table_descending (i : nat) :
  (S i < 36)%nat -> period_at (S i) < period_at i.
Proof.
  intros Hi.
  do 36 (destruct i as [|i]; [vm_compute; reflexivity|]).
  lia.
Qed.

(** The loop, started at index [i] with every earlier entry above the
    period, computes what the search for the first entry computes. *)
Lemma note_loop_first_entry (period : Z) (n i : nat) :
  (i + n = 36)%nat ->
  (forall j, (j < i)%nat -> period < period_at j) ->
  note_loop period n i =
    match list_find (fun t => t <= period) ProTrackerPeriodTable with
    | None => NO_NOTE
    | Some (i, t) =>
        if (period =? t) || Nat.eqb i 0 then Z.of_nat i + 1
        else if Z.abs (period - period_at (i - 1)) <? Z.abs (period - t)
             then Z.of_nat i
             else Z.of_nat i + 1
    end.
Proof.
  revert i. induction n as [|n IH]; intros i Hlen Habove.
  - assert (Hnone : list_find (fun t => t <= period) ProTrackerPeriodTable = None).
    { apply list_find_None, Forall_lookup. intros j x Hx.
      apply lookup_period_at in Hx as [Hj ->].
      specialize (Habove j). lia. }
    rewrite Hnone. reflexivity.
  - cbn [note_loop]. destruct (period >=? period_at i) eqn:Hge.
    + assert (Hfind : list_find (fun t => t <= period) ProTrackerPeriodTable
                      = Some (i, period_at i)).
      { apply list_find_Some. split; [apply period_at_lookup; lia|].
        split; [lia|]. intros j y Hy Hj.
        apply lookup_period_at in Hy as [_ ->].
        specialize (Habove j Hj). lia. }
      rewrite Hfind.
      destruct (period =? period_at i) eqn:Heq; cbn [negb andb orb]; [reflexivity|].
      destruct i as [|i]; cbn [Nat.eqb negb]; [reflexivity|].
      replace (S i - 1)%nat with i by lia.
      specialize (Habove i ltac:(lia)).
      destruct (period_at i - period <? period - period_at (S i)) eqn:Hlt;
        destruct (Z.abs (period - period_at i) <? Z.abs (period - period_at (S i))) eqn:Hlt';
        try reflexivity; lia.
    + apply IH; [lia|]. intros j Hj.
      destruct (decide (j = i)) as [->|Hne]; [lia|].
      apply Habove. lia.
Qed.

(** C4.  The resolver of lines 308-330 is the reference algorithm on every
    period: 0 and 0xFFF give "no note"; otherwise, for the first index [i]
    of the 36-entry table with [period >= table[i]], the note is [i + 1] on
    an exact match or when [i = 0], [i] when the period is strictly closer
    to [table[i-1]] than to [table[i]], and [i + 1] otherwise (ties too);
    "no note" when no entry qualifies. *)
Theorem period_to_note_refines_reference (period : Z) :
  period_to_note period = period_to_note_ref period.
Proof.
  unfold period_to_note, period_to_note_ref.
  destruct (period =? 0) eqn:H0; [replace period with 0 by lia; reflexivity|].
  destruct (period =? 0xFFF) eqn:Hmax; [replace period with 0xFFF by lia; reflexivity|].
  cbn [orb negb]. rewrite andb_true_r.
  destruct (period >? 0) eqn:Hpos.
  - apply note_loop_first_entry; [reflexivity|]. intros j Hj. lia.
  - assert (Hnone : list_find (fun t => t <= period) ProTrackerPeriodTable = None).
    { apply list_find_None, Forall_lookup. intros j x Hx.
      apply lookup_period_at in Hx as [Hj ->].
      assert (113 <= period_at j); [|lia].
      clear -Hj. do 36 (destruct j as [|j]; [vm_compute; discriminate|]). lia. }
    rewrite Hnone. reflexivity.
Qed.


(** ** Effect translator *)

(** A boolean property checked on the 256 byte values holds of every byte. *)
Lemma byte_cases (P : Z -> bool) :
  forallb P all_bytes = true -> forall b, 0 <= b < 256 -> P b = true.
Proof.
  intros Hall b Hb. rewrite forallb_forall in Hall. apply Hall.
  unfold all_bytes. apply in_map_iff. exists (Z.to_nat b). split; [lia|].
  apply in_seq. lia.
Qed.

Lemma low_nibble_range (b : Z) : 0 <= Z.land b 0x0F < 16.
Proof.
  change 0x0F with (Z.ones 4). rewrite Z.land_ones by lia.
  apply Z.mod_pos_bound. reflexivity.
Qed.

Lemma low_nibble_cases (b : Z) :
  In (Z.land b 0x0F) handled_commands \/ Z.land b 0x0F = 8.
Proof.
  pose proof (low_nibble_range b) as H. unfold handled_commands.
  assert (Hc : Z.land b 0x0F = 0 \/ Z.land b 0x0F = 1 \/ Z.land b 0x0F = 2
    \/ Z.land b 0x0F = 3 \/ Z.land b 0x0F = 4 \/ Z.land b 0x0F = 5
    \/ Z.land b 0x0F = 6 \/ Z.land b 0x0F = 7 \/ Z.land b 0x0F = 8
    \/ Z.land b 0x0F = 9 \/ Z.land b 0x0F = 10 \/ Z.land b 0x0F = 11
    \/ Z.land b 0x0F = 12 \/ Z.land b 0x0F = 13 \/ Z.land b 0x0F = 14
    \/ Z.land b 0x0F = 15) by lia.
  cbn [In]. intuition auto.
Qed.

Lemma extended_ok_all : forallb extended_ok all_bytes = true.
Proof. vm_compute. reflexivity. Qed.

(** Case analysis on the command nibble of [b2]: one goal per value. *)
Ltac command_cases b2 :=
  let H := fresh "Hcmd" in
  pose proof (low_nibble_cases b2) as H;
  generalize dependent (Z.land b2 0x0F); intros ? H;
  destruct H as [H|H];
  [ unfold handled_commands in H; cbn [In] in H;
    repeat (destruct H as [H|H]); try contradiction | ];
  subst.

(** The command and parameter that the translator yields depend on the
    command nibble and the parameter only. *)
Lemma translate_effect_pure (b2 b2' b3 ord ord' startRow startRow' row row' : Z) :
  Z.land b2' 0x0F = Z.land b2 0x0F ->
  e_command (translate_effect b2' b3 ord' startRow' row')
    = e_command (translate_effect b2 b3 ord startRow row)
  /\ e_param (translate_effect b2' b3 ord' startRow' row')
    = e_param (translate_effect b2 b3 ord startRow row).
Proof.
  intros Heq. unfold translate_effect. rewrite Heq. clear Heq.
  command_cases b2; cbn [e_command e_param]; try (split; reflexivity).
  destruct (Z.land b3 0xF0) as [|q|q]; try (split; reflexivity).
  do 9 (try destruct q as [q|q|]); split; reflexivity.
Qed.

(** Commands other than position-jump and pattern-break leave the loop
    variables alone. *)
Lemma translate_effect_no_control (b2 b3 ord startRow row : Z) :
  Z.land b2 0x0F <> 0x0B -> Z.land b2 0x0F <> 0x0D ->
  e_ord (translate_effect b2 b3 ord startRow row) = ord
  /\ e_startRow (translate_effect b2 b3 ord startRow row) = startRow
  /\ e_row (translate_effect b2 b3 ord startRow row) = row.
Proof.
  unfold translate_effect.
  command_cases b2; intros HB HD; try contradiction;
    cbn [e_ord e_startRow e_row]; try (repeat split; reflexivity).
  destruct (Z.land b3 0xF0) as [|q|q]; try (repeat split; reflexivity).
  do 9 (try destruct q as [q|q|]); repeat split; reflexivity.
Qed.

(** C7.  The effect translator is a function of the 4-bit command and the
    8-bit parameter: (1) its command and parameter do not depend on anything
    else, and outside position-jump (0xB) and pattern-break (0xD) it leaves
    [ord], [startRow] and [row] untouched; (2) arpeggio (0x0) with a zero
    parameter yields "no effect", with a non-zero parameter 0x0B; (3) the
    extended command (0xE) maps the six sub-commands of [extended_codes],
    selected by the parameter's high nibble, to six distinct codes with the
    parameter masked to its low nibble, and every other sub-command to "no
    effect" with parameter 0; (4) a command without a [case] label (only
    0x8) yields "no effect" with parameter 0. *)
Theorem effect_translator_table (b2 b3 ord startRow row : Z) (Hb3 : 0 <= b3 < 256) :
  let e := translate_effect b2 b3 ord startRow row in
  let cmd := Z.land b2 0x0F in
  (forall b2' ord' startRow' row',
      Z.land b2' 0x0F = cmd ->
      e_command (translate_effect b2' b3 ord' startRow' row') = e_command e
      /\ e_param (translate_effect b2' b3 ord' startRow' row') = e_param e)
  /\ (cmd <> 0x0B -> cmd <> 0x0D ->
      e_ord e = ord /\ e_startRow e = startRow /\ e_row e = row)
  /\ (cmd = 0x00 -> b3 = 0 -> e_command e = NO_EFFECT /\ e_param e = 0)
  /\ (cmd = 0x00 -> b3 <> 0 -> e_command e = 0x0B /\ e_param e = b3)
  /\ (cmd = 0x0E ->
      match assoc (Z.shiftr b3 4) extended_codes with
      | Some c => e_command e = c /\ e_param e = Z.land b3 0x0F
      | None => e_command e = NO_EFFECT /\ e_param e = 0
      end)
  /\ (length extended_codes = 6%nat
      /\ NoDup (map fst extended_codes) /\ NoDup (map snd extended_codes))
  /\ (~ In cmd handled_commands -> e_command e = NO_EFFECT /\ e_param e = 0)
  /\ (~ In cmd handled_commands <-> cmd = 0x08).
Proof.
  intros e cmd. subst e cmd.
  split; [intros; apply translate_effect_pure; assumption|].
  split; [apply translate_effect_no_control|].
  split.
  { intros H0 ->. unfold translate_effect. rewrite H0. split; reflexivity. }
  split.
  { intros H0 Hnz. unfold translate_effect. rewrite H0.
    cbn [e_command e_param]. destruct (b3 =? 0) eqn:Hz; [lia|]. split; reflexivity. }
  split.
  { intros HE.
    pose proof (byte_cases extended_ok extended_ok_all b3 Hb3) as Hok.
    unfold extended_ok in Hok.
    destruct (translate_effect_pure 0x0E b2 b3 0 ord 0 startRow 0 row) as [Hc Hp];
      [rewrite HE; reflexivity|].
    rewrite Hc, Hp.
    destruct (assoc (Z.shiftr b3 4) extended_codes);
      apply andb_true_iff in Hok as [H1 H2]; split; lia. }
  split.
  { split; [reflexivity|].
    split; apply (bool_decide_unpack _); vm_compute; reflexivity. }
  split.
  { intros Hnot. destruct (low_nibble_cases b2) as [H|H]; [contradiction|].
    unfold translate_effect. rewrite H. split; reflexivity. }
  { split.
    - intros Hnot. destruct (low_nibble_cases b2) as [H|H]; [contradiction|exact H].
    - intros -> Hin. unfold handled_commands in Hin. cbn [In] in Hin.
      intuition discriminate. }
Qed.

(** C7 at a concrete cell: extended sub-command 0xA with parameter 0xA7. *)
Lemma effect_translator_table_witness :
  e_command (translate_effect 0x0E 0xA7 0 0 0) = 0x01
  /\ e_param (translate_effect 0x0E 0xA7 0 0 0) = 0x07.
Proof.
  pose proof (effect_translator_table 0x0E 0xA7 0 0 0 ltac:(lia)) as H.
  cbv zeta in H.
  destruct H as (_ & _ & _ & _ & HE & _).
  specialize (HE eq_refl). exact HE.
Defined.


(** ** Compressor: the branches of one step *)

Lemma same_event_test (cs : ChannelState) (n i c p : Z) :
  (n =? note cs) && (i =? instr cs) && (c =? command cs) && (p =? param cs) = true
  <-> same_event cs n i c p.
Proof. unfold same_event. rewrite !andb_true_iff, !Z.eqb_eq. tauto. Qed.

Lemma same_event_test_false (cs : ChannelState) (n i c p : Z) :
  (n =? note cs) && (i =? instr cs) && (c =? command cs) && (p =? param cs) = false
  <-> ~ same_event cs n i c p.
Proof. rewrite <- same_event_test. destruct (_ && _); split; congruence. Qed.

(** Hold, run open and count byte below 255: the count byte is incremented
    in place. *)
Lemma emit_hold_increment (cs : ChannelState) (out : list Z) (n i c p : Z) :
  same_event cs n i c p ->
  repeatOffset cs <> 0%nat -> nth (repeatOffset cs) out 0 < 0xFF ->
  emit cs out n i c p = (cs, alter incr_byte (repeatOffset cs) out).
Proof.
  intros Hsame Hoff Hlt. unfold emit.
  apply same_event_test in Hsame. rewrite Hsame.
  destruct (Nat.eqb_spec (repeatOffset cs) 0); [contradiction|].
  destruct (Z.ltb_spec (nth (repeatOffset cs) out 0) 0xFF); [reflexivity|lia].
Qed.

(** Hold, no run open or count byte saturated: a fresh count byte 0x80 is
    appended and its offset recorded. *)
Lemma emit_hold_open (cs : ChannelState) (out : list Z) (n i c p : Z) :
  same_event cs n i c p ->
  repeatOffset cs = 0%nat \/ 0xFF <= nth (repeatOffset cs) out 0 ->
  emit cs out n i c p =
    (mkChannelState (note cs) (instr cs) (command cs) (param cs) (length out),
     out ++ [0x80]).
Proof.
  intros Hsame Hor. unfold emit.
  apply same_event_test in Hsame. rewrite Hsame.
  destruct (Nat.eqb_spec (repeatOffset cs) 0); [reflexivity|].
  destruct (Z.ltb_spec (nth (repeatOffset cs) out 0) 0xFF); [|reflexivity].
  destruct Hor; [contradiction|lia].
Qed.

(** Command and parameter as last emitted, note or instrument not: the last
    byte of the stream is flagged, nothing is appended and the channel keeps
    the note and instrument of its last event. *)
Lemma emit_continuation (cs : ChannelState) (out : list Z) (n i c p : Z) :
  ~ same_event cs n i c p -> c = command cs -> p = param cs ->
  emit cs out n i c p = (close_run cs, flag_back out).
Proof.
  intros Hdiff Hc Hp. unfold emit.
  apply same_event_test_false in Hdiff. rewrite Hdiff. cbn [command param].
  rewrite Hc, Hp, !Z.eqb_refl. reflexivity.
Qed.

(** Anything else: a full four-byte event. *)
Lemma emit_event (cs : ChannelState) (out : list Z) (n i c p : Z) :
  ~ (c = command cs /\ p = param cs) ->
  emit cs out n i c p = (mkChannelState n i c p 0, out ++ [n; i; c; p]).
Proof.
  intros Hdiff. unfold emit.
  assert (Hns : ~ same_event cs n i c p) by (unfold same_event; tauto).
  apply same_event_test_false in Hns. rewrite Hns. cbn [command param repeatOffset].
  destruct (Z.eqb_spec c (command cs)); [|reflexivity].
  destruct (Z.eqb_spec p (param cs)); [tauto|reflexivity].
Qed.

(** The four branches are the only ones. *)
Lemma emit_cases (cs : ChannelState) (out : list Z) (n i c p : Z) :
  emit cs out n i c p = (cs, alter incr_byte (repeatOffset cs) out)
  \/ emit cs out n i c p =
       (mkChannelState (note cs) (instr cs) (command cs) (param cs) (length out),
        out ++ [0x80])
  \/ emit cs out n i c p = (close_run cs, flag_back out)
  \/ emit cs out n i c p = (mkChannelState n i c p 0, out ++ [n; i; c; p]).
Proof.
  unfold emit. cbn [command param repeatOffset].
  destruct (_ && _ && _ && _).
  - destruct (_ && _); auto.
  - destruct (_ && _); auto.
Qed.

Lemma flag_back_length (out : list Z) : length (flag_back out) = length out.
Proof. unfold flag_back. apply length_alter. Qed.

(** Every step of the compressor keeps or extends the stream, by at most
    four bytes. *)
Lemma emit_length (cs : ChannelState) (out : list Z) (n i c p : Z) :
  (length out <= length (snd (emit cs out n i c p)) <= length out + 4)%nat.
Proof.
  destruct (emit_cases cs out n i c p) as [H|[H|[H|H]]]; rewrite H; cbn [snd];
    rewrite ?length_alter, ?flag_back_length, ?length_app; cbn [length]; lia.
Qed.


(** *** Hold compression *)

Lemma nth_middle_app (base l : list Z) (x : Z) :
  nth (length base + length l) (base ++ l ++ [x]) 0 = x.
Proof.
  rewrite app_assoc, <- length_app. rewrite nth_lookup.
  rewrite list_lookup_middle by reflexivity. reflexivity.
Qed.

Lemma alter_middle_app (f : Z -> Z) (base l : list Z) (x : Z) :
  alter f (length base + length l)%nat (base ++ l ++ [x]) = base ++ l ++ [f x].
Proof.
  rewrite app_assoc, <- length_app.
  replace (length (base ++ l)) with (length (base ++ l) + 0)%nat by lia.
  rewrite alter_app_r. cbn [alter list_alter]. rewrite <- app_assoc. reflexivity.
Qed.

(** One more identical cell after [r >= 1] repeats of an event. *)
Lemma hold_step (base : list Z) (n i c p : Z) (r : nat) :
  (1 <= r)%nat -> base <> [] ->
  emit (mkChannelState n i c p (length base + (r - 1) / 128)) (base ++ repeat_bytes r) n i c p
  = (mkChannelState n i c p (length base + (S r - 1) / 128), base ++ repeat_bytes (S r)).
Proof.
  intros Hr Hbase. unfold repeat_bytes.
  set (q := ((r - 1) / 128)%nat). set (m := ((r - 1) mod 128)%nat).
  assert (Hqm : (r - 1 = 128 * q + m)%nat) by (apply Nat.div_mod_eq).
  assert (Hm : (m < 128)%nat) by (apply Nat.mod_upper_bound; lia).
  assert (Hlen : (0 < length base)%nat) by (destruct base; [congruence|cbn; lia]).
  assert (Hq : length (replicate q 0xFF) = q) by apply length_replicate.
  assert (Hnth : nth (length base + q) (base ++ replicate q 0xFF ++ [0x80 + Z.of_nat m]) 0
                 = 0x80 + Z.of_nat m).
  { rewrite <- Hq at 1. apply nth_middle_app. }
  destruct (decide (m = 127%nat)) as [Hsat|Hnot].
  - (* the count byte is 0xFF: a new run is opened *)
    assert (Hq' : ((S r - 1) / 128 = S q)%nat).
    { symmetry. apply (Nat.div_unique _ _ _ 0%nat); lia. }
    assert (Hm' : ((S r - 1) mod 128 = 0)%nat).
    { symmetry. apply (Nat.mod_unique _ _ (S q)); lia. }
    rewrite Hq', Hm'.
    rewrite emit_hold_open; cbn [note instr command param repeatOffset].
    + f_equal.
      * f_equal. rewrite !length_app, Hq. cbn [length]. lia.
      * rewrite Hsat. cbn [replicate]. rewrite replicate_cons_app.
        rewrite <- !app_assoc. reflexivity.
    + unfold same_event; cbn; tauto.
    + right. rewrite Hnth, Hsat. reflexivity.
  - (* the count byte is below 0xFF: it is incremented *)
    assert (Hq' : ((S r - 1) / 128 = q)%nat).
    { symmetry. apply (Nat.div_unique _ _ _ (S m)); lia. }
    assert (Hm' : ((S r - 1) mod 128 = S m)%nat).
    { symmetry. apply (Nat.mod_unique _ _ q); lia. }
    rewrite Hq', Hm'.
    rewrite emit_hold_increment; cbn [note instr command param repeatOffset].
    + f_equal. rewrite <- Hq at 1. rewrite alter_middle_app. do 3 f_equal.
      unfold incr_byte. rewrite Z.mod_small by lia. lia.
    + unfold same_event; cbn; tauto.
    + lia.
    + rewrite Hnth. lia.
Qed.

(** [k] more identical cells after [r >= 1] repeats. *)
Lemma hold_steps (base : list Z) (n i c p : Z) (k r : nat) :
  (1 <= r)%nat -> base <> [] ->
  emit_run k (mkChannelState n i c p (length base + (r - 1) / 128))
    (base ++ repeat_bytes r) n i c p
  = (mkChannelState n i c p (length base + (r + k - 1) / 128),
     base ++ repeat_bytes (r + k)).
Proof.
  revert r. induction k as [|k IH]; intros r Hr Hbase.
  - cbn [emit_run]. replace (r + 0)%nat with r by lia. reflexivity.
  - cbn [emit_run]. rewrite hold_step by assumption.
    rewrite IH by (assumption || lia).
    replace (S r + k)%nat with (r + S k)%nat by lia. reflexivity.
Qed.

(** [N >= 2] identical cells of which the first is emitted as an event. *)
Lemma emit_run_event (cs : ChannelState) (out : list Z) (n i c p : Z) (N : nat) :
  ~ (c = command cs /\ p = param cs) -> (2 <= N)%nat ->
  snd (emit_run N cs out n i c p) = out ++ [n; i; c; p] ++ repeat_bytes (N - 1).
Proof.
  intros Hdiff HN.
  destruct N as [|[|k]]; try lia.
  cbn [emit_run]. rewrite emit_event by assumption.
  rewrite emit_hold_open by (unfold same_event; cbn; tauto).
  cbn [note instr command param].
  pose proof (hold_steps (out ++ [n; i; c; p]) n i c p k 1 ltac:(lia)) as H.
  change ((1 - 1) / 128)%nat with 0%nat in H.
  change (repeat_bytes 1) with [0x80] in H.
  replace (length (out ++ [n; i; c; p]) + 0)%nat
    with (length (out ++ [n; i; c; p])) in H by lia.
  rewrite H.
  - cbn [snd]. rewrite <- app_assoc.
    replace (S (S k) - 1)%nat with (1 + k)%nat by lia. reflexivity.
  - destruct out; discriminate.
Qed.

Lemma repeat_bytes_single (r : nat) :
  (1 <= r <= 128)%nat -> repeat_bytes r = [0x7F + Z.of_nat r].
Proof.
  intros Hr. unfold repeat_bytes.
  rewrite Nat.div_small, Nat.mod_small by lia. cbn [replicate app].
  f_equal. lia.
Qed.


(** ** Sequencer: one cell *)

(** What the [switch] does to the loop variables, and the range of the
    command it yields. *)
Lemma translate_effect_control (b2 b3 ord startRow row : Z) :
  let e := translate_effect b2 b3 ord startRow row in
  let cmd := Z.land b2 0x0F in
  e_row e = (if is_control cmd then 64 else row)
  /\ e_startRow e = (if is_control cmd then 0 else startRow)
  /\ e_ord e = (if (cmd =? 0x0B) && (b3 >? ord) then b3 - 1 else ord)
  /\ 0 <= e_command e <= 0x14
  /\ (is_control cmd = true -> e_command e = NO_EFFECT /\ e_param e = 0).
Proof.
  cbv zeta. unfold translate_effect.
  command_cases b2.
  all: cbn [e_command e_param e_ord e_startRow e_row is_control Z.eqb Pos.eqb orb andb].
  all: try (repeat split; first [reflexivity | lia | discriminate]).
  - destruct (negb (b3 =? 0)); repeat split; first [reflexivity | lia | discriminate].
  - destruct (Z.land b3 0xF0) as [|q|q];
      try (repeat split; first [reflexivity | lia | discriminate]).
    do 9 (try destruct q as [q|q|]);
      cbn [e_command e_param e_ord e_startRow e_row];
      repeat split; first [reflexivity | lia | discriminate].
Qed.

Section SequencerFacts.

Variable fIn : list Z.
Variable numChannels : nat.

Lemma cell_step_unfold (st : SeqState) (chn : nat) :
  cell_step fIn st chn =
    let b0 := byte_at fIn (fpos st) in
    let b1 := byte_at fIn (fpos st + 1) in
    let b2 := byte_at fIn (fpos st + 2) in
    let b3 := byte_at fIn (fpos st + 3) in
    let e := translate_effect b2 b3 (ord st) (startRow st) (row st) in
    let r := emit (channelState st !!! chn) (musicData st)
               (period_to_note (cell_period b0 b1)) (cell_instr b0 b2)
               (e_command e) (e_param e) in
    mkSeqState (e_ord e) (e_row e) (e_startRow e) (fpos st + 4)
      (<[chn := fst r]> (channelState st)) (snd r)
      (kmRestartPos st) (S (steps st)) (begun st) (captures st).
Proof.
  unfold cell_step, read_cell. cbv zeta.
  destruct (emit _ _ _ _ _ _). reflexivity.
Qed.

(** The loop variables after one cell. *)
Lemma cell_step_control (st : SeqState) (chn : nat) :
  let cmd := cell_command fIn (fpos st) in
  let st' := cell_step fIn st chn in
  row st' = (if is_control cmd then 64 else row st)
  /\ startRow st' = (if is_control cmd then 0 else startRow st)
  /\ ord st' = (if (cmd =? 0x0B) && (cell_param fIn (fpos st) >? ord st)
                then cell_param fIn (fpos st) - 1 else ord st).
Proof.
  cbv zeta. rewrite cell_step_unfold. cbv zeta. cbn [row startRow ord].
  unfold cell_command, cell_param.
  pose proof (translate_effect_control (byte_at fIn (fpos st + 2))
                (byte_at fIn (fpos st + 3)) (ord st) (startRow st) (row st)) as H.
  cbv zeta in H. tauto.
Qed.

(** The bookkeeping of one cell: four bytes read, one step counted, the
    restart offset and the history of the outer loop untouched. *)
Lemma cell_step_frame (st : SeqState) (chn : nat) :
  let st' := cell_step fIn st chn in
  fpos st' = fpos st + 4
  /\ steps st' = S (steps st)
  /\ kmRestartPos st' = kmRestartPos st
  /\ begun st' = begun st
  /\ captures st' = captures st
  /\ length (channelState st') = length (channelState st).
Proof.
  cbv zeta. rewrite cell_step_unfold. cbv zeta.
  cbn [fpos steps kmRestartPos begun captures channelState].
  rewrite length_insert. repeat split; reflexivity.
Qed.

(** The stream after one cell: one of the four encodings of the compressor
    applied to the stream before. *)
Lemma cell_step_stream (st : SeqState) (chn : nat) :
  exists n i c p,
    musicData (cell_step fIn st chn)
    = snd (emit (channelState st !!! chn) (musicData st) n i c p).
Proof.
  rewrite cell_step_unfold. cbv zeta. cbn [musicData]. eauto.
Qed.

Lemma cell_step_length (st : SeqState) (chn : nat) :
  (length (musicData st) <= length (musicData (cell_step fIn st chn))
   <= length (musicData st) + 4)%nat.
Proof.
  destruct (cell_step_stream st chn) as (n & i & c & p & ->). apply emit_length.
Qed.

Lemma cell_step_ord (st : SeqState) (chn : nat) :
  ord st <= ord (cell_step fIn st chn).
Proof.
  destruct (cell_step_control st chn) as (_ & _ & ->).
  destruct (_ && _) eqn:H; [|lia].
  apply andb_true_iff in H as [_ H]. lia.
Qed.

End SequencerFacts.


(** ** Sequencer: rows *)

Section RowFacts.

Variable fIn : list Z.
Variable numChannels : nat.

Lemma cells_refl (st : SeqState) : cells 0 st st.
Proof. unfold cells. repeat split; lia. Qed.

Lemma cells_trans (k1 k2 : nat) (st1 st2 st3 : SeqState) :
  cells k1 st1 st2 -> cells k2 st2 st3 -> cells (k1 + k2) st1 st3.
Proof.
  unfold cells. intros (H1 & H2 & H3 & H4 & H5 & H6 & H7 & H8)
                       (G1 & G2 & G3 & G4 & G5 & G6 & G7 & G8).
  repeat split; try congruence; lia.
Qed.

Lemma cells_cell_step (st : SeqState) (chn : nat) :
  cells 1 st (cell_step fIn st chn).
Proof.
  pose proof (cell_step_frame fIn st chn) as H. cbv zeta in H.
  pose proof (cell_step_length fIn st chn).
  pose proof (cell_step_ord fIn st chn).
  unfold cells. repeat split; try tauto; lia.
Qed.

(** The channel loop over any list of channels. *)
Lemma cells_fold (chns : list nat) (st : SeqState) :
  cells (length chns) st (fold_left (cell_step fIn) chns st).
Proof.
  revert st. induction chns as [|chn chns IH]; intros st.
  - apply cells_refl.
  - cbn [fold_left length]. change (S (length chns)) with (1 + length chns)%nat.
    eapply cells_trans; [apply cells_cell_step|apply IH].
Qed.

Lemma fold_control (chns : list nat) (st : SeqState) :
  let st' := fold_left (cell_step fIn) chns st in
  let ctl := row_has_control fIn (fpos st) (length chns) in
  row st' = (if ctl then 64 else row st)
  /\ startRow st' = (if ctl then 0 else startRow st).
Proof.
  cbv zeta. revert st. induction chns as [|chn chns IH]; intros st.
  - cbn. split; reflexivity.
  - cbn [fold_left length row_has_control].
    destruct (IH (cell_step fIn st chn)) as [Hr Hs].
    destruct (cell_step_control fIn st chn) as (Hr1 & Hs1 & _).
    destruct (cell_step_frame fIn st chn) as (Hp & _).
    rewrite Hr, Hs, Hp, Hr1, Hs1.
    destruct (is_control (cell_command fIn (fpos st)));
      destruct (row_has_control fIn (fpos st + 4) (length chns));
      split; reflexivity.
Qed.

(** All [numChannels] cells of a row are processed, whatever they hold. *)
Lemma chn_loop_cells (st : SeqState) :
  cells numChannels st (chn_loop fIn numChannels st).
Proof.
  unfold chn_loop.
  replace numChannels with (length (seq 0 numChannels)) at 1 by apply length_seq.
  apply cells_fold.
Qed.

Lemma chn_loop_control (st : SeqState) :
  let st' := chn_loop fIn numChannels st in
  let ctl := row_has_control fIn (fpos st) numChannels in
  row st' = (if ctl then 64 else row st)
  /\ startRow st' = (if ctl then 0 else startRow st).
Proof.
  pose proof (fold_control (seq 0 numChannels) st) as H.
  rewrite length_seq in H. exact H.
Qed.

(** One iteration of the row loop. *)
Lemma row_iteration (st : SeqState) :
  let st' := next_row (chn_loop fIn numChannels (clear_startRow st)) in
  cells numChannels st st'
  /\ startRow st' = 0
  /\ row st' = (if row_has_control fIn (fpos st) numChannels then 65 else row st + 1).
Proof.
  cbv zeta.
  pose proof (chn_loop_cells (clear_startRow st)) as Hc.
  destruct (chn_loop_control (clear_startRow st)) as [Hr Hs].
  cbn [clear_startRow fpos row startRow] in Hr, Hs.
  split; [|split].
  - unfold cells in *. cbn [next_row clear_startRow ord musicData steps fpos
      kmRestartPos begun captures channelState] in *. exact Hc.
  - cbn [next_row startRow]. rewrite Hs. destruct (row_has_control _ _ _); reflexivity.
  - cbn [next_row row]. rewrite Hr. destruct (row_has_control _ _ _); reflexivity.
Qed.

(** The row loop ends: [64 - row] iterations of fuel are enough, and the
    state it ends in is reached by processing at most
    [numChannels * (64 - row)] cells. *)
Lemma row_loop_total (fuel : nat) (st : SeqState) :
  (Z.to_nat (64 - row st) <= fuel)%nat ->
  exists st' k,
    row_loop fIn numChannels fuel st = Some st'
    /\ cells k st st'
    /\ (k <= numChannels * Z.to_nat (64 - row st))%nat
    /\ 64 <= row st'
    /\ (row st < 64 -> startRow st' = 0)
    /\ (64 <= row st -> st' = st).
Proof.
  revert st. induction fuel as [|fuel IH]; intros st Hfuel.
  - exists st, 0%nat. cbn [row_loop].
    destruct (Z.ltb_spec (row st) 64); [lia|].
    split; [reflexivity|]. split; [apply cells_refl|]. repeat split; lia.
  - cbn [row_loop]. destruct (Z.ltb_spec (row st) 64) as [Hlt|Hge].
    + destruct (row_iteration st) as (Hc & Hs & Hr).
      set (st1 := next_row (chn_loop fIn numChannels (clear_startRow st))) in *.
      assert (Hrow : row st < row st1)
        by (rewrite Hr; destruct (row_has_control _ _ _); lia).
      destruct (IH st1) as (st' & k & Hrun & Hc' & Hk & Hend & Hstart & Hsame); [lia|].
      exists st', (numChannels + k)%nat. split; [exact Hrun|].
      split; [eapply cells_trans; eassumption|].
      split; [nia|]. split; [exact Hend|]. split; [|lia].
      intros _. destruct (Z.ltb_spec (row st1) 64) as [H1|H1].
      * apply Hstart, H1.
      * rewrite (Hsame H1). exact Hs.
    + exists st, 0%nat.
      split; [reflexivity|]. split; [apply cells_refl|]. repeat split; lia.
Qed.

(** More fuel does not change the result of the row loop. *)
Lemma row_loop_fuel (fuel fuel' : nat) (st st' : SeqState) :
  row_loop fIn numChannels fuel st = Some st' -> (fuel <= fuel')%nat ->
  row_loop fIn numChannels fuel' st = Some st'.
Proof.
  revert fuel' st. induction fuel as [|fuel IH]; intros fuel' st Hrun Hle.
  - cbn [row_loop] in Hrun. destruct fuel'; cbn [row_loop];
      destruct (row st <? 64); congruence.
  - destruct fuel' as [|fuel']; [lia|]. cbn [row_loop] in *.
    destruct (row st <? 64); [|exact Hrun].
    apply IH; [exact Hrun|lia].
Qed.

End RowFacts.


(** ** Sequencer: orders *)

Section OrderFacts.

Variable fIn : list Z.
Variable modHeader : MODFileHeader.t.
Variable numChannels : nat.

Let numOrders : Z := MODFileHeader.numOrders modHeader.

Lemma row_loop_cells (fuel : nat) (st st' : SeqState) :
  row_loop fIn numChannels fuel st = Some st' -> exists k, cells k st st'.
Proof.
  revert st. induction fuel as [|fuel IH]; intros st Hrun; cbn [row_loop] in Hrun.
  - destruct (row st <? 64); [discriminate|].
    injection Hrun as <-. exists 0%nat. apply cells_refl.
  - destruct (row st <? 64).
    + destruct (IH _ Hrun) as [k Hk].
      destruct (row_iteration fIn numChannels st) as (Hc & _).
      exists (numChannels + k)%nat. eapply cells_trans; eassumption.
    + injection Hrun as <-. exists 0%nat. apply cells_refl.
Qed.

(** The state in which the rows of an order are entered. *)
Lemma ord_begin_frame (st : SeqState) :
  let st' := ord_begin modHeader numChannels st in
  let size := to_uint32 (Z.of_nat (length (musicData st))) in
  let hit := MODFileHeader.restartPos modHeader =? ord st in
  ord st' = ord st /\ row st' = startRow st /\ startRow st' = startRow st
  /\ musicData st' = musicData st /\ steps st' = steps st
  /\ channelState st' = channelState st
  /\ begun st' = begun st ++ [ord st]
  /\ kmRestartPos st' = (if hit then size else kmRestartPos st)
  /\ captures st' = captures st ++ (if hit then [size] else []).
Proof.
  cbv zeta. unfold ord_begin.
  destruct (MODFileHeader.restartPos modHeader =? ord st); cbn;
    rewrite ?app_nil_r; repeat split; reflexivity.
Qed.

(** One iteration of the order loop, entered with [startRow = 0]: the row
    loop ends within its fuel, at most [64 * numChannels] cells later. *)
Lemma ord_iteration (st : SeqState) :
  startRow st = 0 ->
  exists st1 k,
    row_loop fIn numChannels 64 (ord_begin modHeader numChannels st) = Some st1
    /\ cells k (ord_begin modHeader numChannels st) st1
    /\ (k <= 64 * numChannels)%nat
    /\ startRow st1 = 0.
Proof.
  intros Hs.
  destruct (ord_begin_frame st) as (Ho & Hr & Hs' & _).
  destruct (row_loop_total fIn numChannels 64 (ord_begin modHeader numChannels st))
    as (st1 & k & Hrun & Hc & Hk & _ & Hstart & _).
  - rewrite Hr, Hs. reflexivity.
  - exists st1, k. rewrite Hr, Hs in Hk, Hstart.
    split; [exact Hrun|]. split; [exact Hc|]. split; [lia|]. apply Hstart. lia.
Qed.

(** The order loop ends within [numOrders - ord] iterations; the orders it
    enters form a strictly increasing sequence below [numOrders], and each
    of them costs at most [64 * numChannels] cells of at most 4 bytes. *)
Lemma ord_loop_run (fuel : nat) (st : SeqState) :
  startRow st = 0 ->
  (Z.to_nat (numOrders - ord st) <= fuel)%nat ->
  exists st' new,
    ord_loop fIn modHeader numChannels fuel st = Some st'
    /\ begun st' = begun st ++ new
    /\ StronglySorted Z.lt new
    /\ Forall (fun o => ord st <= o < numOrders) new
    /\ (steps st <= steps st' <= steps st + 64 * numChannels * length new)%nat
    /\ (length (musicData st) <= length (musicData st')
        <= length (musicData st) + 4 * (steps st' - steps st))%nat
    /\ length (channelState st') = length (channelState st)
    /\ startRow st' = 0.
Proof.
  revert st. induction fuel as [|fuel IH]; intros st Hs Hfuel.
  - exists st, []. cbn [ord_loop]. fold numOrders.
    destruct (Z.ltb_spec (ord st) numOrders); [lia|].
    rewrite app_nil_r. repeat split; try constructor; try lia; assumption.
  - cbn [ord_loop]. fold numOrders.
    destruct (Z.ltb_spec (ord st) numOrders) as [Hlt|Hge].
    + destruct (ord_iteration st Hs) as (st1 & k & Hrun & Hc & Hk & Hs1).
      rewrite Hrun.
      destruct (ord_begin_frame st) as (Ho & _ & _ & Hm & Hst & Hch & Hb & _).
      destruct Hc as (Hord & Hlen & Hsteps & _ & _ & Hbeg & _ & Hchl).
      destruct (IH (next_ord st1)) as (st' & new & Hloop & Hb' & Hsort & Hall & Hst' & Hlen' & Hch' & Hs');
        [exact Hs1|cbn [next_ord ord]; lia|].
      cbn [next_ord ord begun steps musicData channelState] in *.
      exists st', (ord st :: new). split; [exact Hloop|].
      split; [rewrite Hb', Hbeg, Hb, <- app_assoc; reflexivity|].
      split.
      { constructor; [exact Hsort|].
        eapply Forall_impl; [exact Hall|]. cbn. intros o Ho'. lia. }
      split.
      { constructor; [lia|].
        eapply Forall_impl; [exact Hall|]. cbn. intros o Ho'. lia. }
      cbn [length]. rewrite Hm, Hst in *. rewrite Hch in Hchl.
      repeat split; try congruence; try nia.
    + exists st, []. rewrite app_nil_r.
      repeat split; try constructor; try lia; assumption.
Qed.

(** More fuel does not change the result of the order loop. *)
Lemma ord_loop_fuel (fuel fuel' : nat) (st st' : SeqState) :
  ord_loop fIn modHeader numChannels fuel st = Some st' -> (fuel <= fuel')%nat ->
  ord_loop fIn modHeader numChannels fuel' st = Some st'.
Proof.
  revert fuel' st. induction fuel as [|fuel IH]; intros fuel' st Hrun Hle.
  - cbn [ord_loop] in Hrun. destruct fuel'; cbn [ord_loop];
      destruct (ord st <? _); congruence.
  - destruct fuel' as [|fuel']; [lia|]. cbn [ord_loop] in *.
    destruct (ord st <? _); [|exact Hrun].
    destruct (row_loop fIn numChannels 64 (ord_begin modHeader numChannels st));
      [|discriminate].
    apply IH; [exact Hrun|lia].
Qed.

(** A strictly increasing sequence inside [a, b) has at most [b - a]
    members. *)
Lemma increasing_length (l : list Z) (a b : Z) :
  StronglySorted Z.lt l -> Forall (fun o => a <= o < b) l ->
  (length l <= Z.to_nat (b - a))%nat.
Proof.
  revert a. induction l as [|x l IH]; intros a Hsort Hall; [cbn; lia|].
  apply StronglySorted_inv in Hsort as [Hsort Hx].
  apply Forall_cons in Hall as [Hxa Hall].
  assert (Hall' : Forall (fun o => x + 1 <= o < b) l).
  { rewrite Forall_forall in *. intros o Ho.
    specialize (Hx o Ho). specialize (Hall o Ho). lia. }
  specialize (IH (x + 1) Hsort Hall'). cbn [length]. lia.
Qed.

(** The whole sequencer, for any header and any file. *)
Lemma sequence_run :
  exists st,
    sequence fIn modHeader numChannels = Some st
    /\ StronglySorted Z.lt (begun st)
    /\ Forall (fun o => 0 <= o < numOrders) (begun st)
    /\ (steps st <= 64 * numChannels * Z.to_nat numOrders)%nat
    /\ (length (musicData st) <= 4 * steps st)%nat
    /\ length (channelState st) = numChannels.
Proof.
  unfold sequence. fold numOrders.
  destruct (ord_loop_run (Z.to_nat numOrders) (seq_init numChannels))
    as (st & new & Hrun & Hb & Hsort & Hall & Hst & Hlen & Hch & _).
  - reflexivity.
  - cbn [seq_init ord]. lia.
  - cbn [seq_init ord begun steps musicData channelState length app] in *.
    rewrite length_replicate in Hch.
    pose proof (increasing_length new 0 numOrders Hsort Hall) as Hn.
    exists st. rewrite Hb. repeat split; try assumption; try lia; try nia.
Qed.

End OrderFacts.

(** ** The whole conversion *)

Lemma identify_range (magic : list Z) : (identify magic 0 magics <= 4)%nat.
Proof.
  unfold magics. cbn [identify].
  repeat (destruct (bytes_eqb _ _); [cbn; lia|]). lia.
Qed.

(** The samples are written after what [fOut] already holds. *)
Lemma sample_steps_append (fIn : list Z) (modHeader : MODFileHeader.t)
  (slots : list nat) (pos : Z) (fOut : list Written) :
  exists rest,
    snd (fold_left (sample_step fIn modHeader) slots (pos, fOut)) = fOut ++ rest.
Proof.
  revert pos fOut. induction slots as [|i slots IH]; intros pos fOut.
  - exists []. cbn. rewrite app_nil_r. reflexivity.
  - cbn [fold_left]. unfold sample_step at 2.
    destruct (MODSampleHeader.length (sample_at modHeader i) <? 2).
    + apply IH.
    + destruct (IH (pos + KMSampleHeader.sampleSize
                            (sample_header i (sample_at modHeader i)))
                   (fOut ++ [WSample (sample_header i (sample_at modHeader i));
                             WData (read_bytes fIn pos
                               (Z.to_nat (KMSampleHeader.sampleSize
                                  (sample_header i (sample_at modHeader i)))))]))
        as [rest Hrest].
      rewrite Hrest, <- app_assoc. eauto.
Qed.

(** [main] on a header that passes validation: the sequencer ends, exit
    code 0, and the output starts with the song header and the stream. *)
Lemma main_valid (fIn : list Z) (modHeader : MODFileHeader.t) :
  let numChannels := identify (MODFileHeader.magic modHeader) 0 magics in
  numChannels <> 0%nat -> MODFileHeader.numOrders modHeader <= 128 ->
  exists st rest,
    sequence fIn modHeader numChannels = Some st
    /\ main fIn modHeader
       = Some (0, WSong (song_header modHeader numChannels st)
                    :: WData (musicData st) :: rest).
Proof.
  intros numChannels Hch Hord.
  destruct (sequence_run fIn modHeader numChannels) as (st & Hrun & _).
  destruct (sample_steps_append fIn modHeader (seq 0 31)
              (sample_data_start modHeader numChannels)
              [WSong (song_header modHeader numChannels st); WData (musicData st)])
    as [rest Hrest].
  exists st, rest. split; [exact Hrun|].
  unfold main. fold numChannels.
  destruct (Nat.eqb_spec numChannels 0); [contradiction|].
  destruct (Z.gtb_spec (MODFileHeader.numOrders modHeader) 128); [lia|].
  rewrite Hrun. unfold write_samples. rewrite Hrest. reflexivity.
Qed.

(** [main] produces output only with exit code 0, that is on a header that
    passes validation. *)
Lemma main_exit_0 (fIn : list Z) (modHeader : MODFileHeader.t) (fOut : list Written) :
  main fIn modHeader = Some (0, fOut) ->
  identify (MODFileHeader.magic modHeader) 0 magics <> 0%nat
  /\ MODFileHeader.numOrders modHeader <= 128.
Proof.
  unfold main.
  destruct (Nat.eqb_spec (identify (MODFileHeader.magic modHeader) 0 magics) 0);
    [discriminate|].
  destruct (Z.gtb_spec (MODFileHeader.numOrders modHeader) 128); [discriminate|].
  intros _. split; [assumption|lia].
Qed.

(** C10.  On every input that passes validation the conversion ends with
    exit code 0: the order indices at which the outer loop body is entered
    are strictly increasing, and at most [64 * numChannels * numOrders]
    cells are processed.  A position-jump moves [ord] only when its target
    exceeds [ord] (to the target minus one, which the loop's increment then
    completes); a jump to the current or an earlier order leaves [ord] as
    it is, and no cell ever lowers it. *)
Theorem conversion_terminates (fIn : list Z) (modHeader : MODFileHeader.t) :
  let numChannels := identify (MODFileHeader.magic modHeader) 0 magics in
  numChannels <> 0%nat -> MODFileHeader.numOrders modHeader <= 128 ->
  (exists st fOut,
      sequence fIn modHeader numChannels = Some st
      /\ main fIn modHeader = Some (0, fOut)
      /\ StronglySorted Z.lt (begun st)
      /\ (steps st <= 64 * numChannels
                      * Z.to_nat (MODFileHeader.numOrders modHeader))%nat)
  /\ (forall (st : SeqState) (chn : nat),
        let target := cell_param fIn (fpos st) in
        let st' := cell_step fIn st chn in
        (cell_command fIn (fpos st) = 0x0B -> ord st < target -> ord st' = target - 1)
        /\ (cell_command fIn (fpos st) = 0x0B -> target <= ord st -> ord st' = ord st)
        /\ (cell_command fIn (fpos st) <> 0x0B -> ord st' = ord st)
        /\ ord st <= ord st').
Proof.
  intros numChannels Hch Hord. split.
  - destruct (main_valid fIn modHeader Hch Hord) as (st & rest & Hrun & Hmain).
    destruct (sequence_run fIn modHeader numChannels)
      as (st' & Hrun' & Hsort & _ & Hsteps & _).
    fold numChannels in Hrun. rewrite Hrun in Hrun'. injection Hrun' as <-.
    exists st. eexists. split; [exact Hrun|]. split; [exact Hmain|].
    split; [exact Hsort|exact Hsteps].
  - intros st chn. cbv zeta.
    destruct (cell_step_control fIn st chn) as (_ & _ & Ho).
    pose proof (cell_step_ord fIn st chn) as Hmono.
    repeat split; try exact Hmono.
    + intros Hc Ht. rewrite Ho, Hc.
      destruct (Z.gtb_spec (cell_param fIn (fpos st)) (ord st)); [reflexivity|lia].
    + intros Hc Ht. rewrite Ho, Hc.
      destruct (Z.gtb_spec (cell_param fIn (fpos st)) (ord st)); [lia|reflexivity].
    + intros Hc. rewrite Ho.
      destruct (Z.eqb_spec (cell_command fIn (fpos st)) 0x0B); [contradiction|reflexivity].
Qed.


(** The end-to-end example of the specification: row 0 of a one-channel
    file with period 428, sample 1 and "set volume 0x20" yields the event
    [13; 1; 0x00; 0x20]; the 63 empty rows that follow yield one event and
    one count byte for 62 repeats. *)
Lemma end_to_end_example :
  option_map musicData
    (sequence (file_of (pattern_of 1 [0x01; 0xAC; 0x1C; 0x20])) flag_header 1)
  = Some [13; 1; 0x00; 0x20; 0; 0; 0x14; 0; 0x7F + 62].
Proof. vm_compute. reflexivity. Qed.

(** C10 on [jump_file], whose first cell jumps from order 0 to order 2. *)
Lemma conversion_terminates_witness :
  exists st fOut,
    sequence jump_file jump_header 1 = Some st
    /\ main jump_file jump_header = Some (0, fOut)
    /\ StronglySorted Z.lt (begun st)
    /\ (steps st <= 64 * 1 * Z.to_nat 3)%nat.
Proof.
  destruct (conversion_terminates jump_file jump_header) as [H _].
  - vm_compute. discriminate.
  - vm_compute. discriminate.
  - exact H.
Defined.

(** ** Stream length *)

(** C9.  The stream never shrinks: every cell leaves it as it is up to one
    of the four encodings (a count byte incremented in place, a count byte
    appended, the last byte flagged in place, a four-byte event appended),
    and the other transitions of the three loops do not touch it.  At the
    end the header's music-size field is the length of the stream that is
    written after the header. *)
Theorem stream_length_monotone (fIn : list Z) (modHeader : MODFileHeader.t) :
  (forall (st : SeqState) (chn : nat),
      let out := musicData st in
      let out' := musicData (cell_step fIn st chn) in
      (length out <= length out')%nat
      /\ exists off n i c p,
           out' = alter incr_byte off out
           \/ out' = out ++ [0x80]
           \/ out' = flag_back out
           \/ out' = out ++ [n; i; c; p])
  /\ (forall (numChannels : nat) (st : SeqState),
        musicData (clear_startRow st) = musicData st
        /\ musicData (next_row st) = musicData st
        /\ musicData (ord_begin modHeader numChannels st) = musicData st
        /\ musicData (next_ord st) = musicData st)
  /\ (forall fOut,
        main fIn modHeader = Some (0, fOut) ->
        exists st rest,
          sequence fIn modHeader (identify (MODFileHeader.magic modHeader) 0 magics)
            = Some st
          /\ fOut = WSong (song_header modHeader
                             (identify (MODFileHeader.magic modHeader) 0 magics) st)
                      :: WData (musicData st) :: rest
          /\ KMSongHeader.musicSize
               (song_header modHeader
                  (identify (MODFileHeader.magic modHeader) 0 magics) st)
             = Z.of_nat (length (musicData st))).
Proof.
  split; [|split].
  - intros st chn. cbv zeta. split; [apply cell_step_length|].
    destruct (cell_step_stream fIn st chn) as (n & i & c & p & ->).
    exists (repeatOffset (channelState st !!! chn)), n, i, c, p.
    destruct (emit_cases (channelState st !!! chn) (musicData st) n i c p)
      as [H|[H|[H|H]]]; rewrite H; cbn [snd]; auto.
  - intros numChannels st.
    destruct (ord_begin_frame modHeader numChannels st) as (_ & _ & _ & Hm & _).
    repeat split; try reflexivity. exact Hm.
  - intros fOut Hmain.
    destruct (main_exit_0 fIn modHeader fOut Hmain) as [Hch Hord].
    destruct (main_valid fIn modHeader Hch Hord) as (st & rest & Hrun & Hmain').
    rewrite Hmain in Hmain'. injection Hmain' as ->.
    exists st, rest. split; [exact Hrun|]. split; [reflexivity|].
    destruct (sequence_run fIn modHeader
                (identify (MODFileHeader.magic modHeader) 0 magics))
      as (st' & Hrun' & _ & _ & Hsteps & Hlen & _).
    rewrite Hrun in Hrun'. injection Hrun' as <-.
    pose proof (identify_range (MODFileHeader.magic modHeader)) as Hid.
    cbn [song_header KMSongHeader.musicSize]. unfold to_uint32.
    apply Z.mod_small.
    assert (Z.to_nat (MODFileHeader.numOrders modHeader) <= 128)%nat by lia.
    assert (length (musicData st) <= 4 * (64 * 4 * 128))%nat by nia.
    lia.
Qed.

(** C9 on [jump_file]. *)
Lemma stream_length_monotone_witness :
  exists st rest,
    sequence jump_file jump_header 1 = Some st
    /\ jump_output
       = WSong (song_header jump_header 1 st) :: WData (musicData st) :: rest
    /\ KMSongHeader.musicSize (song_header jump_header 1 st)
       = Z.of_nat (length (musicData st)).
Proof.
  destruct (stream_length_monotone jump_file jump_header) as (_ & _ & H).
  apply (H jump_output). vm_compute. reflexivity.
Defined.


(** ** Position-jump and pattern-break as control flow *)

Lemma row_has_control_at (fIn : list Z) (pos : Z) (k j : nat) :
  (j < k)%nat ->
  is_control (cell_command fIn (pos + 4 * Z.of_nat j)) = true ->
  row_has_control fIn pos k = true.
Proof.
  revert pos j. induction k as [|k IH]; intros pos j Hj Hc; [lia|].
  cbn [row_has_control]. destruct j as [|j].
  - replace (pos + 4 * Z.of_nat 0) with pos in Hc by lia. rewrite Hc. reflexivity.
  - rewrite (IH (pos + 4) j); [apply orb_true_r|lia|].
    replace (pos + 4 + 4 * Z.of_nat j) with (pos + 4 * Z.of_nat (S j)) by lia.
    exact Hc.
Qed.

(** The row loop on a row that holds a position-jump or a pattern-break:
    the row is processed to its end and is the last one of the order. *)
Lemma control_row (fIn : list Z) (numChannels : nat) (fuel : nat) (st : SeqState) :
  row st < 64 -> row_has_control fIn (fpos st) numChannels = true ->
  let st' := chn_loop fIn numChannels (clear_startRow st) in
  cells numChannels st st'
  /\ row st' = 64 /\ startRow st' = 0
  /\ row_loop fIn numChannels (S fuel) st = Some (next_row st').
Proof.
  intros Hrow Hctl. cbv zeta.
  destruct (row_iteration fIn numChannels st) as (Hc & Hs & Hr).
  destruct (chn_loop_control fIn numChannels (clear_startRow st)) as [Hr' Hs'].
  cbn [clear_startRow fpos] in Hr', Hs'. rewrite Hctl in Hr, Hr', Hs'.
  split; [|split; [exact Hr'|split; [exact Hs'|]]].
  - unfold cells in *. cbn [next_row ord musicData steps fpos kmRestartPos
      begun captures channelState] in Hc. exact Hc.
  - cbn [row_loop]. destruct (Z.ltb_spec (row st) 64); [|lia].
    destruct fuel; cbn [row_loop]; rewrite Hr; reflexivity.
Qed.

(** C1, as amended.  In a row in which some channel's cell carries a
    position-jump or a pattern-break, all [numChannels] cells are still
    processed, by the same step as in any other row; the signal sets [row]
    to 64, so that the row loop is left once the row is complete and no
    later row of that order is processed. *)
Theorem control_row_is_completed (fIn : list Z) (numChannels : nat)
  (fuel : nat) (st : SeqState) :
  row st < 64 -> row_has_control fIn (fpos st) numChannels = true ->
  let st' := chn_loop fIn numChannels (clear_startRow st) in
  st' = fold_left (cell_step fIn) (seq 0 numChannels) (clear_startRow st)
  /\ steps st' = (steps st + numChannels)%nat
  /\ fpos st' = fpos st + 4 * Z.of_nat numChannels
  /\ row st' = 64
  /\ row_loop fIn numChannels (S fuel) st = Some (next_row st').
Proof.
  intros Hrow Hctl.
  destruct (control_row fIn numChannels fuel st Hrow Hctl)
    as ((_ & _ & Hsteps & Hpos & _) & Hr & _ & Hloop).
  cbv zeta. repeat split; assumption.
Qed.

(** C1 as amended, on the first row of [break_file]. *)
Lemma control_row_is_completed_witness :
  steps (chn_loop break_file 2 (clear_startRow break_start)) = (0 + 2)%nat
  /\ row_loop break_file 2 64 break_start
     = Some (next_row (chn_loop break_file 2 (clear_startRow break_start))).
Proof.
  destruct (control_row_is_completed break_file 2 63 break_start)
    as (_ & Hsteps & _ & _ & Hloop).
  - vm_compute. reflexivity.
  - vm_compute. reflexivity.
  - split; [exact Hsteps|exact Hloop].
Defined.

(** C1 as stated fails on [break_file]: channel 0 fires the signal, and the
    cell of channel 1 is translated all the same and adds its four bytes to
    the stream, which is the stream of the whole conversion. *)
Lemma later_channels_still_processed :
  is_control (cell_command break_file (fpos break_start)) = true
  /\ musicData (cell_step break_file (clear_startRow break_start) 0)
     = [0; 0; 0x14; 0]
  /\ musicData (chn_loop break_file 2 (clear_startRow break_start))
     = [0; 0; 0x14; 0; 13; 1; 0x00; 0x20]
  /\ musicData (chn_loop break_file 2 (clear_startRow break_start))
     <> musicData (cell_step break_file (clear_startRow break_start) 0)
  /\ option_map musicData (sequence break_file break_header 2)
     = Some [0; 0; 0x14; 0; 13; 1; 0x00; 0x20].
Proof.
  split; [vm_compute; reflexivity|].
  split; [vm_compute; reflexivity|].
  split; [vm_compute; reflexivity|].
  split; [vm_compute; discriminate|].
  vm_compute. reflexivity.
Qed.

(** C8.  A pattern-break cell, whatever its parameter: the translated
    parameter is 0 and the command "no effect"; [row] becomes 64 and
    [startRow] 0.  The row loop is left after the row (65 after the
    increment), and the next order is entered at row 0. *)
Theorem pattern_break_restarts_at_row_0 (fIn : list Z) (modHeader : MODFileHeader.t)
  (numChannels : nat) (fuel : nat) (st : SeqState) (j : nat) :
  row st < 64 -> (j < numChannels)%nat ->
  cell_command fIn (fpos st + 4 * Z.of_nat j) = 0x0D ->
  (forall ord startRow row,
      let e := translate_effect (byte_at fIn (fpos st + 4 * Z.of_nat j + 2))
                 (cell_param fIn (fpos st + 4 * Z.of_nat j)) ord startRow row in
      e_param e = 0 /\ e_command e = NO_EFFECT
      /\ e_row e = 64 /\ e_startRow e = 0 /\ e_ord e = ord)
  /\ exists st',
       row_loop fIn numChannels (S fuel) st = Some st'
       /\ row st' = 65 /\ startRow st' = 0
       /\ steps st' = (steps st + numChannels)%nat
       /\ row (ord_begin modHeader numChannels (next_ord st')) = 0.
Proof.
  intros Hrow Hj Hcmd. split.
  - intros o s r. cbv zeta.
    pose proof (translate_effect_control (byte_at fIn (fpos st + 4 * Z.of_nat j + 2))
                  (cell_param fIn (fpos st + 4 * Z.of_nat j)) o s r) as H.
    cbv zeta in H. unfold cell_command in Hcmd. rewrite Hcmd in H.
    cbn [is_control Z.eqb Pos.eqb orb andb] in H.
    destruct H as (Hr & Hs & Ho & _ & Hc). destruct (Hc eq_refl) as [Hc1 Hc2].
    repeat split; assumption.
  - assert (Hctl : row_has_control fIn (fpos st) numChannels = true).
    { apply (row_has_control_at fIn (fpos st) numChannels j Hj).
      rewrite Hcmd. reflexivity. }
    destruct (control_row fIn numChannels fuel st Hrow Hctl)
      as ((_ & _ & Hsteps & _) & Hr & Hs & Hloop).
    eexists. split; [exact Hloop|].
    cbn [next_row row startRow steps]. rewrite Hr, Hs.
    split; [reflexivity|]. split; [reflexivity|]. split; [exact Hsteps|].
    destruct (ord_begin_frame modHeader numChannels
                (next_ord (next_row (chn_loop fIn numChannels (clear_startRow st)))))
      as (_ & Hrow0 & _).
    rewrite Hrow0. cbn [next_ord next_row startRow]. exact Hs.
Qed.

(** C8 on [break_file], whose pattern-break has parameter 0x32. *)
Lemma pattern_break_restarts_at_row_0_witness :
  cell_param break_file (fpos break_start) = 0x32
  /\ exists st',
       row_loop break_file 2 64 break_start = Some st'
       /\ row st' = 65 /\ startRow st' = 0
       /\ steps st' = (0 + 2)%nat
       /\ row (ord_begin break_header 2 (next_ord st')) = 0.
Proof.
  split; [vm_compute; reflexivity|].
  destruct (pattern_break_restarts_at_row_0 break_file break_header 2 63 break_start 0)
    as [_ H].
  - vm_compute. reflexivity.
  - lia.
  - vm_compute. reflexivity.
  - exact H.
Defined.


(** ** The continuation flag *)

Lemma flag_back_last (out : list Z) (b : Z) :
  last out = Some b -> last (flag_back out) = Some (Z.lor b 0x80).
Proof.
  intros Hlast. unfold flag_back.
  rewrite !last_lookup in *. rewrite length_alter.
  replace (Init.Nat.pred (length out)) with (length out - 1)%nat in * by lia.
  rewrite list_lookup_alter_eq, Hlast. reflexivity.
Qed.

Lemma flag_back_other (out : list Z) (k : nat) :
  k <> (length out - 1)%nat -> flag_back out !! k = out !! k.
Proof.
  intros Hk. unfold flag_back. apply list_lookup_alter_ne. congruence.
Qed.

(** C2, as amended.  When the translated command and parameter equal the
    channel's last-emitted ones and the four fields are not all identical,
    nothing is appended and the flag 0x80 is OR-ed into the last byte of
    the stream, which is the byte written most recently by any channel (a
    parameter byte or a count byte), not a command byte; every other byte
    is left as it is.  The channel keeps its last-emitted event and its
    repeat-run is closed.  In a state that the sequencer reaches
    ([chan_ok], with a translated command, which is never 0xFF) the stream
    is not empty, so that this last byte exists. *)
Theorem continuation_flags_last_byte (cs : ChannelState) (out : list Z)
  (n i c p : Z) :
  c = command cs -> p = param cs -> ~ same_event cs n i c p ->
  let cs' := fst (emit cs out n i c p) in
  let out' := snd (emit cs out n i c p) in
  length out' = length out
  /\ (forall b, last out = Some b -> last out' = Some (Z.lor b 0x80))
  /\ (forall k, k <> (length out - 1)%nat -> out' !! k = out !! k)
  /\ cs' = close_run cs
  /\ (chan_ok out cs -> c <> 0xFF -> exists b, last out = Some b).
Proof.
  intros Hc Hp Hdiff. cbv zeta.
  rewrite (emit_continuation cs out n i c p Hdiff Hc Hp). cbn [fst snd].
  split; [apply flag_back_length|].
  split; [apply flag_back_last|].
  split; [apply flag_back_other|].
  split; [reflexivity|].
  intros [_ [Hff|Hne]] Hc'; [congruence|].
  destruct (last out) as [b|] eqn:Hlast; [eauto|].
  apply last_None in Hlast. contradiction.
Qed.

(** C2 as amended, on the event of [flag_file]'s row 0 followed by the cell
    of row 1. *)
Lemma continuation_flags_last_byte_witness :
  snd (emit (mkChannelState 13 1 0x00 0x20 0) [13; 1; 0x00; 0x20] 14 1 0x00 0x20)
  !! 3%nat = Some 0xA0
  /\ snd (emit (mkChannelState 13 1 0x00 0x20 0) [13; 1; 0x00; 0x20] 14 1 0x00 0x20)
     !! 2%nat = Some 0x00.
Proof.
  destruct (continuation_flags_last_byte (mkChannelState 13 1 0x00 0x20 0)
              [13; 1; 0x00; 0x20] 14 1 0x00 0x20) as (_ & Hlast & Hother & _ & _).
  - reflexivity.
  - reflexivity.
  - unfold same_event. cbn. lia.
  - split.
    + specialize (Hlast 0x20 eq_refl). rewrite last_lookup in Hlast. exact Hlast.
    + rewrite (Hother 2%nat); [reflexivity|cbn; lia].
Defined.

(** C2 as stated fails on [flag_file]: after row 0 the stream is the event
    [13; 1; 0x00; 0x20], whose command byte is at offset 2; the cell of
    row 1 has the same command and parameter and another note, and the
    flag lands in the parameter byte at offset 3 while the command byte
    stays 0x00. *)
Lemma continuation_flag_misses_command_byte :
  let st1 := cell_step flag_file one_channel_start 0 in
  let st2 := cell_step flag_file st1 0 in
  musicData st1 = [13; 1; 0x00; 0x20]
  /\ channelState st1 = [mkChannelState 13 1 0x00 0x20 0]
  /\ musicData st2 = [13; 1; 0x00; Z.lor 0x20 0x80]
  /\ musicData st2 <> [13; 1; Z.lor 0x00 0x80; 0x20].
Proof.
  cbv zeta.
  split; [vm_compute; reflexivity|].
  split; [vm_compute; reflexivity|].
  split; [vm_compute; reflexivity|].
  vm_compute. discriminate.
Qed.

(** ** Restart offset *)

Section RestartFacts.

Variable fIn : list Z.
Variable modHeader : MODFileHeader.t.
Variable numChannels : nat.

Let K : Z := MODFileHeader.restartPos modHeader.

(** The declared order count is read by the loop condition only. *)
Lemma ord_begin_with_numOrders (n : Z) (st : SeqState) :
  ord_begin (with_numOrders n modHeader) numChannels st
  = ord_begin modHeader numChannels st.
Proof. reflexivity. Qed.

(** The orders entered by the loop are appended to the history, and none of
    them lies below the order the loop starts from. *)
Lemma ord_loop_begun (fuel : nat) (st st' : SeqState) :
  ord_loop fIn modHeader numChannels fuel st = Some st' ->
  exists new, begun st' = begun st ++ new /\ Forall (fun o => ord st <= o) new.
Proof.
  revert st. induction fuel as [|fuel IH]; intros st Hrun; cbn [ord_loop] in Hrun.
  - destruct (ord st <? _); [discriminate|]. injection Hrun as <-.
    exists []. rewrite app_nil_r. split; [reflexivity|constructor].
  - destruct (ord st <? _).
    + destruct (row_loop fIn numChannels 64 (ord_begin modHeader numChannels st))
        as [st1|] eqn:Hrow; [|discriminate].
      destruct (row_loop_cells fIn numChannels _ _ _ Hrow)
        as (k & Hord & _ & _ & _ & _ & Hbeg & _).
      destruct (ord_begin_frame modHeader numChannels st) as (Ho & _ & _ & _ & _ & _ & Hb & _).
      destruct (IH _ Hrun) as (new & Hnew & Hall).
      cbn [next_ord begun ord] in Hnew, Hall.
      exists (ord st :: new). split.
      * rewrite Hnew, Hbeg, Hb, <- app_assoc. reflexivity.
      * constructor; [lia|]. eapply Forall_impl; [exact Hall|].
        cbn. intros o Hle. lia.
    + injection Hrun as <-. exists []. rewrite app_nil_r.
      split; [reflexivity|constructor].
Qed.

(** Once [ord] is past the restart position nothing is captured any more. *)
Lemma past_restart (fuel : nat) (st st' : SeqState) :
  K < ord st ->
  ord_loop fIn modHeader numChannels fuel st = Some st' ->
  captures st' = captures st /\ kmRestartPos st' = kmRestartPos st.
Proof.
  revert st. induction fuel as [|fuel IH]; intros st HK Hrun; cbn [ord_loop] in Hrun.
  - destruct (ord st <? _); [discriminate|]. injection Hrun as <-. split; reflexivity.
  - destruct (ord st <? _).
    + destruct (row_loop fIn numChannels 64 (ord_begin modHeader numChannels st))
        as [st1|] eqn:Hrow; [|discriminate].
      destruct (row_loop_cells fIn numChannels _ _ _ Hrow)
        as (k & Hord & _ & _ & _ & Hkm & _ & Hcap & _).
      destruct (ord_begin_frame modHeader numChannels st)
        as (Ho & _ & _ & _ & _ & _ & _ & Hkm0 & Hcap0).
      fold K in Hkm0, Hcap0.
      destruct (Z.eqb_spec K (ord st)) as [Heq|_]; [lia|].
      rewrite app_nil_r in Hcap0.
      destruct (IH (next_ord st1)) as [Hc Hr]; [cbn [next_ord ord]; lia|exact Hrun|].
      cbn [next_ord captures kmRestartPos] in Hc, Hr.
      split; congruence.
    + injection Hrun as <-. split; reflexivity.
Qed.

(** If the loop enters the restart order, the run cut at that order ends in
    the very state in which the full run enters it, and the length of the
    stream in that state is the one and only value captured. *)
Lemma reach_restart (fuel : nat) (st stN : SeqState) (new : list Z) :
  ord st <= K ->
  ord_loop fIn modHeader numChannels fuel st = Some stN ->
  begun stN = begun st ++ new -> In K new ->
  exists stK,
    ord_loop fIn (with_numOrders K modHeader) numChannels fuel st = Some stK
    /\ kmRestartPos stN = to_uint32 (Z.of_nat (length (musicData stK)))
    /\ captures stN
       = captures st ++ [to_uint32 (Z.of_nat (length (musicData stK)))].
Proof.
  revert st new. induction fuel as [|fuel IH]; intros st new HK Hrun Hnew Hin;
    cbn [ord_loop] in Hrun.
  - destruct (ord st <? _); [discriminate|]. injection Hrun as <-.
    apply (f_equal (@length Z)) in Hnew. rewrite length_app in Hnew.
    destruct new; [contradiction|cbn in Hnew; lia].
  - destruct (Z.ltb_spec (ord st) (MODFileHeader.numOrders modHeader)) as [Hlt|Hge].
    + destruct (row_loop fIn numChannels 64 (ord_begin modHeader numChannels st))
        as [st1|] eqn:Hrow; [|discriminate].
      destruct (row_loop_cells fIn numChannels _ _ _ Hrow)
        as (k & Hord & _ & _ & _ & Hkm & Hbeg & Hcap & _).
      destruct (ord_begin_frame modHeader numChannels st)
        as (Ho & _ & _ & _ & _ & _ & Hb & Hkm0 & Hcap0).
      fold K in Hkm0, Hcap0.
      destruct (ord_loop_begun _ _ _ Hrun) as (new1 & Hnew1 & Hall1).
      cbn [next_ord begun ord] in Hnew1, Hall1.
      assert (Hsplit : new = ord st :: new1).
      { rewrite Hnew1, Hbeg, Hb, <- app_assoc in Hnew.
        apply app_inv_head in Hnew. symmetry. exact Hnew. }
      destruct (Z.eqb_spec K (ord st)) as [Heq|Hne].
      * (* the restart order is entered now *)
        exists st. split.
        { cbn [ord_loop with_numOrders MODFileHeader.numOrders].
          destruct (Z.ltb_spec (ord st) K); [lia|reflexivity]. }
        destruct (past_restart fuel (next_ord st1) stN) as [Hc Hr];
          [cbn [next_ord ord]; lia|exact Hrun|].
        cbn [next_ord captures kmRestartPos] in Hc, Hr.
        split; congruence.
      * (* it is entered later *)
        rewrite app_nil_r in Hcap0.
        assert (Hin1 : In K new1).
        { rewrite Hsplit in Hin. destruct Hin as [Heq|Hin]; [congruence|exact Hin]. }
        assert (HK1 : ord st1 + 1 <= K).
        { rewrite Forall_forall in Hall1. apply Hall1.
          apply list_elem_of_In. exact Hin1. }
        destruct (IH (next_ord st1) new1) as (stK & HrunK & HkmK & HcapK);
          [exact HK1|exact Hrun|exact Hnew1|exact Hin1|].
        exists stK. split.
        { cbn [ord_loop with_numOrders MODFileHeader.numOrders].
          destruct (Z.ltb_spec (ord st) K); [|lia].
          rewrite ord_begin_with_numOrders, Hrow. exact HrunK. }
        cbn [next_ord captures] in HcapK.
        split; [exact HkmK|]. rewrite HcapK. congruence.
    + injection Hrun as <-.
      apply (f_equal (@length Z)) in Hnew. rewrite length_app in Hnew.
      destruct new; [contradiction|cbn in Hnew; lia].
Qed.

(** If the loop never enters the restart order, nothing is captured. *)
Lemma restart_not_entered (fuel : nat) (st st' : SeqState) (new : list Z) :
  ord_loop fIn modHeader numChannels fuel st = Some st' ->
  begun st' = begun st ++ new -> ~ In K new ->
  captures st' = captures st /\ kmRestartPos st' = kmRestartPos st.
Proof.
  revert st new. induction fuel as [|fuel IH]; intros st new Hrun Hnew Hnot;
    cbn [ord_loop] in Hrun.
  - destruct (ord st <? _); [discriminate|]. injection Hrun as <-. split; reflexivity.
  - destruct (ord st <? _).
    + destruct (row_loop fIn numChannels 64 (ord_begin modHeader numChannels st))
        as [st1|] eqn:Hrow; [|discriminate].
      destruct (row_loop_cells fIn numChannels _ _ _ Hrow)
        as (k & _ & _ & _ & _ & Hkm & Hbeg & Hcap & _).
      destruct (ord_begin_frame modHeader numChannels st)
        as (_ & _ & _ & _ & _ & _ & Hb & Hkm0 & Hcap0).
      fold K in Hkm0, Hcap0.
      destruct (ord_loop_begun _ _ _ Hrun) as (new1 & Hnew1 & _).
      cbn [next_ord begun] in Hnew1.
      assert (Hsplit : new = ord st :: new1).
      { rewrite Hnew1, Hbeg, Hb, <- app_assoc in Hnew.
        apply app_inv_head in Hnew. symmetry. exact Hnew. }
      rewrite Hsplit in Hnot. cbn [In] in Hnot.
      destruct (Z.eqb_spec K (ord st)) as [Heq|_];
        [exfalso; apply Hnot; left; congruence|].
      rewrite app_nil_r in Hcap0.
      destruct (IH (next_ord st1) new1 Hrun Hnew1) as [Hc Hr];
        [intros Hin1; apply Hnot; right; exact Hin1|].
      cbn [next_ord captures kmRestartPos] in Hc, Hr.
      split; congruence.
    + injection Hrun as <-. split; reflexivity.
Qed.

End RestartFacts.


(** C5, as amended.  When the order loop enters the order [K] named by the
    restart position, the restart-offset field of the song header is the
    length of the stream produced by the run cut before order [K]
    (declared order count [K]), which enters orders below [K] only; that
    value is the only one ever assigned to the field.  When the loop never
    enters order [K], nothing is assigned and the field keeps its initial
    0. *)
Theorem restart_offset_capture (fIn : list Z) (modHeader : MODFileHeader.t)
  (numChannels : nat) (stN : SeqState) :
  (numChannels <= 4)%nat -> MODFileHeader.numOrders modHeader <= 128 ->
  sequence fIn modHeader numChannels = Some stN ->
  (In (MODFileHeader.restartPos modHeader) (begun stN) ->
   exists stK,
     sequence fIn (with_numOrders (MODFileHeader.restartPos modHeader) modHeader)
       numChannels = Some stK
     /\ Forall (fun o => o < MODFileHeader.restartPos modHeader) (begun stK)
     /\ KMSongHeader.restartPos (song_header modHeader numChannels stN)
        = Z.of_nat (length (musicData stK))
     /\ captures stN = [Z.of_nat (length (musicData stK))])
  /\ (~ In (MODFileHeader.restartPos modHeader) (begun stN) ->
      KMSongHeader.restartPos (song_header modHeader numChannels stN) = 0
      /\ captures stN = []).
Proof.
  intros Hch Hord Hrun. split; intros Hin.
  - set (K := MODFileHeader.restartPos modHeader) in *.
    destruct (sequence_run fIn modHeader numChannels) as (st & Hrun' & _ & Hall & _).
    rewrite Hrun in Hrun'. injection Hrun' as <-.
    assert (HK : 0 <= K < MODFileHeader.numOrders modHeader).
    { rewrite Forall_forall in Hall. apply Hall, list_elem_of_In, Hin. }
    destruct (reach_restart fIn modHeader numChannels
                (Z.to_nat (MODFileHeader.numOrders modHeader)) (seq_init numChannels)
                stN (begun stN))
      as (stK & HrunK & Hkm & Hcap);
      [cbn [seq_init ord]; fold K; lia|exact Hrun|reflexivity|exact Hin|].
    fold K in HrunK, Hkm, Hcap.
    destruct (sequence_run fIn (with_numOrders K modHeader) numChannels)
      as (stK' & HrunK' & _ & HallK & HstepsK & HlenK & _).
    cbn [with_numOrders MODFileHeader.numOrders] in HallK, HstepsK.
    assert (stK' = stK) as ->.
    { unfold sequence in HrunK'. cbn [with_numOrders MODFileHeader.numOrders] in HrunK'.
      apply (ord_loop_fuel _ _ _ _ (Z.to_nat (MODFileHeader.numOrders modHeader)))
        in HrunK'; [|lia].
      congruence. }
    assert (Hsmall : to_uint32 (Z.of_nat (length (musicData stK)))
                     = Z.of_nat (length (musicData stK))).
    { unfold to_uint32. apply Z.mod_small.
      assert (Z.to_nat K <= 128)%nat by lia.
      assert (length (musicData stK) <= 4 * (64 * 4 * 128))%nat by nia.
      lia. }
    exists stK. split; [exact HrunK'|]. split.
    { eapply Forall_impl; [exact HallK|]. cbn. intros o Ho. lia. }
    cbn [song_header KMSongHeader.restartPos seq_init captures app] in *.
    rewrite Hkm, Hcap, Hsmall. split; reflexivity.
  - destruct (restart_not_entered fIn modHeader numChannels
                (Z.to_nat (MODFileHeader.numOrders modHeader)) (seq_init numChannels)
                stN (begun stN)) as [Hcap Hkm];
      [exact Hrun|reflexivity|exact Hin|].
    cbn [song_header KMSongHeader.restartPos seq_init captures kmRestartPos] in *.
    split; assumption.
Qed.

(** C5 as amended, on [flag_file] played as two orders: the restart offset
    is the length of the stream of the first order. *)
Lemma restart_offset_capture_witness :
  exists stK,
    sequence flag_file (with_numOrders 1 restart_header) 1 = Some stK
    /\ Forall (fun o => o < 1) (begun stK)
    /\ KMSongHeader.restartPos (song_header restart_header 1 restart_final)
       = Z.of_nat (length (musicData stK))
    /\ captures restart_final = [Z.of_nat (length (musicData stK))].
Proof.
  destruct (restart_offset_capture flag_file restart_header 1 restart_final)
    as [H _].
  - lia.
  - vm_compute. discriminate.
  - vm_compute. reflexivity.
  - apply H. vm_compute. auto.
Defined.

(** On that input the first order leaves 9 bytes: the event of row 0 with
    its last byte flagged by row 1, the event of the empty row 2 and one
    count byte for rows 3 to 63. *)
Lemma restart_offset_example :
  begun restart_final = [0; 1]
  /\ kmRestartPos restart_final = 9
  /\ take 9 (musicData restart_final)
     = [13; 1; 0x00; 0xA0; 0; 0; 0x14; 0; 0x80 + 60].
Proof. repeat split; vm_compute; reflexivity. Qed.

(** C5 as stated fails on [jump_file]: the restart position 1 is below the
    declared order count 3, the stream of order 0 alone has 4 bytes, but
    the position-jump of order 0 goes to order 2, order 1 is never entered
    and the restart offset keeps the 0 it was initialised with. *)
Lemma skipped_restart_order_not_captured :
  MODFileHeader.restartPos jump_header = 1
  /\ 1 < MODFileHeader.numOrders jump_header
  /\ option_map begun (sequence jump_file jump_header 1) = Some [0; 2]
  /\ option_map captures (sequence jump_file jump_header 1) = Some []
  /\ ~ (forall stN stK,
          sequence jump_file jump_header 1 = Some stN ->
          sequence jump_file (with_numOrders 1 jump_header) 1 = Some stK ->
          KMSongHeader.restartPos (song_header jump_header 1 stN)
          = Z.of_nat (length (musicData stK))).
Proof.
  split; [reflexivity|]. split; [reflexivity|].
  split; [vm_compute; reflexivity|]. split; [vm_compute; reflexivity|].
  intros H.
  assert (HN : option_map (fun st => KMSongHeader.restartPos (song_header jump_header 1 st))
                 (sequence jump_file jump_header 1) = Some 0)
    by (vm_compute; reflexivity).
  assert (HK : option_map (fun st => Z.of_nat (length (musicData st)))
                 (sequence jump_file (with_numOrders 1 jump_header) 1) = Some 4)
    by (vm_compute; reflexivity).
  destruct (sequence jump_file jump_header 1) as [stN|]; [|discriminate].
  destruct (sequence jump_file (with_numOrders 1 jump_header) 1) as [stK|];
    [|discriminate].
  specialize (H stN stK eq_refl eq_refl).
  cbn [option_map song_header KMSongHeader.restartPos] in HN, HK, H.
  injection HN as HN. injection HK as HK. lia.
Qed.

(** ** Sample writer *)

(** A slot of declared length below 2 writes nothing, and the read position
    moves by the computed sample size, which is twice the declared length
    unless a loop is accepted. *)
Lemma skipped_slot (fIn : list Z) (modHeader : MODFileHeader.t)
  (pos : Z) (fOut : list Written) (i : nat) :
  let modSample := sample_at modHeader i in
  MODSampleHeader.length modSample < 2 ->
  sample_step fIn modHeader (pos, fOut) i
  = (pos + KMSampleHeader.sampleSize (sample_header i modSample), fOut)
  /\ (0 <= MODSampleHeader.length modSample ->
      (MODSampleHeader.loopLength modSample <= 1
       \/ MODSampleHeader.length modSample <= MODSampleHeader.loopStart modSample) ->
      KMSampleHeader.sampleSize (sample_header i modSample)
      = 2 * MODSampleHeader.length modSample).
Proof.
  intros modSample Hlen. split.
  - unfold sample_step. fold modSample.
    destruct (Z.ltb_spec (MODSampleHeader.length modSample) 2); [reflexivity|lia].
  - intros H0 Hloop. unfold sample_header.
    destruct (Z.gtb_spec (MODSampleHeader.loopLength modSample) 1);
      destruct (Z.ltb_spec (MODSampleHeader.loopStart modSample)
                           (MODSampleHeader.length modSample));
      cbn [andb KMSampleHeader.sampleSize]; try lia;
      unfold to_uint32; rewrite Z.mod_small; lia.
Qed.

(** C6 fails on [skip_file].  Slot 1 (length 1) is skipped, no header is
    written for it, but the loop test of line 423 accepts its loop and 4
    bytes are consumed where the slot holds 2; the data written for slot 2
    are then read 2 bytes too far: its last two bytes and two bytes past the
    end of the file instead of its four bytes. *)
Theorem skipped_slot_overreads :
  let pos := sample_data_start skip_header 1 in
  MODSampleHeader.length (sample_at skip_header 0) = 1
  /\ sample_step skip_file skip_header (pos, []) 0 = (pos + 4, [])
  /\ read_bytes skip_file (pos + 2 * 1) 4 = [0x01; 0x02; 0x03; 0x04]
  /\ option_map (fun r => length (written_headers (snd r)))
       (main skip_file skip_header) = Some 1%nat
  /\ option_map (fun r => written_data (snd r)) (main skip_file skip_header)
     = Some [ []; [0x03; 0x04; 0x00; 0x00] ].
Proof.
  cbv zeta. repeat split; vm_compute; reflexivity.
Qed.


(** ** The model stays inside the stream

    [emit] reads [musicData[repeatOffset]] and writes [musicData.back()];
    in every state that the sequencer reaches both lie inside the stream,
    so that the conventions of [emit] for accesses outside it never apply. *)

Lemma chan_ok_grow (out out' : list Z) (cs : ChannelState) :
  chan_ok out cs -> (length out <= length out')%nat -> chan_ok out' cs.
Proof.
  intros [Hoff Hcmd] Hlen. split.
  - destruct Hoff; [left; assumption|right; lia].
  - destruct Hcmd as [|Hne]; [left; assumption|right].
    destruct out; [congruence|]. destruct out'; [cbn in Hlen; lia|discriminate].
Qed.

Lemma emit_chan_ok (cs : ChannelState) (out : list Z) (n i c p : Z) :
  chan_ok out cs -> chan_ok (snd (emit cs out n i c p)) (fst (emit cs out n i c p)).
Proof.
  intros [Hoff Hcmd].
  destruct (emit_cases cs out n i c p) as [H|[H|[H|H]]]; rewrite H; cbn [fst snd].
  - apply (chan_ok_grow out); [split; assumption|rewrite length_alter; lia].
  - split; cbn [repeatOffset command].
    + right. rewrite length_app. cbn. lia.
    + right. destruct out; discriminate.
  - split; cbn [close_run repeatOffset command]; [left; reflexivity|].
    destruct Hcmd as [|Hne]; [left; assumption|right].
    intros Hnil. apply (f_equal (@length Z)) in Hnil.
    rewrite flag_back_length in Hnil. destruct out; [congruence|discriminate].
  - split; cbn [repeatOffset command]; [left; reflexivity|].
    right. destruct out; discriminate.
Qed.

Lemma emit_in_range (cs : ChannelState) (out : list Z) (n i c p : Z) :
  chan_ok out cs -> c <> 0xFF -> accesses_in_range cs out n i c p.
Proof.
  intros [Hoff Hcmd] Hc. split.
  - intros _ Hne. destruct Hoff; [contradiction|assumption].
  - intros _ Heq _. destruct Hcmd as [Hff|Hne]; [congruence|exact Hne].
Qed.

Section InRange.

Variable fIn : list Z.
Variable modHeader : MODFileHeader.t.
Variable numChannels : nat.

Lemma seq_init_ok : seq_ok (seq_init numChannels).
Proof.
  unfold seq_ok, seq_init. cbn [musicData channelState].
  apply Forall_replicate. split; [left; reflexivity|left; reflexivity].
Qed.

Lemma lookup_total_ok (st : SeqState) (chn : nat) :
  seq_ok st -> chan_ok (musicData st) (channelState st !!! chn).
Proof.
  intros Hok. unfold seq_ok in Hok.
  destruct (channelState st !! chn) as [cs|] eqn:Hcs.
  - rewrite (list_lookup_total_correct _ _ _ Hcs).
    rewrite Forall_lookup in Hok. exact (Hok chn cs Hcs).
  - rewrite list_lookup_total_alt, Hcs. cbn.
    split; left; reflexivity.
Qed.

(** Every cell is processed with its accesses in range, and leaves a state
    in which this holds again. *)
Lemma cell_step_ok (st : SeqState) (chn : nat) :
  seq_ok st ->
  seq_ok (cell_step fIn st chn)
  /\ exists n i c p,
       musicData (cell_step fIn st chn)
       = snd (emit (channelState st !!! chn) (musicData st) n i c p)
       /\ accesses_in_range (channelState st !!! chn) (musicData st) n i c p.
Proof.
  intros Hok. pose proof (lookup_total_ok st chn Hok) as Hcs.
  rewrite cell_step_unfold. cbv zeta. split.
  - unfold seq_ok. cbn [musicData channelState].
    apply Forall_insert.
    + eapply Forall_impl; [exact Hok|]. intros cs Hcs'.
      eapply chan_ok_grow; [exact Hcs'|]. apply emit_length.
    + apply emit_chan_ok. exact Hcs.
  - cbn [musicData]. do 4 eexists. split; [reflexivity|].
    apply emit_in_range; [exact Hcs|].
    pose proof (translate_effect_control (byte_at fIn (fpos st + 2))
                  (byte_at fIn (fpos st + 3)) (ord st) (startRow st) (row st)) as H.
    cbv zeta in H. lia.
Qed.

End InRange.

(** *** Invariants of the loops

    A property of the channel states and the stream that every cell keeps
    holds in every state that the loops reach. *)

Section Preservation.

Variable fIn : list Z.
Variable modHeader : MODFileHeader.t.
Variable numChannels : nat.
Variable P : list ChannelState -> list Z -> Prop.

Hypothesis P_cell : forall st chn,
  P (channelState st) (musicData st) ->
  P (channelState (cell_step fIn st chn)) (musicData (cell_step fIn st chn)).

Lemma fold_preserves (chns : list nat) (st : SeqState) :
  P (channelState st) (musicData st) ->
  P (channelState (fold_left (cell_step fIn) chns st))
    (musicData (fold_left (cell_step fIn) chns st)).
Proof.
  revert st. induction chns as [|chn chns IH]; intros st HP; [exact HP|].
  cbn [fold_left]. apply IH, P_cell, HP.
Qed.

Lemma row_loop_preserves (fuel : nat) (st st' : SeqState) :
  P (channelState st) (musicData st) ->
  row_loop fIn numChannels fuel st = Some st' ->
  P (channelState st') (musicData st').
Proof.
  revert st. induction fuel as [|fuel IH]; intros st HP Hrun; cbn [row_loop] in Hrun.
  - destruct (row st <? 64); [discriminate|]. injection Hrun as <-. exact HP.
  - destruct (row st <? 64).
    + apply (IH (next_row (chn_loop fIn numChannels (clear_startRow st))));
        [|exact Hrun].
      exact (fold_preserves (seq 0 numChannels) (clear_startRow st) HP).
    + injection Hrun as <-. exact HP.
Qed.

Lemma ord_loop_preserves (fuel : nat) (st st' : SeqState) :
  P (channelState st) (musicData st) ->
  ord_loop fIn modHeader numChannels fuel st = Some st' ->
  P (channelState st') (musicData st').
Proof.
  revert st. induction fuel as [|fuel IH]; intros st HP Hrun; cbn [ord_loop] in Hrun.
  - destruct (ord st <? _); [discriminate|]. injection Hrun as <-. exact HP.
  - destruct (ord st <? _).
    + destruct (row_loop fIn numChannels 64 (ord_begin modHeader numChannels st))
        as [st1|] eqn:Hrow; [|discriminate].
      apply (IH (next_ord st1)); [|exact Hrun].
      apply (row_loop_preserves 64 (ord_begin modHeader numChannels st) st1);
        [|exact Hrow].
      destruct (ord_begin_frame modHeader numChannels st)
        as (_ & _ & _ & -> & _ & -> & _). exact HP.
    + injection Hrun as <-. exact HP.
Qed.

End Preservation.

(** In every state that the sequencer reaches the back references of all
    channels are valid. *)
Lemma sequence_ok (fIn : list Z) (modHeader : MODFileHeader.t)
  (numChannels : nat) (st : SeqState) :
  sequence fIn modHeader numChannels = Some st -> seq_ok st.
Proof.
  intros Hrun. unfold seq_ok.
  apply (ord_loop_preserves fIn modHeader numChannels
           (fun chs out => Forall (chan_ok out) chs)
           (fun st chn H => proj1 (cell_step_ok fIn st chn H))
           (Z.to_nat (MODFileHeader.numOrders modHeader))
           (seq_init numChannels) st); [|exact Hrun].
  apply seq_init_ok.
Qed.



(** *** Repeat runs between the cells of other channels *)

Lemma flag_count (v : Z) : is_count v -> Z.lor v 0x80 = v.
Proof.
  intros [Hlo Hhi].
  pose proof (byte_cases (fun v => (v <? 0x80) || (Z.lor v 0x80 =? v))
                ltac:(vm_compute; reflexivity) v ltac:(lia)) as H.
  cbn beta in H. apply orb_true_iff in H as [H|H]; lia.
Qed.

(** A count byte that is not the one of the channel's own run survives the
    step of that channel. *)
Lemma emit_frame (cs : ChannelState) (out : list Z) (n i c p : Z) (j : nat) (v : Z) :
  out !! j = Some v -> is_count v -> j <> repeatOffset cs ->
  (emit cs out n i c p).2 !! j = Some v.
Proof.
  intros Hj Hv Hne. pose proof (lookup_lt_Some _ _ _ Hj) as Hlt.
  destruct (emit_cases cs out n i c p) as [H|[H|[H|H]]]; rewrite H; cbn [snd].
  - rewrite list_lookup_alter_ne by congruence. exact Hj.
  - rewrite lookup_app_l by exact Hlt. exact Hj.
  - unfold flag_back. destruct (decide ((length out - 1)%nat = j)) as [<-|Hne'].
    + rewrite list_lookup_alter_eq, Hj. cbn. rewrite flag_count by exact Hv. reflexivity.
    + rewrite list_lookup_alter_ne by exact Hne'. exact Hj.
  - rewrite lookup_app_l by exact Hlt. exact Hj.
Qed.

(** The run of the channel that steps stays well-formed; it keeps its
    offset, is closed, or is opened at the end of the stream. *)
Lemma emit_own (cs : ChannelState) (out : list Z) (n i c p : Z) :
  run_ok out cs ->
  run_ok (emit cs out n i c p).2 (emit cs out n i c p).1
  /\ (repeatOffset (emit cs out n i c p).1 = 0%nat
      \/ repeatOffset (emit cs out n i c p).1 = repeatOffset cs
      \/ repeatOffset (emit cs out n i c p).1 = length out).
Proof.
  intros Hrun. unfold emit. cbn [command param repeatOffset].
  destruct (_ && _ && _ && _).
  - destruct (Nat.eqb_spec (repeatOffset cs) 0) as [Hz|Hnz]; cbn [negb andb].
    + cbn [fst snd repeatOffset]. split; [|auto]. right. exists 0x80.
      rewrite list_lookup_middle by reflexivity. split; [reflexivity|unfold is_count; lia].
    + destruct Hrun as [|(v & Hv & Hc)]; [contradiction|].
      rewrite nth_lookup, Hv. change (default 0 (Some v)) with v.
      destruct (Z.ltb_spec v 0xFF); cbn [fst snd repeatOffset].
      * split; [|auto]. right. exists (v + 1).
        rewrite list_lookup_alter_eq, Hv. cbn. unfold incr_byte, is_count in *.
        rewrite Z.mod_small by lia. split; [reflexivity|lia].
      * split; [|auto]. right. exists 0x80.
        rewrite list_lookup_middle by reflexivity.
        split; [reflexivity|unfold is_count; lia].
  - destruct (_ && _); cbn [fst snd repeatOffset]; split; auto; left; reflexivity.
Qed.

Lemma run_ok_default (out : list Z) : run_ok out newChannelState.
Proof. left. reflexivity. Qed.

Lemma run_ok_total (s : list ChannelState * list Z) (chn : nat) :
  compressor_inv s -> run_ok s.2 (s.1 !!! chn).
Proof.
  intros [Hok _]. rewrite list_lookup_total_alt.
  destruct (s.1 !! chn) as [cs|] eqn:Hcs; [exact (Hok chn cs Hcs)|apply run_ok_default].
Qed.

(** The run of the stepping channel differs from every other open run. *)
Lemma total_distinct (s : list ChannelState * list Z) (chn k : nat) (cs : ChannelState) :
  compressor_inv s -> k <> chn -> s.1 !! k = Some cs -> repeatOffset cs <> 0%nat ->
  repeatOffset cs <> repeatOffset (s.1 !!! chn).
Proof.
  intros [_ Hdist] Hne Hk Hnz. rewrite list_lookup_total_alt.
  destruct (s.1 !! chn) as [cs'|] eqn:Hcs; cbn [default].
  - exact (Hdist k chn cs cs' Hne Hk Hcs Hnz).
  - exact Hnz.
Qed.

Lemma mstep_unfold (s : list ChannelState * list Z) (chn : nat) (n i c p : Z) :
  mstep s (chn, (n, i, c, p))
  = (<[chn := (emit (s.1 !!! chn) s.2 n i c p).1]> s.1,
     (emit (s.1 !!! chn) s.2 n i c p).2).
Proof. reflexivity. Qed.

(** Every step keeps the invariant. *)
Lemma mstep_inv (s : list ChannelState * list Z) (x : nat * (Z * Z * Z * Z)) :
  compressor_inv s -> compressor_inv (mstep s x).
Proof.
  destruct x as [chn [[[n i] c] p]]. intros Hinv. rewrite mstep_unfold.
  pose proof (run_ok_total s chn Hinv) as Hown.
  destruct (emit_own (s.1 !!! chn) s.2 n i c p Hown) as [Hown' Hoff].
  destruct Hinv as [Hok Hdist]. split; cbn [fst snd].
  - intros k cs Hk. apply list_lookup_insert_Some in Hk as [(<- & <- & _)|(Hne & Hk)].
    + exact Hown'.
    + destruct (Hok k cs Hk) as [Hz|(v & Hv & Hc)]; [left; exact Hz|].
      destruct (decide (repeatOffset cs = 0%nat)) as [Hz|Hnz]; [left; exact Hz|].
      right. exists v. split; [|exact Hc].
      apply emit_frame; [exact Hv|exact Hc|].
      apply (total_distinct s chn k cs); [split; assumption|congruence|exact Hk|exact Hnz].
  - intros k1 k2 cs1 cs2 Hne H1 H2 Hnz.
    apply list_lookup_insert_Some in H1 as [(<- & <- & _)|(Hne1 & H1)];
      apply list_lookup_insert_Some in H2 as [(<- & <- & _)|(Hne2 & H2)];
      try congruence.
    + (* the stepping channel against another one *)
      destruct Hoff as [Hz|[Hsame|Hnew]]; [congruence| |].
      * rewrite Hsame in *. intros Heq.
        apply (total_distinct s chn k2 cs2 (conj Hok Hdist)); congruence.
      * rewrite Hnew. intros Heq.
        destruct (Hok k2 cs2 H2) as [Hz|(v & Hv & _)]; [congruence|].
        apply lookup_lt_Some in Hv. lia.
    + (* another channel against the stepping one *)
      destruct Hoff as [Hz|[Hsame|Hnew]]; [congruence| |].
      * rewrite Hsame.
        apply (total_distinct s chn k1 cs1 (conj Hok Hdist)); congruence.
      * rewrite Hnew.
        destruct (Hok k1 cs1 H1) as [Hz|(v & Hv & _)]; [congruence|].
        apply lookup_lt_Some in Hv. lia.
    + exact (Hdist k1 k2 cs1 cs2 Hne H1 H2 Hnz).
Qed.

Section Interleaving.

Variable chn : nat.
Variables n i c p : Z.

Let ev : Z * Z * Z * Z := (n, i, c, p).

Lemma own_growth_app (t1 t2 : list (nat * (Z * Z * Z * Z)))
  (s : list ChannelState * list Z) :
  own_growth chn (t1 ++ t2) s
  = (own_growth chn t1 s + own_growth chn t2 (fold_left mstep t1 s))%nat.
Proof.
  revert s. induction t1 as [|x t1 IH]; intros s; [reflexivity|].
  cbn [app own_growth fold_left]. rewrite IH. lia.
Qed.

(** The steps of other channels leave the state of [chn] and the count
    byte of its open run as they are. *)
Lemma foreign_steps (F : list (nat * (Z * Z * Z * Z)))
  (s : list ChannelState * list Z) (cs : ChannelState) :
  compressor_inv s -> foreign chn F -> s.1 !! chn = Some cs ->
  compressor_inv (fold_left mstep F s)
  /\ (fold_left mstep F s).1 !! chn = Some cs
  /\ (forall v, repeatOffset cs <> 0%nat -> s.2 !! repeatOffset cs = Some v ->
                is_count v -> (fold_left mstep F s).2 !! repeatOffset cs = Some v)
  /\ own_growth chn F s = 0%nat.
Proof.
  revert s. induction F as [|x F IH]; intros s Hinv HF Hcs.
  - cbn. auto.
  - apply Forall_cons in HF as [Hx HF]. cbn [fold_left own_growth].
    destruct x as [k [[[n' i'] c'] p']]. cbn [fst] in Hx.
    assert (Hcs' : (mstep s (k, (n', i', c', p'))).1 !! chn = Some cs).
    { rewrite mstep_unfold. cbn [fst]. rewrite list_lookup_insert_ne by exact Hx.
      exact Hcs. }
    destruct (IH _ (mstep_inv s _ Hinv) HF Hcs') as (Hinv' & Hcs'' & Hbyte & Hgrow).
    split; [exact Hinv'|]. split; [exact Hcs''|]. split.
    + intros v Hnz Hv Hc. apply Hbyte; [exact Hnz| |exact Hc].
      rewrite mstep_unfold. cbn [snd]. apply emit_frame; [exact Hv|exact Hc|].
      apply (total_distinct s k chn cs Hinv); [congruence|exact Hcs|exact Hnz].
    + rewrite Hgrow. cbn [fst].
      destruct (Nat.eqb_spec k chn); [contradiction|reflexivity].
Qed.

(** A hold of [chn] whose run is open below 255: the count byte goes up by
    one and nothing is appended. *)
Lemma own_increment (s : list ChannelState * list Z) (b : nat) (v : Z) :
  s.1 !! chn = Some (mkChannelState n i c p b) -> b <> 0%nat ->
  s.2 !! b = Some v -> 0 <= v < 0xFF ->
  mstep s (chn, ev) = (s.1, alter incr_byte b s.2)
  /\ (alter incr_byte b s.2) !! b = Some (v + 1).
Proof.
  intros Hcs Hb Hv Hlt. unfold ev. rewrite mstep_unfold.
  rewrite (list_lookup_total_correct _ _ _ Hcs).
  rewrite emit_hold_increment; cbn [repeatOffset fst snd].
  - rewrite (list_insert_id _ _ _ Hcs). split; [reflexivity|].
    rewrite list_lookup_alter_eq, Hv. cbn. unfold incr_byte.
    rewrite Z.mod_small by lia. reflexivity.
  - unfold same_event. cbn. tauto.
  - exact Hb.
  - rewrite nth_lookup, Hv. cbn. lia.
Qed.

(** Holds of [chn], each followed by steps of other channels, on a run
    that stands at [k + 1] repeats. *)
Lemma hold_segments (Fs : list (list (nat * (Z * Z * Z * Z))))
  (s : list ChannelState * list Z) (b k : nat) :
  compressor_inv s -> Forall (foreign chn) Fs ->
  s.1 !! chn = Some (mkChannelState n i c p b) -> b <> 0%nat ->
  s.2 !! b = Some (0x80 + Z.of_nat k) -> (k + length Fs <= 127)%nat ->
  let trace := concat (map (cons (chn, ev)) Fs) in
  compressor_inv (fold_left mstep trace s)
  /\ (fold_left mstep trace s).1 !! chn = Some (mkChannelState n i c p b)
  /\ (fold_left mstep trace s).2 !! b = Some (0x80 + Z.of_nat (k + length Fs))
  /\ own_growth chn trace s = 0%nat.
Proof.
  cbv zeta. revert s k. induction Fs as [|F Fs IH]; intros s k Hinv HFs Hcs Hb Hv Hk.
  - cbn. rewrite Nat.add_0_r. auto.
  - apply Forall_cons in HFs as [HF HFs]. cbn [length] in Hk.
    cbn [map concat]. rewrite <- app_comm_cons.
    cbn [fold_left own_growth]. rewrite fold_left_app, own_growth_app.
    destruct (own_increment s b (0x80 + Z.of_nat k) Hcs Hb Hv ltac:(lia)) as [Hstep Hv'].
    pose proof (mstep_inv s (chn, ev) Hinv) as Hinv1.
    rewrite Hstep in *. cbn [fst snd] in *.
    destruct (foreign_steps F (s.1, alter incr_byte b s.2) _ Hinv1 HF Hcs)
      as (Hinv2 & Hcs2 & Hbyte2 & Hgrow2).
    cbn [fst snd repeatOffset] in Hbyte2.
    specialize (Hbyte2 _ Hb Hv' ltac:(unfold is_count; lia)).
    destruct (IH _ (S k) Hinv2 HFs Hcs2 Hb) as (Hinv3 & Hcs3 & Hv3 & Hgrow3).
    + rewrite Hbyte2. f_equal. lia.
    + lia.
    + split; [exact Hinv3|]. split; [exact Hcs3|]. split.
      * rewrite Hv3. do 2 f_equal. cbn [length]. lia.
      * rewrite Hgrow2, Hgrow3, Nat.eqb_refl, length_alter. lia.
Qed.

(** A run of [N = 2 + length Fs <= 129] identical cells of [chn], the first
    of which is emitted as an event, with any steps of other channels
    between them and after them: over the whole trace the cells of [chn]
    add five bytes, the event at the end of the stream as it is when the
    first cell is processed and one count byte, which ends up holding
    [0x7F + (N - 1)]. *)
Lemma hold_run_interleaved (F1 F2 : list (nat * (Z * Z * Z * Z)))
  (Fs : list (list (nat * (Z * Z * Z * Z))))
  (s0 : list ChannelState * list Z) (cs0 : ChannelState) :
  compressor_inv s0 -> s0.1 !! chn = Some cs0 ->
  ~ (c = command cs0 /\ p = param cs0) ->
  foreign chn F1 -> foreign chn F2 -> Forall (foreign chn) Fs ->
  (length Fs <= 127)%nat ->
  let trace := (chn, ev) :: F1 ++ (chn, ev) :: F2 ++ concat (map (cons (chn, ev)) Fs) in
  let N := (2 + length Fs)%nat in
  (mstep s0 (chn, ev)).2 = s0.2 ++ [n; i; c; p]
  /\ own_growth chn trace s0 = 5%nat
  /\ exists b,
       (length s0.2 + 4 <= b)%nat
       /\ (fold_left mstep trace s0).1 !! chn = Some (mkChannelState n i c p b)
       /\ (fold_left mstep trace s0).2 !! b = Some (0x7F + Z.of_nat (N - 1)).
Proof.
  intros Hinv0 Hcs0 Hdiff HF1 HF2 HFs Hlen. cbv zeta.
  pose proof (lookup_lt_Some _ _ _ Hcs0) as Hchn.
  (* the event *)
  assert (Hstep1 : mstep s0 (chn, ev)
                   = (<[chn := mkChannelState n i c p 0]> s0.1, s0.2 ++ [n; i; c; p])).
  { unfold ev. rewrite mstep_unfold, (list_lookup_total_correct _ _ _ Hcs0).
    rewrite emit_event by exact Hdiff. reflexivity. }
  pose proof (mstep_inv s0 (chn, ev) Hinv0) as Hinv1. rewrite Hstep1 in Hinv1.
  set (s1 := (<[chn := mkChannelState n i c p 0]> s0.1, s0.2 ++ [n; i; c; p])) in *.
  assert (Hcs1 : s1.1 !! chn = Some (mkChannelState n i c p 0))
    by (apply list_lookup_insert_eq; exact Hchn).
  destruct (foreign_steps F1 s1 _ Hinv1 HF1 Hcs1) as (Hinv2 & Hcs2 & _ & Hgrow2).
  set (s2 := fold_left mstep F1 s1) in *.
  assert (Hlen2 : (length s0.2 + 4 <= length s2.2)%nat).
  { assert (Hmono : forall F s, (length s.2 <= length (fold_left mstep F s).2)%nat).
    { clear. intros F. induction F as [|[k [[[n' i'] c'] p']] F IH]; intros s; [cbn; lia|].
      cbn [fold_left]. etransitivity; [|apply IH].
      rewrite mstep_unfold. cbn [snd]. apply emit_length. }
    specialize (Hmono F1 s1). unfold s1 at 1 in Hmono. cbn [snd] in Hmono.
    rewrite length_app in Hmono. cbn [length] in Hmono. fold s2 in Hmono. lia. }
  (* the first hold opens the run *)
  assert (Hstep3 : mstep s2 (chn, ev)
                   = (<[chn := mkChannelState n i c p (length s2.2)]> s2.1,
                      s2.2 ++ [0x80])).
  { unfold ev. rewrite mstep_unfold, (list_lookup_total_correct _ _ _ Hcs2).
    rewrite emit_hold_open; [reflexivity|unfold same_event; cbn; tauto|left; reflexivity]. }
  pose proof (mstep_inv s2 (chn, ev) Hinv2) as Hinv3. rewrite Hstep3 in Hinv3.
  set (b := length s2.2) in *.
  set (s3 := (<[chn := mkChannelState n i c p b]> s2.1, s2.2 ++ [0x80])) in *.
  assert (Hcs3 : s3.1 !! chn = Some (mkChannelState n i c p b)).
  { apply list_lookup_insert_eq. apply lookup_lt_Some in Hcs2. exact Hcs2. }
  assert (Hv3 : s3.2 !! b = Some 0x80)
    by (apply list_lookup_middle; reflexivity).
  destruct (foreign_steps F2 s3 _ Hinv3 HF2 Hcs3) as (Hinv4 & Hcs4 & Hbyte4 & Hgrow4).
  cbn [repeatOffset] in Hbyte4.
  assert (Hb : b <> 0%nat) by lia.
  specialize (Hbyte4 _ Hb Hv3 ltac:(unfold is_count; lia)).
  set (s4 := fold_left mstep F2 s3) in *.
  destruct (hold_segments Fs s4 b 0 Hinv4 HFs Hcs4 Hb Hbyte4 ltac:(lia))
    as (_ & Hcs5 & Hv5 & Hgrow5).
  (* putting the trace together *)
  split; [rewrite Hstep1; reflexivity|].
  cbn [fold_left own_growth]. rewrite Hstep1. fold s1.
  rewrite fold_left_app, own_growth_app. fold s2.
  cbn [fold_left own_growth]. rewrite Hstep3. fold s3.
  rewrite fold_left_app, own_growth_app. fold s4.
  split.
  - rewrite Hgrow2, Hgrow4, Hgrow5. cbn [fst]. rewrite Nat.eqb_refl.
    unfold s1, s3. cbn [snd]. rewrite !length_app. cbn [length]. lia.
  - exists b. split; [exact Hlen2|]. split; [exact Hcs5|].
    rewrite Hv5. f_equal. lia.
Qed.

End Interleaving.

(** ** Repeat runs *)

(** The cell that [cell_step] processes is a step of the compressor. *)
Lemma cell_step_mstep (fIn : list Z) (st : SeqState) (chn : nat) :
  exists ev,
    (channelState (cell_step fIn st chn), musicData (cell_step fIn st chn))
    = mstep (channelState st, musicData st) (chn, ev).
Proof.
  rewrite cell_step_unfold. cbv zeta. cbn [channelState musicData].
  eexists (_, _, _, _). reflexivity.
Qed.

(** In every state that the sequencer reaches every open run points at a
    count byte of its own. *)
Lemma sequence_inv (fIn : list Z) (modHeader : MODFileHeader.t)
  (numChannels : nat) (st : SeqState) :
  sequence fIn modHeader numChannels = Some st ->
  compressor_inv (channelState st, musicData st).
Proof.
  intros Hrun.
  apply (ord_loop_preserves fIn modHeader numChannels
           (fun chs out => compressor_inv (chs, out)))
    with (fuel := Z.to_nat (MODFileHeader.numOrders modHeader))
         (st := seq_init numChannels); [| |exact Hrun].
  - intros st0 chn Hinv.
    destruct (cell_step_mstep fIn st0 chn) as [ev ->]. apply mstep_inv, Hinv.
  - cbn [seq_init channelState musicData]. split; cbn [fst snd].
    + intros k cs Hk. apply lookup_replicate in Hk as [-> _]. apply run_ok_default.
    + intros k1 k2 cs1 cs2 _ Hk _ Hnz.
      apply lookup_replicate in Hk as [-> _]. contradiction.
Qed.

(** 130 identical cells from the initial channel state: the event, a
    saturated count byte for 128 repeats and a fresh one for the last. *)
Lemma hold_run_saturates :
  snd (emit_run 130 newChannelState [] 13 1 0x00 0x20)
  = [13; 1; 0x00; 0x20; 0xFF; 0x80].
Proof. vm_compute. reflexivity. Qed.

(** C3, as amended.  A run of [N >= 2] identical cells on one channel whose
    first cell is emitted as an event (its command and parameter are not
    both those last emitted) yields that one four-byte event followed by
    the count bytes of [N - 1] repeats: a single byte [0x7F + (N - 1)] up
    to 128 repeats, and in general one saturated byte 0xFF per 128 repeats
    before the last byte.  A hold increments the count byte of its open
    run only while that byte is below 255; with no run open, or the count
    byte at 255, it appends a fresh count byte 0x80 and records its
    offset.  With cells of other channels between those of the run, the
    cells of the run still add one event and, up to 128 repeats, one count
    byte that ends up holding [0x7F + (N - 1)]. *)
Theorem hold_run_encoding (cs : ChannelState) (out : list Z) (n i c p : Z) (N : nat) :
  ~ (c = command cs /\ p = param cs) -> (2 <= N)%nat ->
  snd (emit_run N cs out n i c p) = out ++ [n; i; c; p] ++ repeat_bytes (N - 1)
  /\ ((N <= 129)%nat -> repeat_bytes (N - 1) = [0x7F + Z.of_nat (N - 1)])
  /\ (forall cs' out',
        same_event cs' n i c p ->
        (repeatOffset cs' <> 0%nat -> nth (repeatOffset cs') out' 0 < 0xFF ->
         emit cs' out' n i c p = (cs', alter incr_byte (repeatOffset cs') out'))
        /\ (repeatOffset cs' = 0%nat \/ 0xFF <= nth (repeatOffset cs') out' 0 ->
            emit cs' out' n i c p
            = (mkChannelState (note cs') (instr cs') (command cs') (param cs')
                 (length out'),
               out' ++ [0x80])))
  /\ (forall chn chs F1 F2 Fs,
        compressor_inv (chs, out) -> chs !! chn = Some cs ->
        foreign chn F1 -> foreign chn F2 -> Forall (foreign chn) Fs ->
        N = (2 + length Fs)%nat -> (N <= 129)%nat ->
        let trace := (chn, (n, i, c, p)) :: F1
                     ++ (chn, (n, i, c, p)) :: F2
                     ++ concat (map (cons (chn, (n, i, c, p))) Fs) in
        (mstep (chs, out) (chn, (n, i, c, p))).2 = out ++ [n; i; c; p]
        /\ own_growth chn trace (chs, out) = 5%nat
        /\ exists b,
             (length out + 4 <= b)%nat
             /\ (fold_left mstep trace (chs, out)).1 !! chn
                = Some (mkChannelState n i c p b)
             /\ (fold_left mstep trace (chs, out)).2 !! b
                = Some (0x7F + Z.of_nat (N - 1))).
Proof.
  intros Hdiff HN.
  split; [apply emit_run_event; assumption|].
  split; [intros HN'; apply repeat_bytes_single; lia|].
  split.
  - intros cs' out' Hsame. split.
    + apply emit_hold_increment. exact Hsame.
    + apply emit_hold_open. exact Hsame.
  - intros chn chs F1 F2 Fs Hinv Hcs HF1 HF2 HFs -> HN'.
    apply (hold_run_interleaved chn n i c p F1 F2 Fs (chs, out) cs);
      try assumption. lia.
Qed.

(** C3 as amended, on three identical cells from the initial channel state,
    alone and with the cells of a silent second channel in between. *)
Lemma hold_run_encoding_witness :
  snd (emit_run 3 newChannelState [] 13 1 0x00 0x20) = [13; 1; 0x00; 0x20; 0x81]
  /\ fold_left mstep
       [ (0%nat, (13, 1, 0x00, 0x20)); (1%nat, (0, 0, 0x14, 0));
         (0%nat, (13, 1, 0x00, 0x20)); (1%nat, (0, 0, 0x14, 0));
         (0%nat, (13, 1, 0x00, 0x20)); (1%nat, (0, 0, 0x14, 0)) ]
       ([newChannelState; newChannelState], [])
     = ([mkChannelState 13 1 0x00 0x20 8; mkChannelState 0 0 0x14 0 9],
        [13; 1; 0x00; 0x20; 0; 0; 0x14; 0; 0x81; 0x81]).
Proof.
  destruct (hold_run_encoding newChannelState [] 13 1 0x00 0x20 3) as (H & _).
  - cbn. lia.
  - lia.
  - split; [exact H|vm_compute; reflexivity].
Defined.

(** C3 as stated fails on [run_file]: rows 1 and 2 are a run of two
    identical cells, but their command and parameter ("no effect", 0) are
    those of the event of row 0, so both take the continuation branch:
    neither an event nor a count byte is emitted for them. *)
Lemma run_without_event :
  let st1 := cell_step run_file one_channel_start 0 in
  let st3 := cell_step run_file (cell_step run_file st1 0) 0 in
  read_cell run_file (fpos st1) = read_cell run_file (fpos st1 + 4)
  /\ musicData st1 = [13; 1; 0x14; 0x00]
  /\ musicData st3 = [13; 1; 0x14; 0x80]
  /\ musicData st3 <> musicData st1 ++ [14; 1; 0x14; 0x00] ++ [0x80].
Proof.
  cbv zeta.
  split; [vm_compute; reflexivity|].
  split; [vm_compute; reflexivity|].
  split; [vm_compute; reflexivity|].
  vm_compute. discriminate.
Qed.

(** * Properties of the rest of the program *)

(** ** Packed integers *)

Lemma le_bytes_length (w : nat) (u : Z) : length (le_bytes w u) = w.
Proof. revert u. induction w as [|w IH]; intros u; cbn; [reflexivity|]. rewrite IH. reflexivity. Qed.

Lemma le_bytes_range (w : nat) (u : Z) : Forall (fun b => 0 <= b < 256) (le_bytes w u).
Proof.
  revert u. induction w as [|w IH]; intros u; cbn [le_bytes]; constructor.
  - apply Z.mod_pos_bound. lia.
  - apply IH.
Qed.

(** Only the [w] low bytes of a number matter. *)
Lemma le_bytes_mod (w : nat) (u : Z) :
  le_bytes w (u mod 2 ^ (8 * Z.of_nat w)) = le_bytes w u.
Proof.
  revert u. induction w as [|w IH]; intros u; [reflexivity|].
  cbn [le_bytes].
  replace (8 * Z.of_nat (S w)) with (8 + 8 * Z.of_nat w) by lia.
  rewrite Z.pow_add_r by lia. change (2 ^ 8) with 256.
  f_equal.
  - apply Z.mod_mod_divide. exists (2 ^ (8 * Z.of_nat w)). lia.
  - rewrite <- (IH (u / 256)). f_equal.
    rewrite Z.rem_mul_r by (try lia; apply Z.pow_nonzero; lia).
    rewrite Z.mul_comm, Z.div_add by lia.
    rewrite (Z.div_small (u mod 256)) by (apply Z.mod_pos_bound; lia). lia.
Qed.

Lemma le_value_le_bytes (w : nat) (u : Z) :
  le_value (le_bytes w u) = u mod 2 ^ (8 * Z.of_nat w).
Proof.
  revert u. induction w as [|w IH]; intros u.
  - cbn. rewrite Z.mod_1_r. reflexivity.
  - cbn [le_bytes le_value]. rewrite IH.
    replace (8 * Z.of_nat (S w)) with (8 + 8 * Z.of_nat w) by lia.
    rewrite Z.pow_add_r by lia. change (2 ^ 8) with 256.
    rewrite Z.rem_mul_r by (try lia; apply Z.pow_nonzero; lia). reflexivity.
Qed.

Lemma le_bytes_le_value (bytes : list Z) :
  Forall (fun b => 0 <= b < 256) bytes ->
  le_bytes (length bytes) (le_value bytes) = bytes.
Proof.
  induction bytes as [|b bytes IH]; intros Hall; [reflexivity|].
  apply Forall_cons in Hall as [Hb Hall]. cbn [length le_bytes le_value].
  replace (b + 256 * le_value bytes) with (b + le_value bytes * 256) by lia.
  f_equal.
  - rewrite Z.mod_add by lia. apply Z.mod_small, Hb.
  - rewrite Z.div_add by lia. rewrite (Z.div_small b) by exact Hb.
    rewrite Z.add_0_l. apply IH, Hall.
Qed.

(** One step of a bit-by-bit comparison. *)
Ltac bit_step :=
  match goal with
  | |- context [Z.testbit (Z.land ?a ?b) ?m] => rewrite (Z.land_spec a b m)
  | |- context [Z.testbit (Z.lor ?a ?b) ?m] => rewrite (Z.lor_spec a b m)
  | |- context [Z.testbit 0 ?m] => rewrite (Z.bits_0 m)
  | |- context [Z.testbit (Z.shiftr ?a ?k) ?m] => rewrite (Z.shiftr_spec a k m) by lia
  | |- context [Z.testbit (Z.shiftl ?a ?k) ?m] =>
      first [ rewrite (Z.shiftl_spec a k m) by lia
            | rewrite (Z.testbit_neg_r (Z.shiftl a k) m) by lia ]
  | |- context [Z.testbit (Z.ones ?k) ?m] =>
      first [ rewrite (Z.ones_spec_low k m) by lia
            | rewrite (Z.ones_spec_high k m) by lia
            | rewrite (Z.testbit_neg_r (Z.ones k) m) by lia ]
  end.

(** Equality of two numbers built from masks and shifts by whole bytes,
    compared bit by bit in each of the four low bytes and above them. *)
Ltac bits n :=
  apply Z.bits_inj'; intros n ?;
  destruct (Z.lt_ge_cases n 8);
    [|destruct (Z.lt_ge_cases n 16);
      [|destruct (Z.lt_ge_cases n 24); [|destruct (Z.lt_ge_cases n 32)]]];
  repeat bit_step;
  cbn [andb orb];
  rewrite ?andb_false_r, ?andb_true_r, ?orb_false_r, ?orb_false_l;
  try reflexivity;
  try (f_equal; lia).

Ltac masks :=
  change 0x000000FF with (Z.ones 8);
  change 0x0000FF00 with (Z.shiftl (Z.ones 8) 8);
  change 0x00FF0000 with (Z.shiftl (Z.ones 8) 16);
  change 0xFF000000 with (Z.shiftl (Z.ones 8) 24).

Lemma bswap32_byte0 (x : Z) : byte_of 0 (constexpr_bswap32 x) = byte_of 3 x.
Proof. unfold byte_of, constexpr_bswap32. masks. bits n. Qed.

Lemma bswap32_byte1 (x : Z) : byte_of 1 (constexpr_bswap32 x) = byte_of 2 x.
Proof. unfold byte_of, constexpr_bswap32. masks. bits n. Qed.

Lemma bswap32_byte2 (x : Z) : byte_of 2 (constexpr_bswap32 x) = byte_of 1 x.
Proof. unfold byte_of, constexpr_bswap32. masks. bits n. Qed.

Lemma bswap32_byte3 (x : Z) : byte_of 3 (constexpr_bswap32 x) = byte_of 0 x.
Proof. unfold byte_of, constexpr_bswap32. masks. bits n. Qed.

Lemma bswap16_byte0 (x : Z) : byte_of 0 (constexpr_bswap16 x) = byte_of 1 x.
Proof. unfold byte_of, constexpr_bswap16. masks. bits n. Qed.

Lemma bswap16_byte1 (x : Z) : byte_of 1 (constexpr_bswap16 x) = byte_of 0 x.
Proof. unfold byte_of, constexpr_bswap16. masks. bits n. Qed.

Lemma bswap32_mod (x : Z) : constexpr_bswap32 x mod 2 ^ 32 = constexpr_bswap32 x.
Proof.
  rewrite <- Z.land_ones by lia. unfold constexpr_bswap32. masks. bits n.
Qed.

Lemma bswap16_mod (x : Z) : constexpr_bswap16 x mod 2 ^ 16 = constexpr_bswap16 x.
Proof.
  rewrite <- Z.land_ones by lia. unfold constexpr_bswap16. masks. bits n.
Qed.

Lemma le_bytes_2 (x : Z) : le_bytes 2 x = [byte_of 0 x; byte_of 1 x].
Proof.
  unfold byte_of. cbn [le_bytes]. rewrite !Z.land_ones, !Z.shiftr_div_pow2 by lia.
  change (2 ^ 8) with 256. change (2 ^ (8 * 0)) with 1. change (2 ^ (8 * 1)) with 256.
  rewrite Z.div_1_r. reflexivity.
Qed.

Lemma le_bytes_4 (x : Z) :
  le_bytes 4 x = [byte_of 0 x; byte_of 1 x; byte_of 2 x; byte_of 3 x].
Proof.
  unfold byte_of. cbn [le_bytes]. rewrite !Z.land_ones, !Z.shiftr_div_pow2 by lia.
  rewrite !Z.div_div by lia.
  change (2 ^ 8) with 256. change (2 ^ (8 * 0)) with 1. change (2 ^ (8 * 1)) with 256.
  change (2 ^ (8 * 2)) with (256 * 256). change (2 ^ (8 * 3)) with (256 * 256 * 256).
  rewrite Z.div_1_r. reflexivity.
Qed.

(** The two swaps reverse the bytes of their argument. *)
Lemma bswap32_bytes (x : Z) : le_bytes 4 (constexpr_bswap32 x) = rev (le_bytes 4 x).
Proof.
  rewrite !le_bytes_4. cbn [rev app].
  rewrite bswap32_byte0, bswap32_byte1, bswap32_byte2, bswap32_byte3. reflexivity.
Qed.

Lemma bswap16_bytes (x : Z) : le_bytes 2 (constexpr_bswap16 x) = rev (le_bytes 2 x).
Proof.
  rewrite !le_bytes_2. cbn [rev app]. rewrite bswap16_byte0, bswap16_byte1. reflexivity.
Qed.

Lemma modulus_pos (T : int_type) : 0 < modulus T.
Proof. destruct T; reflexivity. Qed.

Lemma modulus_sizeof (T : int_type) : modulus T = 2 ^ (8 * Z.of_nat (sizeof T)).
Proof. reflexivity. Qed.

(** A conversion keeps the residue, and depends on nothing else. *)
Lemma convert_mod (T : int_type) (x : Z) : convert T x mod modulus T = x mod modulus T.
Proof.
  unfold convert. pose proof (modulus_pos T).
  destruct (is_signed T && (modulus T / 2 <=? x mod modulus T)).
  - replace (x mod modulus T - modulus T) with (x mod modulus T + (-1) * modulus T) by lia.
    rewrite Z.mod_add by lia. apply Z.mod_mod. lia.
  - apply Z.mod_mod. lia.
Qed.

Lemma convert_congr (T : int_type) (x y : Z) :
  x mod modulus T = y mod modulus T -> convert T x = convert T y.
Proof. intros H. unfold convert. rewrite H. reflexivity. Qed.

Lemma convert_in_range (T : int_type) (x : Z) : in_range T (convert T x).
Proof.
  unfold convert, in_range.
  pose proof (Z.mod_pos_bound x (modulus T) (modulus_pos T)) as Hm.
  assert (Hhalf : modulus T = 2 * (modulus T / 2)) by (destruct T; reflexivity).
  destruct (is_signed T); cbn [andb]; [|exact Hm].
  destruct (Z.leb_spec (modulus T / 2) (x mod modulus T)); lia.
Qed.

Lemma convert_id (T : int_type) (x : Z) : in_range T x -> convert T x = x.
Proof.
  unfold convert, in_range. pose proof (modulus_pos T) as Hpos.
  assert (Hhalf : modulus T = 2 * (modulus T / 2)) by (destruct T; reflexivity).
  destruct (is_signed T); cbn [andb]; intros Hx.
  - destruct (Z.neg_nonneg_cases x) as [Hneg|Hnn].
    + assert (Hm : x mod modulus T = x + modulus T)
        by (symmetry; apply (Z.mod_unique x (modulus T) (-1)); lia).
      rewrite Hm. destruct (Z.leb_spec (modulus T / 2) (x + modulus T)); lia.
    + rewrite Z.mod_small by lia.
      destruct (Z.leb_spec (modulus T / 2) x); lia.
  - apply Z.mod_small. exact Hx.
Qed.

Lemma le_bytes_convert (T : int_type) (x : Z) :
  le_bytes (sizeof T) (convert T x) = le_bytes (sizeof T) x.
Proof.
  rewrite <- (le_bytes_mod _ (convert T x)), <- (le_bytes_mod _ x).
  rewrite <- !modulus_sizeof, convert_mod. reflexivity.
Qed.

(** Whatever overload is selected, the swap reverses the bytes. *)
Lemma bswap_bytes (T : int_type) (x : Z) :
  le_bytes (sizeof T) (bswap T x) = rev (le_bytes (sizeof T) x).
Proof.
  destruct T; cbn [bswap sizeof].
  - apply bswap32_bytes.
  - apply bswap16_bytes.
  - reflexivity.
  - rewrite bswap32_bytes. f_equal.
    rewrite <- (le_bytes_mod 4 (convert uint32_t x)), <- (le_bytes_mod 4 x).
    f_equal. apply (convert_mod uint32_t).
  - rewrite bswap16_bytes. f_equal.
    rewrite <- (le_bytes_mod 2 (convert uint16_t x)), <- (le_bytes_mod 2 x).
    f_equal. apply (convert_mod uint16_t).
  - cbn [le_bytes rev app]. f_equal.
    pose proof (convert_mod uint32_t x) as H. change (modulus uint32_t) with (2 ^ 32) in H.
    rewrite <- (Z.mod_mod_divide (convert uint32_t x) (2 ^ 32) 256),
            <- (Z.mod_mod_divide x (2 ^ 32) 256), H;
      [reflexivity|exists (2 ^ 24); reflexivity|exists (2 ^ 24); reflexivity].
Qed.

Lemma in_order_other (native e : endian) (l : list Z) :
  endian_eqb native e = false -> in_order native (rev l) = in_order e l.
Proof.
  destruct native, e; cbn; intros H; try discriminate; [reflexivity|apply rev_involutive].
Qed.

Lemma in_order_same (native e : endian) (l : list Z) :
  endian_eqb native e = true -> in_order native l = in_order e l.
Proof. destruct native, e; cbn; intros H; try discriminate; reflexivity. Qed.

Lemma in_order_involutive (e : endian) (l : list Z) : in_order e (in_order e l) = l.
Proof. destruct e; cbn; [reflexivity|apply rev_involutive]. Qed.

Lemma in_order_length (e : endian) (l : list Z) : length (in_order e l) = length l.
Proof. destruct e; cbn; [reflexivity|apply length_rev]. Qed.

Lemma in_order_range (e : endian) (l : list Z) :
  Forall (fun b => 0 <= b < 256) l -> Forall (fun b => 0 <= b < 256) (in_order e l).
Proof. destruct e; cbn; [auto|apply Forall_rev]. Qed.

Lemma packed_assign_bytes (endianness native : endian) (T : int_type) (value : Z) :
  packed_assign endianness native T value = encode endianness T value.
Proof.
  unfold packed_assign, encode, object_bytes.
  rewrite !modulus_sizeof, !le_bytes_mod.
  destruct (endian_eqb native endianness) eqn:He; cbn [negb].
  - apply in_order_same, He.
  - rewrite le_bytes_convert, bswap_bytes. apply in_order_other, He.
Qed.

Lemma encode_length (e : endian) (T : int_type) (value : Z) :
  length (encode e T value) = sizeof T.
Proof. unfold encode. rewrite in_order_length, le_bytes_length. reflexivity. Qed.

Lemma encode_range (e : endian) (T : int_type) (value : Z) :
  Forall (fun b => 0 <= b < 256) (encode e T value).
Proof. unfold encode. apply in_order_range, le_bytes_range. Qed.

(** X1.  Swapping the bytes of a 32-bit or of a 16-bit value twice gives the
    value back (for any integer, its residue), and a swapped value fits its
    width. *)
Theorem bswap_involutive (x : Z) :
  constexpr_bswap32 (constexpr_bswap32 x) = x mod 2 ^ 32
  /\ constexpr_bswap16 (constexpr_bswap16 x) = x mod 2 ^ 16
  /\ 0 <= constexpr_bswap32 x < 2 ^ 32
  /\ 0 <= constexpr_bswap16 x < 2 ^ 16.
Proof.
  split; [|split; [|split]].
  - rewrite <- bswap32_mod.
    change (2 ^ 32) with (2 ^ (8 * Z.of_nat 4)). rewrite <- !le_value_le_bytes.
    rewrite !bswap32_bytes, rev_involutive. reflexivity.
  - rewrite <- bswap16_mod.
    change (2 ^ 16) with (2 ^ (8 * Z.of_nat 2)). rewrite <- !le_value_le_bytes.
    rewrite !bswap16_bytes, rev_involutive. reflexivity.
  - rewrite <- bswap32_mod. apply Z.mod_pos_bound. reflexivity.
  - rewrite <- bswap16_mod. apply Z.mod_pos_bound. reflexivity.
Qed.

(** X2.  [packed::operator=] leaves in [m_value] the bytes of the value in
    the declared byte order, most significant byte first for a big-endian
    field and least significant first for a little-endian one, whatever the
    byte order of the host; it always fills [sizeof(T)] bytes. *)
Theorem packed_assign_encodes (endianness native : endian) (T : int_type) (value : Z) :
  packed_assign endianness native T value
  = in_order endianness (le_bytes (sizeof T) value)
  /\ length (packed_assign endianness native T value) = sizeof T
  /\ Forall (fun b => 0 <= b < 256) (packed_assign endianness native T value).
Proof.
  rewrite packed_assign_bytes. split; [|split].
  - unfold encode. rewrite modulus_sizeof, le_bytes_mod. reflexivity.
  - apply encode_length.
  - apply encode_range.
Qed.

(** What [packed::operator T] yields for [sizeof(T)] bytes: the number they
    spell in the declared byte order, whatever the byte order of the
    host. *)
Lemma packed_read_decodes (endianness native : endian) (T : int_type)
  (m_value : list Z) :
  length m_value = sizeof T -> Forall (fun b => 0 <= b < 256) m_value ->
  packed_read endianness native T m_value
  = convert T (le_value (in_order endianness m_value)).
Proof.
  intros Hlen Hbytes. unfold packed_read, object_value.
  destruct (endian_eqb native endianness) eqn:He; cbn [negb].
  - rewrite (in_order_same _ _ _ He). reflexivity.
  - apply convert_congr.
    set (y := le_value (in_order native m_value)).
    assert (Hy : le_bytes (sizeof T) y = in_order native m_value).
    { rewrite <- Hlen, <- (in_order_length native). apply le_bytes_le_value.
      apply in_order_range, Hbytes. }
    assert (Hz : le_bytes (sizeof T) (le_value (in_order endianness m_value))
                 = in_order endianness m_value).
    { rewrite <- Hlen, <- (in_order_length endianness). apply le_bytes_le_value.
      apply in_order_range, Hbytes. }
    rewrite modulus_sizeof, <- !le_value_le_bytes. f_equal.
    rewrite bswap_bytes, le_bytes_convert, Hy, Hz.
    destruct native, endianness; cbn in *; try discriminate;
      [reflexivity|apply rev_involutive].
Qed.

(** X3.  Reading a packed field back gives the value that was assigned,
    converted to the field's type; a value of that type comes back
    unchanged, on a host of either byte order. *)
Theorem packed_round_trip (endianness native : endian) (T : int_type) (value : Z) :
  packed_read endianness native T (packed_assign endianness native T value)
  = convert T value
  /\ (in_range T value ->
      packed_read endianness native T (packed_assign endianness native T value)
      = value).
Proof.
  assert (H : packed_read endianness native T (packed_assign endianness native T value)
              = convert T value).
  { rewrite packed_assign_bytes.
    rewrite packed_read_decodes by (apply encode_length || apply encode_range).
    unfold encode. rewrite in_order_involutive, le_value_le_bytes.
    apply convert_congr. rewrite <- modulus_sizeof.
    rewrite !Z.mod_mod by (pose proof (modulus_pos T); lia). reflexivity. }
  split; [exact H|]. intros Hr. rewrite H. apply convert_id, Hr.
Qed.

(** X3 on the 16-bit value -2 in a big-endian field of a little-endian
    host. *)
Lemma packed_round_trip_witness :
  packed_assign endian_big endian_little int16_t (-2) = [0xFF; 0xFE]
  /\ packed_read endian_big endian_little int16_t
       (packed_assign endian_big endian_little int16_t (-2)) = -2.
Proof.
  split; [vm_compute; reflexivity|].
  apply (packed_round_trip endian_big endian_little int16_t (-2)).
  vm_compute. split; [discriminate|reflexivity].
Defined.

(** ** Names *)

Lemma resize_length (n : nat) (s : list Z) : length (resize n s) = n.
Proof. unfold resize. rewrite length_app, length_take, length_replicate. lia. Qed.

Lemma c_str_length (s : list Z) : (length (c_str s) <= length s)%nat.
Proof.
  induction s as [|c s IH]; cbn [c_str length]; [lia|].
  destruct (c =? 0); cbn [length]; lia.
Qed.

Lemma c_str_no_nul (s : list Z) : Forall (fun c => c <> 0) (c_str s).
Proof.
  induction s as [|c s IH]; cbn [c_str]; [constructor|].
  destruct (Z.eqb_spec c 0); constructor; assumption.
Qed.

(** The string is the buffer up to its first NUL, or all of it. *)
Lemma c_str_prefix (s : list Z) :
  exists rest, s = c_str s ++ rest /\ (rest = [] \/ exists rest', rest = 0 :: rest').
Proof.
  induction s as [|c s (rest & Hs & Hrest)]; cbn [c_str].
  - exists []. split; [reflexivity|left; reflexivity].
  - destruct (Z.eqb_spec c 0) as [->|Hc].
    + exists (0 :: s). split; [reflexivity|right; eauto].
    + exists rest. split; [cbn; congruence|exact Hrest].
Qed.

Lemma clear_control_clean (c : Z) : ~ is_control_char (clear_control c).
Proof.
  unfold clear_control, is_control_char.
  destruct (Z.gtb_spec c 0x00); destruct (Z.ltb_spec c 0x20); cbn [andb]; lia.
Qed.

Lemma clear_control_other (c : Z) : ~ is_control_char c -> clear_control c = c.
Proof.
  unfold clear_control, is_control_char.
  destruct (Z.gtb_spec c 0x00); destruct (Z.ltb_spec c 0x20); cbn [andb]; lia.
Qed.

(** X4.  [SampleName] always returns 32 characters: the two decimal digits
    of the slot number, a colon, the source name up to its first NUL (at
    most 22 characters) with every control character replaced by a space,
    and NULs to the end.  No control character is left in it. *)
Theorem SampleName_shape (index : Z) (modName : list Z) :
  0 <= index < 100 ->
  let s := c_str (take 22 modName) in
  SampleName index modName
  = [0x30 + index / 10; 0x30 + index mod 10; 0x3A]
    ++ map clear_control s ++ replicate (29 - length s) 0
  /\ length (SampleName index modName) = 32%nat
  /\ (length s <= 22)%nat
  /\ Forall (fun c => c <> 0) s
  /\ Forall (fun c => ~ is_control_char c) (SampleName index modName).
Proof.
  intros Hi s.
  assert (Hlen : (length s <= 22)%nat).
  { unfold s. etransitivity; [apply c_str_length|]. rewrite length_take. lia. }
  assert (Hq : Z.quot index 10 = index / 10) by (apply Z.quot_div_nonneg; lia).
  assert (Hr : Z.rem index 10 = index mod 10) by (apply Z.rem_mod_nonneg; lia).
  assert (Heq : SampleName index modName
                = [0x30 + index / 10; 0x30 + index mod 10; 0x3A]
                  ++ map clear_control s ++ replicate (29 - length s) 0).
  { unfold SampleName. fold s. cbn [app alter list_alter]. rewrite Hq, Hr.
    unfold resize. cbn [length]. rewrite length_map.
    rewrite take_ge by (cbn [length]; rewrite length_map; lia).
    cbn [app]. reflexivity. }
  split; [exact Heq|]. split; [apply resize_length|].
  split; [exact Hlen|]. split; [apply c_str_no_nul|].
  rewrite Heq. unfold is_control_char.
  pose proof (Z.div_pos index 10). pose proof (Z.mod_pos_bound index 10).
  repeat (apply Forall_cons; split; [lia|]).
  apply Forall_app. split.
  - apply Forall_map, Forall_forall. intros c _. apply clear_control_clean.
  - apply Forall_replicate. lia.
Qed.

(** X4 on slot 7 with a name that holds a tab and ends after two
    characters. *)
Lemma SampleName_shape_witness :
  SampleName 7 [0x41; 0x09; 0x00; 0x42]
  = [0x30; 0x37; 0x3A; 0x41; 0x20] ++ replicate 27 0.
Proof.
  destruct (SampleName_shape 7 [0x41; 0x09; 0x00; 0x42]) as [H _]; [lia|].
  exact H.
Defined.

(** X5.  The song name of the destination header is 32 characters long:
    the source name up to its first NUL (at most 20 characters) with every
    control character replaced by a space, and NULs to the end. *)
Theorem song_name_shape (modName : list Z) :
  let s := c_str (take 20 modName) in
  song_name modName = map clear_control s ++ replicate (32 - length s) 0
  /\ length (song_name modName) = 32%nat
  /\ (length s <= 20)%nat
  /\ Forall (fun c => ~ is_control_char c) (song_name modName).
Proof.
  intros s.
  assert (Hlen : (length s <= 20)%nat).
  { unfold s. etransitivity; [apply c_str_length|]. rewrite length_take. lia. }
  split; [|split; [|split; [exact Hlen|]]].
  - unfold song_name, resize. fold s. rewrite take_ge by lia.
    rewrite map_app. f_equal.
    induction (32 - length s)%nat as [|k IH]; cbn; [reflexivity|].
    rewrite IH. reflexivity.
  - unfold song_name. rewrite length_map. apply resize_length.
  - unfold song_name. apply Forall_map, Forall_forall. intros c _.
    apply clear_control_clean.
Qed.
(** ** Validation *)

Lemma bytes_eqb_eq (a b : list Z) : bytes_eqb a b = true <-> a = b.
Proof. unfold bytes_eqb. apply bool_decide_eq_true. Qed.

(** X6.  The channel count is read off the four-character signature:
    ["1CHN"], ["2CHN"], ["3CHN"] and ["M.K."] give 1, 2, 3 and 4, and any
    other signature gives 0. *)
Theorem identify_signature (magic : list Z) :
  let numChannels := identify magic 0 magics in
  (numChannels <= 4)%nat
  /\ (forall k : nat, (k < 4)%nat ->
        (magics !! k = Some (take 4 magic) <-> numChannels = S k))
  /\ (numChannels = 0%nat <-> ~ In (take 4 magic) magics).
Proof.
  cbv zeta. unfold magics. cbn [identify In]. unfold bytes_eqb.
  generalize (take 4 magic) as m. intros m.
  repeat case_bool_decide; subst; cbn [Nat.add].
  all: split; [lia|]; split.
  all: try (intros k Hk; destruct k as [|[|[|[|k]]]]; try lia; cbn;
            split; intros E; first [reflexivity | discriminate | congruence]).
  all: split;
    first [ solve [intros E; discriminate E]
          | solve [intros _; reflexivity]
          | solve [intros Hn; exfalso; apply Hn; auto 6]
          | solve [intros _ Hin; intuition congruence] ].
Qed.

(** X7.  [main] always ends, with exit code -3 for an unknown signature,
    -4 for a known signature with more than 128 orders and 0 otherwise.
    With a non-zero exit code nothing has been written; with exit code 0
    the output starts with the song header and the event stream. *)
Theorem main_exit_codes (fIn : list Z) (modHeader : MODFileHeader.t) :
  let numChannels := identify (MODFileHeader.magic modHeader) 0 magics in
  exists code fOut,
    main fIn modHeader = Some (code, fOut)
    /\ (code = -3 <-> numChannels = 0%nat)
    /\ (code = -4 <->
        numChannels <> 0%nat /\ 128 < MODFileHeader.numOrders modHeader)
    /\ (code = 0 <->
        numChannels <> 0%nat /\ MODFileHeader.numOrders modHeader <= 128)
    /\ (code <> 0 -> fOut = [])
    /\ (code = 0 ->
        exists kmSong music rest, fOut = WSong kmSong :: WData music :: rest).
Proof.
  intros numChannels.
  destruct (Nat.eq_dec numChannels 0%nat) as [Hz|Hnz].
  - exists (-3), []. unfold main. fold numChannels. rewrite Hz. cbn [Nat.eqb].
    split; [reflexivity|]. repeat split; try tauto; try lia; try discriminate.
  - destruct (Z_le_gt_dec (MODFileHeader.numOrders modHeader) 128) as [Hle|Hgt].
    + destruct (main_valid fIn modHeader Hnz Hle) as (st & rest & _ & Hmain).
      eexists 0, _. split; [exact Hmain|].
      repeat split; try tauto; try lia; try discriminate. eauto.
    + exists (-4), []. unfold main. fold numChannels.
      destruct (Nat.eqb_spec numChannels 0); [contradiction|].
      destruct (Z.gtb_spec (MODFileHeader.numOrders modHeader) 128); [|lia].
      split; [reflexivity|]. repeat split; try tauto; try lia; try discriminate.
Qed.

(** ** Pattern count *)

Lemma count_patterns_fold (orderList : list Z) (ords : list nat) (acc : Z) :
  0 <= acc <= 128 ->
  let step := fun numPatterns ord =>
                let pat := nth ord orderList 0 in
                if (pat <? 128) && (numPatterns <=? pat) then pat + 1 else numPatterns in
  let n := fold_left step ords acc in
  acc <= n <= 128
  /\ (forall ord, In ord ords -> order_entry orderList ord < 128 ->
                  order_entry orderList ord < n)
  /\ (n = acc \/ exists ord, In ord ords /\ order_entry orderList ord = n - 1).
Proof.
  cbv zeta. revert acc. induction ords as [|o ords IH]; intros acc Hacc.
  - cbn. repeat split; try lia.
  - cbn [fold_left].
    set (acc' := if (nth o orderList 0 <? 128) && (acc <=? nth o orderList 0)
                 then nth o orderList 0 + 1 else acc).
    assert (Hacc' : acc <= acc' <= 128
                    /\ (order_entry orderList o < 128 -> order_entry orderList o < acc')
                    /\ (acc' = acc \/ order_entry orderList o = acc' - 1)).
    { unfold acc', order_entry.
      destruct (Z.ltb_spec (nth o orderList 0) 128);
        destruct (Z.leb_spec acc (nth o orderList 0)); cbn [andb]; lia. }
    destruct Hacc' as (Hr & Hlt & Hor).
    destruct (IH acc' ltac:(lia)) as (Hn & Hall & Hex).
    split; [lia|]. split.
    + intros ord [<-|Hin] Hord; [specialize (Hlt Hord); lia|apply Hall; assumption].
    + destruct Hex as [Hn'|(ord & Hin & Hord)].
      * rewrite Hn'. destruct Hor as [->|Ho]; [left; reflexivity|].
        right. exists o. split; [left; reflexivity|exact Ho].
      * right. exists ord. split; [right; exact Hin|exact Hord].
Qed.

(** X8.  The pattern count is one more than the largest entry below 128
    among all 128 entries of the order list, whether they are played or
    not, and 0 when there is no such entry; it never exceeds 128. *)
Theorem count_patterns_max (orderList : list Z) :
  let numPatterns := count_patterns orderList in
  0 <= numPatterns <= 128
  /\ (forall ord, (ord < 128)%nat -> order_entry orderList ord < 128 ->
                  order_entry orderList ord < numPatterns)
  /\ (numPatterns = 0
      \/ exists ord, (ord < 128)%nat /\ order_entry orderList ord = numPatterns - 1).
Proof.
  cbv zeta. unfold count_patterns.
  destruct (count_patterns_fold orderList (seq 0 128) 0 ltac:(lia)) as (Hn & Hall & Hex).
  cbv zeta in Hn, Hall, Hex.
  split; [exact Hn|]. split.
  - intros ord Hord. apply Hall, in_seq. lia.
  - destruct Hex as [Hz|(ord & Hin & Hord)]; [left; exact Hz|].
    right. exists ord. split; [apply in_seq in Hin; lia|exact Hord].
Qed.

(** ** Sample references and sample chunks *)

(** X9.  A sample reference of the song header has a 32-character name, a
    finetune between 0 and 15 and a volume of at most 64; for a slot of
    declared length below 2 it is left zeroed, otherwise it holds the name
    of the slot, the low nibble of the source finetune and the source
    volume capped at 64. *)
Theorem sample_reference_fields (i : nat) (modSample : MODSampleHeader.t) :
  let r := sample_reference i modSample in
  length (KMSampleReference.name r) = 32%nat
  /\ 0 <= KMSampleReference.finetune r <= 15
  /\ KMSampleReference.volume r <= 64
  /\ (MODSampleHeader.length modSample < 2 ->
      r = KMSampleReference.mk (replicate 32 0) 0 0)
  /\ (2 <= MODSampleHeader.length modSample ->
      KMSampleReference.name r
      = SampleName (Z.of_nat i + 1) (MODSampleHeader.name modSample)
      /\ KMSampleReference.finetune r
         = Z.land (MODSampleHeader.finetune modSample) 0x0F
      /\ KMSampleReference.volume r = Z.min (MODSampleHeader.volume modSample) 64).
Proof.
  cbv zeta. unfold sample_reference.
  destruct (Z.ltb_spec (MODSampleHeader.length modSample) 2) as [Hlt|Hge];
    cbn [KMSampleReference.name KMSampleReference.finetune KMSampleReference.volume].
  - rewrite length_replicate. repeat split; try lia.
  - pose proof (low_nibble_range (MODSampleHeader.finetune modSample)).
    split; [apply resize_length|].
    destruct (Z.ltb_spec (MODSampleHeader.volume modSample) 64);
      repeat split; try lia.
Qed.

(** X10.  The header of a sample chunk, for 16-bit source fields: the
    chunk size is the header size plus the sample size, and the loop start
    lies within the sample.  A loop is accepted as soon as it is longer
    than one word and starts inside the declared length, even when it runs
    past the end of the sample; the sample then ends where the loop ends.
    Without an accepted loop the sample has its declared length and the
    loop start is its end. *)
Theorem sample_header_fields (i : nat) (modSample : MODSampleHeader.t) :
  is_uint16 (MODSampleHeader.length modSample) ->
  is_uint16 (MODSampleHeader.loopStart modSample) ->
  is_uint16 (MODSampleHeader.loopLength modSample) ->
  let kmSample := sample_header i modSample in
  let length := MODSampleHeader.length modSample in
  let loopStart := MODSampleHeader.loopStart modSample in
  let loopLength := MODSampleHeader.loopLength modSample in
  KMSampleHeader.id kmSample = tag_SMPL
  /\ KMSampleHeader.name kmSample
     = SampleName (Z.of_nat i + 1) (MODSampleHeader.name modSample)
  /\ KMSampleHeader.chunkSize kmSample
     = sizeof_KMSampleHeader + KMSampleHeader.sampleSize kmSample
  /\ 0 <= KMSampleHeader.loopStart kmSample <= KMSampleHeader.sampleSize kmSample
  /\ KMSampleHeader.sampleSize kmSample <= 4 * 65535
  /\ (1 < loopLength /\ loopStart < length ->
      KMSampleHeader.loopStart kmSample = 2 * loopStart
      /\ KMSampleHeader.sampleSize kmSample = 2 * (loopStart + loopLength))
  /\ (~ (1 < loopLength /\ loopStart < length) ->
      KMSampleHeader.sampleSize kmSample = 2 * length
      /\ KMSampleHeader.loopStart kmSample = 2 * length).
Proof.
  unfold is_uint16. intros Hlen Hstart Hloop. cbv zeta. unfold sample_header.
  destruct (Z.gtb_spec (MODSampleHeader.loopLength modSample) 1) as [Hl|Hl];
    destruct (Z.ltb_spec (MODSampleHeader.loopStart modSample)
                (MODSampleHeader.length modSample)) as [Hs|Hs];
    destruct (Z.eqb_spec (MODSampleHeader.loopStart modSample
                          + MODSampleHeader.loopLength modSample
                          + MODSampleHeader.length modSample) 0) as [Hz|Hz];
    cbn [andb negb KMSampleHeader.id KMSampleHeader.name KMSampleHeader.chunkSize
         KMSampleHeader.loopStart KMSampleHeader.sampleSize];
    try lia;
    unfold to_uint32, sizeof_KMSampleHeader;
    repeat match goal with
      | |- context [?a mod 2 ^ 32] => rewrite (Z.mod_small a (2 ^ 32)) by lia
      end;
    repeat split; try lia; try reflexivity.
Qed.

(** X10 on a sample of 100 words with a loop of 50 words from word 80, which
    runs 30 words past the end of the sample. *)
Lemma sample_header_fields_witness :
  KMSampleHeader.loopStart
    (sample_header 0 (MODSampleHeader.mk (replicate 22 0) 100 0 64 80 50)) = 160
  /\ KMSampleHeader.sampleSize
       (sample_header 0 (MODSampleHeader.mk (replicate 22 0) 100 0 64 80 50)) = 260.
Proof.
  destruct (sample_header_fields 0 (MODSampleHeader.mk (replicate 22 0) 100 0 64 80 50))
    as (_ & _ & _ & _ & _ & H & _).
  - cbn. unfold is_uint16. lia.
  - cbn. unfold is_uint16. lia.
  - cbn. unfold is_uint16. lia.
  - cbn in H. apply H. lia.
Defined.

Lemma read_bytes_length (fIn : list Z) (pos : Z) (n : nat) :
  length (read_bytes fIn pos n) = n.
Proof. unfold read_bytes. rewrite length_map, length_seq. reflexivity. Qed.


Lemma sample_steps_from (fIn : list Z) (modHeader : MODFileHeader.t)
  (numChannels : nat) (n a : nat) (fOut : list Written) :
  fold_left (sample_step fIn modHeader) (seq a n)
    (sample_pos modHeader numChannels a, fOut)
  = (sample_pos modHeader numChannels (a + n),
     fOut ++ concat (map (sample_chunk fIn modHeader numChannels) (seq a n))).
Proof.
  revert a fOut. induction n as [|n IH]; intros a fOut.
  - cbn. rewrite Nat.add_0_r, app_nil_r. reflexivity.
  - cbn [seq fold_left map concat].
    assert (Hstep : sample_step fIn modHeader
                      (sample_pos modHeader numChannels a, fOut) a
                    = (sample_pos modHeader numChannels (S a),
                       fOut ++ sample_chunk fIn modHeader numChannels a)).
    { unfold sample_step, sample_chunk. cbn [sample_pos].
      destruct (MODSampleHeader.length (sample_at modHeader a) <? 2);
        [rewrite app_nil_r|]; reflexivity. }
    rewrite Hstep, IH, <- app_assoc. do 2 f_equal. lia.
Qed.


(** ** The music stream as a sequence of items *)

Lemma note_loop_range (period : Z) (n i : nat) :
  0 <= note_loop period n i <= Z.of_nat (i + n).
Proof.
  revert i. induction n as [|n IH]; intros i; cbn [note_loop]; [lia|].
  destruct (period >=? period_at i).
  - destruct (_ && _); [destruct (_ <? _)|]; lia.
  - specialize (IH (S i)). lia.
Qed.

Lemma period_to_note_range (period : Z) : 0 <= period_to_note period <= 36.
Proof.
  unfold period_to_note. destruct (_ && _); [|lia].
  pose proof (note_loop_range period (length ProTrackerPeriodTable) 0) as H.
  rewrite period_table_length in *.
  change (Z.of_nat (0 + 36)) with 36 in H. exact H.
Qed.

Lemma cell_instr_range (b0 b2 : Z) :
  0 <= b0 < 256 -> 0 <= b2 < 256 -> 0 <= cell_instr b0 b2 <= 31.
Proof.
  intros H0 H2. unfold cell_instr.
  assert (Hhi : 0 <= Z.shiftr b2 4 < 16).
  { rewrite Z.shiftr_div_pow2 by lia. change (2 ^ 4) with 16.
    split; [apply Z.div_pos; lia|apply Z.div_lt_upper_bound; lia]. }
  assert (Hlo : Z.land b0 0x10 = 0 \/ Z.land b0 0x10 = 16).
  { pose proof (byte_cases
      (fun b => (Z.land b 0x10 =? 0) || (Z.land b 0x10 =? 16))
      ltac:(vm_compute; reflexivity) b0 H0) as H.
    cbn beta in H. apply orb_true_iff in H as [H|H]; lia. }
  assert (Hcases : forall a, 0 <= a < 16 ->
            Z.lor a 0 = a /\ Z.lor a 16 = a + 16).
  { intros a Ha.
    assert (Hc : a = 0 \/ a = 1 \/ a = 2 \/ a = 3 \/ a = 4 \/ a = 5 \/ a = 6
      \/ a = 7 \/ a = 8 \/ a = 9 \/ a = 10 \/ a = 11 \/ a = 12 \/ a = 13
      \/ a = 14 \/ a = 15) by lia.
    repeat (destruct Hc as [->|Hc]; [split; reflexivity|]).
    subst. split; reflexivity. }
  destruct (Hcases _ Hhi) as [Ha Hb]. destruct Hlo as [->| ->]; lia.
Qed.

Lemma translate_effect_range (b2 b3 ord startRow row : Z) :
  0 <= b3 < 256 ->
  0 <= e_command (translate_effect b2 b3 ord startRow row) <= 0x14
  /\ 0 <= e_param (translate_effect b2 b3 ord startRow row) <= 0xFF.
Proof.
  intros Hb3. pose proof (low_nibble_range b3) as Hn.
  unfold translate_effect.
  command_cases b2; cbn [e_command e_param]; try lia.
  - destruct (negb _); lia.
  - destruct (Z.land b3 0xF0) as [|q|q]; cbn [e_command e_param]; try lia.
    do 9 (try destruct q as [q|q|]); cbn [e_command e_param]; lia.
Qed.

Lemma byte_at_range (fIn : list Z) (pos : Z) :
  Forall (fun b => 0 <= b < 256) fIn -> 0 <= byte_at fIn pos < 256.
Proof.
  intros Hall. unfold byte_at. destruct (pos <? 0); [lia|].
  rewrite nth_lookup. destruct (fIn !! Z.to_nat pos) as [b|] eqn:Hb; cbn; [|lia].
  exact (Forall_lookup_1 _ _ _ _ Hall Hb).
Qed.

Lemma flag_range (p : Z) : 0 <= p <= 0xFF -> is_count (Z.lor p 0x80).
Proof.
  intros Hp.
  pose proof (byte_cases (fun v => (0x80 <=? Z.lor v 0x80) && (Z.lor v 0x80 <=? 0xFF))
                ltac:(vm_compute; reflexivity) p ltac:(lia)) as H.
  cbn beta in H. apply andb_true_iff in H as [H1 H2]. unfold is_count. lia.
Qed.

Lemma stream_of_app (items1 items2 : list Item) :
  stream_of (items1 ++ items2) = stream_of items1 ++ stream_of items2.
Proof. unfold stream_of. rewrite map_app, concat_app. reflexivity. Qed.

Lemma well_formed_app (out : list Z) (it : Item) :
  well_formed out -> item_ok it -> well_formed (out ++ item_bytes it).
Proof.
  intros (items & -> & Hok) Hit. exists (items ++ [it]). split.
  - rewrite stream_of_app. unfold stream_of at 3. cbn. rewrite app_nil_r. reflexivity.
  - apply Forall_app. split; [exact Hok|]. constructor; [exact Hit|constructor].
Qed.

(** Overwriting a byte that has its top bit set by another such byte keeps
    the stream well-formed: the byte is a parameter or a count. *)
Lemma well_formed_alter (f : Z -> Z) (items : list Item) (k : nat) (v : Z) :
  Forall item_ok items -> stream_of items !! k = Some v ->
  0x80 <= v -> is_count (f v) ->
  well_formed (alter f k (stream_of items)).
Proof.
  unfold is_count. intros Hok. revert k.
  induction Hok as [|it items Hit Hok IH]; intros k Hk Hv Hf; [discriminate|].
  destruct it as [n i c p|v0]; cbn [item_ok] in Hit.
  - change (stream_of (Event n i c p :: items))
      with (n :: i :: c :: p :: stream_of items) in *.
    destruct k as [|[|[|[|k]]]]; cbn in Hk.
    + injection Hk as ->. lia.
    + injection Hk as ->. lia.
    + injection Hk as ->. lia.
    + injection Hk as ->. exists (Event n i c (f v) :: items).
      split; [reflexivity|]. constructor; [cbn; lia|exact Hok].
    + destruct (IH k Hk Hv Hf) as (items' & Heq & Hok').
      exists (Event n i c p :: items'). split.
      * change (stream_of (Event n i c p :: items'))
          with (n :: i :: c :: p :: stream_of items').
        rewrite <- Heq. reflexivity.
      * constructor; [exact Hit|exact Hok'].
  - change (stream_of (Count v0 :: items)) with (v0 :: stream_of items) in *.
    destruct k as [|k]; cbn in Hk.
    + injection Hk as ->. exists (Count (f v) :: items).
      split; [reflexivity|]. constructor; [exact Hf|exact Hok].
    + destruct (IH k Hk Hv Hf) as (items' & Heq & Hok').
      exists (Count v0 :: items'). split.
      * change (stream_of (Count v0 :: items')) with (v0 :: stream_of items').
        rewrite <- Heq. reflexivity.
      * constructor; [exact Hit|exact Hok'].
Qed.

(** The continuation flag lands on a parameter or on a count byte. *)
Lemma well_formed_flag_back (out : list Z) :
  well_formed out -> well_formed (flag_back out).
Proof.
  intros (items & -> & Hok).
  destruct items as [|it0 items0] using rev_ind; [exists []; split; [reflexivity|constructor]|].
  clear IHitems0. apply Forall_app in Hok as [Hok Hit].
  apply Forall_cons in Hit as [Hit _].
  rewrite stream_of_app. unfold flag_back.
  destruct it0 as [n i c p|v]; cbn [item_ok] in Hit;
    [change (stream_of [Event n i c p]) with [n; i; c; p]
    |change (stream_of [Count v]) with [v]];
    rewrite length_app; cbn [length].
  - replace (length (stream_of items0) + 4 - 1)%nat
      with (length (stream_of items0) + 3)%nat by lia.
    rewrite (alter_app_r (fun b => Z.lor b 0x80) (stream_of items0) [n; i; c; p] 3).
    apply (well_formed_app _ (Event n i c (Z.lor p 0x80)));
      [exists items0; split; [reflexivity|exact Hok]|].
    pose proof (flag_range p ltac:(lia)) as Hf. unfold is_count in Hf. cbn. lia.
  - replace (length (stream_of items0) + 1 - 1)%nat
      with (length (stream_of items0) + 0)%nat by lia.
    rewrite (alter_app_r (fun b => Z.lor b 0x80) (stream_of items0) [v] 0).
    apply (well_formed_app _ (Count (Z.lor v 0x80)));
      [exists items0; split; [reflexivity|exact Hok]|].
    cbn. rewrite (flag_count v Hit). exact Hit.
Qed.

(** Every step of the compressor keeps the stream well-formed. *)
Lemma emit_well_formed (cs : ChannelState) (out : list Z) (n i c p : Z) :
  run_ok out cs -> item_ok (Event n i c p) -> well_formed out ->
  well_formed (emit cs out n i c p).2.
Proof.
  intros Hrun Hev Hwf. unfold emit. cbn [command param repeatOffset].
  destruct (_ && _ && _ && _).
  - destruct (Nat.eqb_spec (repeatOffset cs) 0) as [Hz|Hnz]; cbn [negb andb].
    + cbn [snd]. apply (well_formed_app out (Count 0x80) Hwf). cbn. unfold is_count. lia.
    + destruct Hrun as [|(v & Hv & Hc)]; [contradiction|].
      rewrite nth_lookup, Hv. change (default 0 (Some v)) with v.
      destruct (Z.ltb_spec v 0xFF); cbn [snd].
      * destruct Hwf as (items & -> & Hok).
        apply (well_formed_alter incr_byte items (repeatOffset cs) v Hok Hv);
          unfold is_count, incr_byte in *; [lia|].
        rewrite Z.mod_small by lia. lia.
      * apply (well_formed_app out (Count 0x80) Hwf). cbn. unfold is_count. lia.
  - destruct (_ && _); cbn [snd].
    + apply well_formed_flag_back, Hwf.
    + apply (well_formed_app out (Event n i c p) Hwf Hev).
Qed.

Lemma parse_stream_of (items : list Item) :
  Forall item_ok items -> parse (stream_of items) = Some items.
Proof.
  induction 1 as [|it items Hit Hok IH]; [reflexivity|].
  destruct it as [n i c p|v]; cbn [item_ok] in Hit.
  - change (stream_of (Event n i c p :: items))
      with (n :: i :: c :: p :: stream_of items).
    cbn [parse]. destruct (Z.leb_spec 0x80 n); [lia|]. rewrite IH. reflexivity.
  - change (stream_of (Count v :: items)) with (v :: stream_of items).
    unfold is_count in Hit.
    cbn [parse]. destruct (Z.leb_spec 0x80 v); [|lia]. rewrite IH. reflexivity.
Qed.

(** X12.  On a file of bytes the music stream that the sequencer leaves is
    a sequence of items, each the four bytes of an event (a note from 0 to
    36, a sample number below 32, a command of the translator and a
    parameter byte that may carry the continuation flag) or one count byte
    from 0x80 to 0xFF.  No event starts with a byte that has its top bit
    set, so a reader that takes such a byte for a count recovers exactly
    these items. *)
Theorem stream_is_items (fIn : list Z) (modHeader : MODFileHeader.t)
  (numChannels : nat) (st : SeqState) :
  Forall (fun b => 0 <= b < 256) fIn ->
  sequence fIn modHeader numChannels = Some st ->
  exists items,
    musicData st = stream_of items
    /\ Forall item_ok items
    /\ parse (musicData st) = Some items.
Proof.
  intros Hbytes Hrun.
  assert (HP : well_formed (musicData st)
               /\ compressor_inv (channelState st, musicData st)).
  { apply (ord_loop_preserves fIn modHeader numChannels
             (fun chs out => well_formed out /\ compressor_inv (chs, out)))
      with (fuel := Z.to_nat (MODFileHeader.numOrders modHeader))
           (st := seq_init numChannels); [| |exact Hrun].
    - intros st0 chn [Hwf Hinv]. split.
      + rewrite cell_step_unfold. cbv zeta. cbn [musicData].
        apply emit_well_formed; [exact (run_ok_total _ chn Hinv)| |exact Hwf].
        pose proof (byte_at_range fIn (fpos st0) Hbytes).
        pose proof (byte_at_range fIn (fpos st0 + 2) Hbytes).
        pose proof (byte_at_range fIn (fpos st0 + 3) Hbytes) as H3.
        cbn [item_ok]. split; [apply period_to_note_range|].
        split; [apply cell_instr_range; assumption|].
        apply translate_effect_range, H3.
      + destruct (cell_step_mstep fIn st0 chn) as [ev ->]. apply mstep_inv, Hinv.
    - cbn [seq_init channelState musicData]. split.
      + exists []. split; [reflexivity|constructor].
      + split; cbn [fst snd].
        * intros k cs Hk. apply lookup_replicate in Hk as [-> _]. apply run_ok_default.
        * intros k1 k2 cs1 cs2 _ Hk _ Hnz.
          apply lookup_replicate in Hk as [-> _]. contradiction. }
  destruct HP as [(items & Heq & Hok) _]. exists items.
  split; [exact Heq|]. split; [exact Hok|].
  rewrite Heq. apply parse_stream_of, Hok.
Qed.

(** X12 on [flag_file]: the event of row 0 with its parameter flagged by
    row 1, the event of the empty row 2 and the count byte of rows 3 to
    63. *)
Lemma stream_is_items_witness :
  exists items,
    musicData flag_final = stream_of items
    /\ Forall item_ok items
    /\ parse (musicData flag_final) = Some items.
Proof.
  apply (stream_is_items flag_file flag_header 1 flag_final).
  - apply (bool_decide_unpack _). vm_compute. reflexivity.
  - vm_compute. reflexivity.
Defined.

(** ** Reading the source header *)

Lemma read_bytes_range (fIn : list Z) (pos : Z) (n : nat) :
  Forall (fun b => 0 <= b < 256) fIn ->
  Forall (fun b => 0 <= b < 256) (read_bytes fIn pos n).
Proof.
  intros Hall. unfold read_bytes. apply Forall_map, Forall_forall.
  intros k _. apply byte_at_range, Hall.
Qed.

Lemma read_uint16be (native : endian) (fIn : list Z) (pos : Z) :
  Forall (fun b => 0 <= b < 256) fIn ->
  read_packed native fIn endian_big uint16_t pos
  = be16 (byte_at fIn pos) (byte_at fIn (pos + 1)).
Proof.
  intros Hall. unfold read_packed.
  rewrite packed_read_decodes;
    [|apply read_bytes_length|apply read_bytes_range, Hall].
  pose proof (byte_at_range fIn pos Hall).
  pose proof (byte_at_range fIn (pos + 1) Hall).
  unfold read_bytes. cbn [seq map in_order rev app le_value sizeof].
  change (Z.of_nat 0) with 0. change (Z.of_nat 1) with 1.
  replace (pos + 0) with pos by lia.
  unfold convert, be16. cbn [is_signed andb].
  change (modulus uint16_t) with 65536. rewrite Z.mod_small; lia.
Qed.

Lemma read_uint8be (native : endian) (fIn : list Z) (pos : Z) :
  Forall (fun b => 0 <= b < 256) fIn ->
  read_packed native fIn endian_big uint8_t pos = byte_at fIn pos.
Proof.
  intros Hall. unfold read_packed.
  rewrite packed_read_decodes;
    [|apply read_bytes_length|apply read_bytes_range, Hall].
  pose proof (byte_at_range fIn pos Hall).
  unfold read_bytes. cbn [seq map in_order rev app le_value sizeof].
  change (Z.of_nat 0) with 0. replace (pos + 0) with pos by lia.
  unfold convert. cbn [is_signed andb].
  change (modulus uint8_t) with 256. rewrite Z.mod_small; lia.
Qed.

Lemma sample_at_read (native : endian) (fIn : list Z) (i : nat) :
  (i < 31)%nat ->
  sample_at (read_MODFileHeader native fIn) i
  = read_MODSampleHeader native fIn (20 + sizeof_MODSampleHeader * Z.of_nat i).
Proof.
  intros Hi. unfold sample_at, read_MODFileHeader. cbn [MODFileHeader.sample].
  rewrite nth_lookup, list_lookup_fmap, lookup_seq_lt by exact Hi. reflexivity.
Qed.

(** X13.  The header that [main] works on, read from a file of bytes:
    the order count and the restart position are bytes 950 and 951, the
    order list is the 128 bytes from 952 on, the signature the 4 bytes
    from 1080 on, and slot [i] lies at byte [20 + 30 * i] with its length,
    loop start and loop length spelt most significant byte first.  This
    holds on a host of either byte order. *)
Theorem read_header_fields (native : endian) (fIn : list Z) :
  Forall (fun b => 0 <= b < 256) fIn ->
  let modHeader := read_MODFileHeader native fIn in
  MODFileHeader.name modHeader = read_bytes fIn 0 20
  /\ MODFileHeader.magic modHeader = read_bytes fIn 1080 4
  /\ MODFileHeader.numOrders modHeader = byte_at fIn 950
  /\ MODFileHeader.restartPos modHeader = byte_at fIn 951
  /\ length (MODFileHeader.orderList modHeader) = 128%nat
  /\ (forall ord, (ord < 128)%nat ->
        order_entry (MODFileHeader.orderList modHeader) ord
        = byte_at fIn (952 + Z.of_nat ord))
  /\ length (MODFileHeader.sample modHeader) = 31%nat
  /\ (forall i, (i < 31)%nat -> slot_fields fIn i (sample_at modHeader i)).
Proof.
  intros Hall. cbv zeta.
  split; [reflexivity|]. split; [reflexivity|].
  split; [apply read_uint8be, Hall|]. split; [apply read_uint8be, Hall|].
  split; [cbn [read_MODFileHeader MODFileHeader.orderList];
          rewrite length_map, length_seq; reflexivity|].
  split.
  { intros ord Hord. unfold order_entry, read_MODFileHeader.
    cbn [MODFileHeader.orderList].
    rewrite nth_lookup, list_lookup_fmap, lookup_seq_lt by exact Hord.
    cbn. apply read_uint8be, Hall. }
  split; [cbn [read_MODFileHeader MODFileHeader.sample];
          rewrite length_map, length_seq; reflexivity|].
  intros i Hi. rewrite sample_at_read by exact Hi.
  unfold slot_fields, read_MODSampleHeader, sizeof_MODSampleHeader. cbv zeta.
  cbn [MODSampleHeader.name MODSampleHeader.length MODSampleHeader.finetune
       MODSampleHeader.volume MODSampleHeader.loopStart MODSampleHeader.loopLength].
  rewrite !read_uint16be, !read_uint8be by exact Hall.
  change (22 + 2 + 1 + 1 + 2 + 2) with 30.
  replace (20 + 30 * Z.of_nat i + 22 + 1) with (20 + 30 * Z.of_nat i + 23) by lia.
  replace (20 + 30 * Z.of_nat i + 26 + 1) with (20 + 30 * Z.of_nat i + 27) by lia.
  replace (20 + 30 * Z.of_nat i + 28 + 1) with (20 + 30 * Z.of_nat i + 29) by lia.
  repeat split; reflexivity.
Qed.

(** X13 on [skip_mod], read on a little-endian host. *)
Lemma read_header_fields_witness :
  let modHeader := read_MODFileHeader endian_little skip_mod in
  MODFileHeader.name modHeader = read_bytes skip_mod 0 20
  /\ MODFileHeader.magic modHeader = read_bytes skip_mod 1080 4
  /\ MODFileHeader.numOrders modHeader = byte_at skip_mod 950
  /\ MODFileHeader.restartPos modHeader = byte_at skip_mod 951
  /\ length (MODFileHeader.orderList modHeader) = 128%nat
  /\ (forall ord, (ord < 128)%nat ->
        order_entry (MODFileHeader.orderList modHeader) ord
        = byte_at skip_mod (952 + Z.of_nat ord))
  /\ length (MODFileHeader.sample modHeader) = 31%nat
  /\ (forall i, (i < 31)%nat -> slot_fields skip_mod i (sample_at modHeader i)).
Proof.
  apply (read_header_fields endian_little skip_mod).
  apply (bool_decide_unpack _). vm_compute. reflexivity.
Defined.

(** Reading the bytes of [skip_header] gives [skip_header] back, on either
    host. *)
Lemma read_skip_header :
  read_MODFileHeader endian_little skip_mod = skip_header
  /\ read_MODFileHeader endian_big skip_mod = skip_header.
Proof. split; vm_compute; reflexivity. Qed.

(** ** The output file as a list of chunks *)

Lemma SampleName_length (index : Z) (modName : list Z) :
  length (SampleName index modName) = 32%nat.
Proof. unfold SampleName. apply resize_length. Qed.

Lemma packed_assign_length (endianness native : endian) (T : int_type) (value : Z) :
  length (packed_assign endianness native T value) = sizeof T.
Proof. rewrite packed_assign_bytes. apply encode_length. Qed.

Lemma packed_read_in_range (endianness native : endian) (T : int_type)
  (m_value : list Z) :
  in_range T (packed_read endianness native T m_value).
Proof.
  unfold packed_read, object_value.
  destruct (negb _); apply convert_in_range.
Qed.

Lemma read_packed_uint16 (native : endian) (fIn : list Z) (pos : Z) :
  is_uint16 (read_packed native fIn endian_big uint16_t pos).
Proof. exact (packed_read_in_range endian_big native uint16_t _). Qed.

(** The 16-bit fields of every slot of a header read from a file. *)
Lemma read_sample_uint16 (native : endian) (fIn : list Z) (i : nat) :
  let modSample := sample_at (read_MODFileHeader native fIn) i in
  is_uint16 (MODSampleHeader.length modSample)
  /\ is_uint16 (MODSampleHeader.loopStart modSample)
  /\ is_uint16 (MODSampleHeader.loopLength modSample).
Proof.
  cbv zeta. destruct (Nat.lt_ge_cases i 31) as [Hi|Hi].
  - rewrite sample_at_read by exact Hi.
    cbn [read_MODSampleHeader MODSampleHeader.length MODSampleHeader.loopStart
         MODSampleHeader.loopLength].
    repeat split; apply read_packed_uint16.
  - unfold sample_at. rewrite nth_overflow.
    + cbn. unfold is_uint16. lia.
    + cbn [read_MODFileHeader MODFileHeader.sample].
      rewrite length_map, length_seq. exact Hi.
Qed.

(** The sizes of a sample chunk for 16-bit source fields. *)
Lemma sample_header_sizes (i : nat) (modSample : MODSampleHeader.t) :
  is_uint16 (MODSampleHeader.length modSample) ->
  is_uint16 (MODSampleHeader.loopStart modSample) ->
  is_uint16 (MODSampleHeader.loopLength modSample) ->
  0 <= KMSampleHeader.sampleSize (sample_header i modSample) <= 4 * 65535
  /\ KMSampleHeader.chunkSize (sample_header i modSample)
     = 48 + KMSampleHeader.sampleSize (sample_header i modSample)
  /\ KMSampleHeader.id (sample_header i modSample) = tag_SMPL
  /\ length (KMSampleHeader.name (sample_header i modSample)) = 32%nat.
Proof.
  unfold is_uint16. intros Hlen Hstart Hloop. unfold sample_header.
  destruct (_ && _ && _);
    cbn [KMSampleHeader.id KMSampleHeader.name KMSampleHeader.chunkSize
         KMSampleHeader.loopStart KMSampleHeader.sampleSize];
    unfold to_uint32, sizeof_KMSampleHeader;
    repeat match goal with
      | |- context [?a mod 2 ^ 32] => rewrite (Z.mod_small a (2 ^ 32)) by lia
      end;
    (split; [lia|]); (split; [lia|]); (split; [reflexivity|]);
    apply SampleName_length.
Qed.

Lemma concat_length_const {A : Type} (w : nat) (ls : list (list A)) :
  Forall (fun l => length l = w) ls -> length (concat ls) = (w * length ls)%nat.
Proof.
  induction 1 as [|l ls Hl Hls IH]; cbn [concat length]; [lia|].
  rewrite length_app, IH, Hl. lia.
Qed.

Lemma KMSampleReference_bytes_length (native : endian) (i : nat)
  (modSample : MODSampleHeader.t) :
  length (KMSampleReference_bytes native (sample_reference i modSample)) = 34%nat.
Proof.
  unfold KMSampleReference_bytes.
  rewrite !length_app, !packed_assign_length. cbn [sizeof].
  unfold sample_reference. destruct (_ <? 2); cbn [KMSampleReference.name].
  - rewrite length_replicate. reflexivity.
  - rewrite SampleName_length. reflexivity.
Qed.

Lemma KMSongHeader_bytes_length (native : endian) (modHeader : MODFileHeader.t)
  (numChannels : nat) (st : SeqState) :
  length (KMSongHeader_bytes native (song_header modHeader numChannels st)) = 1108%nat.
Proof.
  unfold KMSongHeader_bytes, song_header.
  cbn [KMSongHeader.id KMSongHeader.chunkSize KMSongHeader.name KMSongHeader.sample
       KMSongHeader.unknown KMSongHeader.numChannels KMSongHeader.restartPos
       KMSongHeader.musicSize].
  rewrite !length_app, !packed_assign_length. cbn [sizeof].
  rewrite (concat_length_const 34).
  - rewrite !length_map, length_seq. unfold song_name.
    rewrite length_map, resize_length. reflexivity.
  - rewrite map_map. apply Forall_map, Forall_forall. intros i _.
    apply KMSampleReference_bytes_length.
Qed.

(** The size that a record declares after its 4-byte id. *)
Lemma declared_size_field (native : endian) (id rest : list Z) (size : Z) :
  length id = 4%nat ->
  declared_size (id ++ packed_assign endian_little native uint32_t size ++ rest)
  = size mod 2 ^ 32.
Proof.
  intros Hid. unfold declared_size.
  rewrite drop_app_length' by (symmetry; exact Hid).
  rewrite take_app_length' by (rewrite packed_assign_length; reflexivity).
  rewrite packed_assign_bytes. unfold encode. cbn [in_order sizeof].
  rewrite le_value_le_bytes. change (modulus uint32_t) with (2 ^ 32).
  change (2 ^ (8 * Z.of_nat 4)) with (2 ^ 32).
  apply Z.mod_mod. discriminate.
Qed.

Lemma declared_size_app (chunk rest : list Z) :
  (8 <= length chunk)%nat -> declared_size (chunk ++ rest) = declared_size chunk.
Proof.
  intros Hlen. unfold declared_size.
  rewrite drop_app_le by lia. rewrite take_app_le; [reflexivity|].
  rewrite length_drop. lia.
Qed.

(** The reader recovers the chunks of a file made of well-formed chunks. *)
Lemma read_chunks_concat (chunks : list (list Z)) (fuel : nat) :
  Forall chunk_ok chunks -> (length chunks <= fuel)%nat ->
  read_chunks fuel (concat chunks) = Some chunks.
Proof.
  intros Hok. revert fuel.
  induction Hok as [|chunk chunks [Hlen Hsize] Hok IH]; intros fuel Hfuel;
    [destruct fuel; reflexivity|].
  cbn [concat length] in *.
  destruct fuel as [|fuel]; [lia|].
  destruct (chunk ++ concat chunks) as [|b bytes] eqn:Hbytes.
  { apply (f_equal length) in Hbytes. rewrite length_app in Hbytes. cbn in Hbytes. lia. }
  rewrite <- Hbytes. clear b bytes Hbytes. cbn [read_chunks].
  assert (Hnil : exists b bytes, chunk ++ concat chunks = b :: bytes).
  { destruct chunk as [|b chunk']; [cbn in Hlen; lia|]. cbn. eauto. }
  destruct Hnil as (b & bytes & Hbytes).
  rewrite Hbytes. cbn [read_chunks]. rewrite <- Hbytes.
  rewrite declared_size_app by exact Hlen. rewrite Hsize, Nat2Z.id.
  destruct (Nat.leb_spec 8 (length chunk)); [|lia].
  destruct (Nat.leb_spec (length chunk) (length (chunk ++ concat chunks)));
    [|rewrite length_app in *; lia].
  cbn [andb]. rewrite take_app_length, drop_app_length, IH by lia. reflexivity.
Qed.

Lemma chunks_count (chunks : list (list Z)) :
  Forall chunk_ok chunks -> (length chunks <= length (concat chunks))%nat.
Proof.
  induction 1 as [|chunk chunks [Hlen _] Hok IH]; cbn [concat length]; [lia|].
  rewrite length_app. lia.
Qed.

(** What [main] has written when it returns 0. *)
Lemma main_output (fIn : list Z) (modHeader : MODFileHeader.t) (fOut : list Written) :
  main fIn modHeader = Some (0, fOut) ->
  let numChannels := identify (MODFileHeader.magic modHeader) 0 magics in
  exists st,
    sequence fIn modHeader numChannels = Some st
    /\ Z.of_nat (length (musicData st)) <= 131072
    /\ fOut = [WSong (song_header modHeader numChannels st); WData (musicData st)]
              ++ concat (map (sample_chunk fIn modHeader numChannels) (seq 0 31)).
Proof.
  intros Hmain. cbv zeta.
  destruct (main_exit_0 fIn modHeader fOut Hmain) as [Hch Hord].
  pose proof (identify_range (MODFileHeader.magic modHeader)) as Hch4.
  destruct (sequence_run fIn modHeader
              (identify (MODFileHeader.magic modHeader) 0 magics))
    as (st & Hrun & _ & _ & Hsteps & Hlen & _).
  exists st. split; [exact Hrun|]. split.
  { apply Nat2Z.inj_le in Hsteps. rewrite !Nat2Z.inj_mul in Hsteps.
    change (Z.of_nat 64) with 64 in Hsteps.
    assert (Ho : 0 <= Z.of_nat (Z.to_nat (MODFileHeader.numOrders modHeader)) <= 128)
      by lia.
    assert (Hc : 0 <= Z.of_nat (identify (MODFileHeader.magic modHeader) 0 magics) <= 4)
      by lia.
    assert (Hs : Z.of_nat (steps st) <= 64 * 4 * 128) by nia.
    lia. }
  unfold main in Hmain.
  destruct (Nat.eqb_spec (identify (MODFileHeader.magic modHeader) 0 magics) 0);
    [contradiction|].
  destruct (Z.gtb_spec (MODFileHeader.numOrders modHeader) 128); [lia|].
  rewrite Hrun in Hmain. cbv zeta in Hmain.
  remember (write_samples fIn modHeader _ _) as w eqn:Hw in Hmain.
  injection Hmain as <-. rewrite Hw. clear w Hw.
  unfold write_samples.
  change (sample_data_start modHeader (identify (MODFileHeader.magic modHeader) 0 magics))
    with (sample_pos modHeader (identify (MODFileHeader.magic modHeader) 0 magics) 0).
  rewrite sample_steps_from. reflexivity.
Qed.

(** The bytes that the sample loop writes for the slots of a list are the
    chunks of those of them that are written. *)
Lemma sample_chunks_bytes (native : endian) (fIn : list Z)
  (modHeader : MODFileHeader.t) (numChannels : nat) (slots : list nat) :
  file_bytes native (concat (map (sample_chunk fIn modHeader numChannels) slots))
  = concat (map (fun i => file_bytes native (sample_chunk fIn modHeader numChannels i))
              (List.filter
                 (fun i => 2 <=? MODSampleHeader.length (sample_at modHeader i)) slots)).
Proof.
  unfold file_bytes.
  induction slots as [|i slots IH]; [reflexivity|].
  cbn [map concat List.filter]. rewrite map_app, concat_app, IH.
  unfold sample_chunk at 1.
  destruct (Z.ltb_spec (MODSampleHeader.length (sample_at modHeader i)) 2) as [Hlt|Hge];
    destruct (Z.leb_spec 2 (MODSampleHeader.length (sample_at modHeader i))); try lia.
  - reflexivity.
  - cbn [map concat]. unfold sample_chunk at 2.
    destruct (Z.ltb_spec (MODSampleHeader.length (sample_at modHeader i)) 2); [lia|].
    reflexivity.
Qed.

(** The chunk of a written slot of a header read from a file. *)
Lemma sample_chunk_ok (native : endian) (fIn : list Z) (numChannels : nat) (i : nat) :
  let modHeader := read_MODFileHeader native fIn in
  2 <= MODSampleHeader.length (sample_at modHeader i) ->
  chunk_ok (file_bytes native (sample_chunk fIn modHeader numChannels i))
  /\ take 4 (file_bytes native (sample_chunk fIn modHeader numChannels i)) = tag_SMPL.
Proof.
  cbv zeta. intros Hlen.
  destruct (read_sample_uint16 native fIn i) as (H1 & H2 & H3).
  destruct (sample_header_sizes i _ H1 H2 H3) as (Hsize & Hchunk & Hid & Hname).
  unfold sample_chunk.
  destruct (Z.ltb_spec (MODSampleHeader.length
                          (sample_at (read_MODFileHeader native fIn) i)) 2); [lia|].
  unfold file_bytes. cbn [map concat written_bytes]. rewrite app_nil_r.
  unfold KMSampleHeader_bytes. rewrite Hid.
  split; [split|].
  - rewrite !length_app. cbn [length tag_SMPL]. lia.
  - rewrite <- !app_assoc.
    rewrite declared_size_field by reflexivity.
    rewrite !length_app, !packed_assign_length, read_bytes_length, Hname, Hchunk.
    cbn [sizeof length tag_SMPL]. rewrite Z.mod_small by lia. lia.
  - reflexivity.
Qed.

(** The song chunk. *)
Lemma song_chunk_ok (native : endian) (modHeader : MODFileHeader.t)
  (numChannels : nat) (st : SeqState) :
  Z.of_nat (length (musicData st)) <= 131072 ->
  chunk_ok (KMSongHeader_bytes native (song_header modHeader numChannels st)
            ++ musicData st)
  /\ take 4 (KMSongHeader_bytes native (song_header modHeader numChannels st)
             ++ musicData st) = tag_SONG.
Proof.
  intros Hlen.
  pose proof (KMSongHeader_bytes_length native modHeader numChannels st) as Hhdr.
  split; [split|].
  - rewrite length_app. lia.
  - rewrite length_app, Hhdr.
    unfold KMSongHeader_bytes. rewrite <- !app_assoc.
    cbn [song_header KMSongHeader.id KMSongHeader.chunkSize].
    rewrite declared_size_field by reflexivity.
    unfold to_uint32, sizeof_KMSongHeader.
    rewrite Z.mod_mod by discriminate. rewrite Z.mod_small by lia. lia.
  - unfold KMSongHeader_bytes. rewrite <- !app_assoc.
    cbn [song_header KMSongHeader.id].
    apply take_app_length'. reflexivity.
Qed.

(** The bytes of what [main] writes, chunk by chunk. *)
Lemma output_bytes_split (native : endian) (fIn : list Z)
  (modHeader : MODFileHeader.t) (numChannels : nat) (st : SeqState) :
  file_bytes native
    ([WSong (song_header modHeader numChannels st); WData (musicData st)]
     ++ concat (map (sample_chunk fIn modHeader numChannels) (seq 0 31)))
  = (KMSongHeader_bytes native (song_header modHeader numChannels st)
     ++ musicData st)
    ++ concat (map (fun i => file_bytes native
                               (sample_chunk fIn modHeader numChannels i))
                 (written_slots modHeader)).
Proof.
  unfold file_bytes at 1. rewrite map_app, concat_app.
  fold (file_bytes native
          (concat (map (sample_chunk fIn modHeader numChannels) (seq 0 31)))).
  rewrite sample_chunks_bytes. cbn [map concat written_bytes].
  rewrite app_nil_r. unfold written_slots. reflexivity.
Qed.

(** The slots that are written declare a length of 2 or more. *)
Lemma written_slots_length (modHeader : MODFileHeader.t) (i : nat) :
  In i (written_slots modHeader) ->
  2 <= MODSampleHeader.length (sample_at modHeader i).
Proof.
  unfold written_slots. intros Hi. apply filter_In in Hi as [_ Hi].
  apply Z.leb_le, Hi.
Qed.

(** The chunks of the written slots of a header read from a file. *)
Lemma sample_chunks_ok (native : endian) (fIn : list Z) (numChannels : nat) :
  Forall (fun chunk => chunk_ok chunk /\ take 4 chunk = tag_SMPL)
    (map (fun i => file_bytes native
            (sample_chunk fIn (read_MODFileHeader native fIn) numChannels i))
       (written_slots (read_MODFileHeader native fIn))).
Proof.
  apply Forall_map, Forall_forall. intros i Hi. cbv beta.
  apply list_elem_of_In, written_slots_length in Hi.
  exact (sample_chunk_ok native fIn numChannels i Hi).
Qed.

(** A song chunk followed by sample chunks is read back chunk by chunk. *)
Lemma chunks_read (song : list Z) (samples : list (list Z)) :
  chunk_ok song ->
  Forall (fun chunk => chunk_ok chunk /\ take 4 chunk = tag_SMPL) samples ->
  read_chunks (length (song ++ concat samples)) (song ++ concat samples)
  = Some (song :: samples)
  /\ Forall chunk_ok (song :: samples)
  /\ Forall (fun chunk => take 4 chunk = tag_SMPL) samples.
Proof.
  intros Hsong Hsamples.
  assert (Hall : Forall chunk_ok (song :: samples)).
  { constructor; [exact Hsong|]. eapply Forall_impl; [exact Hsamples|].
    intros chunk H. apply H. }
  change (song ++ concat samples) with (concat (song :: samples)).
  split; [apply read_chunks_concat; [exact Hall|apply chunks_count, Hall]|].
  split; [exact Hall|].
  eapply Forall_impl; [exact Hsamples|]; intros chunk H; apply H.
Qed.

(** X14.  When the conversion of a file returns 0, the bytes of the output
    file are a sequence of chunks that each declare their own length: one
    SONG chunk, made of the 1108-byte song header and the music stream,
    and one SMPL chunk, with a 48-byte header, for every slot of declared
    length 2 or more.  A reader that walks the file by the declared sizes
    finds exactly these chunks and ends at the end of the file, on a
    host of either byte order. *)
Theorem output_is_chunked (native : endian) (fIn : list Z) (fOut : list Written) :
  main_file native fIn = Some (0, fOut) ->
  exists song samples,
    file_bytes native fOut = song ++ concat samples
    /\ read_chunks (length (file_bytes native fOut)) (file_bytes native fOut)
       = Some (song :: samples)
    /\ Forall chunk_ok (song :: samples)
    /\ take 4 song = tag_SONG
    /\ Forall (fun chunk => take 4 chunk = tag_SMPL) samples
    /\ length samples = length (written_slots (read_MODFileHeader native fIn)).
Proof.
  unfold main_file. intros Hmain.
  destruct (main_output fIn _ fOut Hmain) as (st & Hrun & Hlen & Hout).
  destruct (song_chunk_ok native (read_MODFileHeader native fIn)
              (identify (MODFileHeader.magic (read_MODFileHeader native fIn)) 0 magics)
              st Hlen) as [Hsong Hid].
  pose proof (sample_chunks_ok native fIn
     (identify (MODFileHeader.magic (read_MODFileHeader native fIn)) 0 magics))
    as Hsamples.
  destruct (chunks_read _ _ Hsong Hsamples) as (Hread & Hall & Hids).
  pose proof (output_bytes_split native fIn (read_MODFileHeader native fIn)
     (identify (MODFileHeader.magic (read_MODFileHeader native fIn)) 0 magics) st)
    as Hbytes.
  rewrite <- Hout in Hbytes. rewrite <- Hbytes in Hread.
  eexists _, _. split; [exact Hbytes|]. split; [exact Hread|].
  split; [exact Hall|]. split; [exact Hid|]. split; [exact Hids|].
  apply length_map.
Qed.

(** X14 on [skip_mod]: the song chunk, and one sample chunk for slot 2;
    slot 1, of declared length 1, is not written. *)
Lemma output_is_chunked_witness :
  exists song samples,
    file_bytes endian_little skip_output = song ++ concat samples
    /\ read_chunks (length (file_bytes endian_little skip_output))
         (file_bytes endian_little skip_output)
       = Some (song :: samples)
    /\ Forall chunk_ok (song :: samples)
    /\ take 4 song = tag_SONG
    /\ Forall (fun chunk => take 4 chunk = tag_SMPL) samples
    /\ length samples = length (written_slots (read_MODFileHeader endian_little skip_mod)).
Proof.
  apply (output_is_chunked endian_little skip_mod skip_output).
  vm_compute. reflexivity.
Defined.

(** ** The restart offset *)

Lemma well_formed_nil : well_formed [].
Proof. exists []. split; [reflexivity|constructor]. Qed.

Lemma well_formed_concat (s1 s2 : list Z) :
  well_formed s1 -> well_formed s2 -> well_formed (s1 ++ s2).
Proof.
  intros (i1 & -> & H1) (i2 & -> & H2). exists (i1 ++ i2).
  split; [symmetry; apply stream_of_app|]. apply Forall_app. split; assumption.
Qed.

Lemma flag_back_app (s1 s2 : list Z) :
  s2 <> [] -> flag_back (s1 ++ s2) = s1 ++ flag_back s2.
Proof.
  intros Hne. unfold flag_back.
  assert (0 < length s2)%nat by (destruct s2; [contradiction|cbn; lia]).
  rewrite alter_app_r_alt by (rewrite length_app; lia).
  rewrite length_app. do 2 f_equal. lia.
Qed.

Lemma item_boundary_app (out : list Z) (k : nat) (it : Item) :
  item_boundary out k -> item_ok it -> item_boundary (out ++ item_bytes it) k.
Proof.
  intros (s1 & s2 & -> & Hk & H1 & H2) Hit.
  exists s1, (s2 ++ item_bytes it). rewrite <- app_assoc.
  split; [reflexivity|]. split; [exact Hk|]. split; [exact H1|].
  apply well_formed_app; assumption.
Qed.

Lemma item_boundary_alter (f : Z -> Z) (out : list Z) (k j : nat) (v : Z) :
  item_boundary out k -> out !! j = Some v -> 0x80 <= v -> is_count (f v) ->
  item_boundary (alter f j out) k.
Proof.
  intros (s1 & s2 & -> & Hk & (i1 & -> & H1) & (i2 & -> & H2)) Hj Hv Hf.
  rewrite alter_app. destruct (decide (j < length (stream_of i1))%nat) as [Hlt|Hge].
  - rewrite lookup_app_l in Hj by exact Hlt.
    exists (alter f j (stream_of i1)), (stream_of i2).
    split; [reflexivity|]. split; [rewrite length_alter; exact Hk|].
    split; [exact (well_formed_alter f i1 j v H1 Hj Hv Hf)|].
    exists i2. split; [reflexivity|exact H2].
  - rewrite lookup_app_r in Hj by lia.
    exists (stream_of i1), (alter f (j - length (stream_of i1))%nat (stream_of i2)).
    split; [reflexivity|]. split; [exact Hk|].
    split; [exists i1; split; [reflexivity|exact H1]|].
    exact (well_formed_alter f i2 _ v H2 Hj Hv Hf).
Qed.

Lemma item_boundary_flag_back (out : list Z) (k : nat) :
  item_boundary out k -> item_boundary (flag_back out) k.
Proof.
  intros (s1 & s2 & -> & Hk & H1 & H2).
  destruct s2 as [|b s2].
  - rewrite app_nil_r. exists (flag_back s1), [].
    rewrite app_nil_r. split; [reflexivity|].
    split; [rewrite flag_back_length; exact Hk|].
    split; [apply well_formed_flag_back, H1|apply well_formed_nil].
  - rewrite flag_back_app by discriminate.
    exists s1, (flag_back (b :: s2)).
    split; [reflexivity|]. split; [exact Hk|]. split; [exact H1|].
    apply well_formed_flag_back, H2.
Qed.

(** Every step of the compressor keeps the boundaries of the stream. *)
Lemma emit_item_boundary (cs : ChannelState) (out : list Z) (n i c p : Z) (k : nat) :
  run_ok out cs -> item_ok (Event n i c p) -> item_boundary out k ->
  item_boundary (emit cs out n i c p).2 k.
Proof.
  intros Hrun Hev Hb. unfold emit. cbn [command param repeatOffset].
  destruct (_ && _ && _ && _).
  - destruct (Nat.eqb_spec (repeatOffset cs) 0) as [Hz|Hnz]; cbn [negb andb].
    + cbn [snd]. apply (item_boundary_app out k (Count 0x80) Hb).
      cbn. unfold is_count. lia.
    + destruct Hrun as [|(v & Hv & Hc)]; [contradiction|].
      rewrite nth_lookup, Hv. change (default 0 (Some v)) with v.
      destruct (Z.ltb_spec v 0xFF); cbn [snd].
      * apply (item_boundary_alter incr_byte out k (repeatOffset cs) v Hb Hv);
          unfold is_count, incr_byte in *; [lia|].
        rewrite Z.mod_small by lia. lia.
      * apply (item_boundary_app out k (Count 0x80) Hb). cbn. unfold is_count. lia.
  - destruct (_ && _); cbn [snd].
    + apply item_boundary_flag_back, Hb.
    + apply (item_boundary_app out k (Event n i c p) Hb Hev).
Qed.

Section RestartBoundary.

Variable fIn : list Z.
Variable modHeader : MODFileHeader.t.
Variable numChannels : nat.

Hypothesis fIn_bytes : Forall (fun b => 0 <= b < 256) fIn.

Lemma cell_step_boundary (k : nat) (st : SeqState) (chn : nat) :
  item_boundary (musicData st) k /\ compressor_inv (channelState st, musicData st) ->
  item_boundary (musicData (cell_step fIn st chn)) k
  /\ compressor_inv (channelState (cell_step fIn st chn),
                     musicData (cell_step fIn st chn)).
Proof.
  intros [Hb Hinv]. split.
  - rewrite cell_step_unfold. cbv zeta. cbn [musicData].
    apply emit_item_boundary; [exact (run_ok_total _ chn Hinv)| |exact Hb].
    pose proof (byte_at_range fIn (fpos st) fIn_bytes).
    pose proof (byte_at_range fIn (fpos st + 2) fIn_bytes).
    pose proof (byte_at_range fIn (fpos st + 3) fIn_bytes) as H3.
    cbn [item_ok]. split; [apply period_to_note_range|].
    split; [apply cell_instr_range; assumption|].
    apply translate_effect_range, H3.
  - destruct (cell_step_mstep fIn st chn) as [ev ->]. apply mstep_inv, Hinv.
Qed.

Lemma row_loop_restart_inv (st st' : SeqState) :
  restart_inv st -> row_loop fIn numChannels 64 st = Some st' -> restart_inv st'.
Proof.
  intros [(k & Hk & Hb) Hinv] Hrun.
  destruct (row_loop_cells fIn numChannels 64 st st' Hrun)
    as (n & _ & _ & _ & _ & Hr & _).
  destruct (row_loop_preserves fIn numChannels
              (fun chs out => item_boundary out k /\ compressor_inv (chs, out))
              (cell_step_boundary k) 64 st st' (conj Hb Hinv) Hrun) as [Hb' Hinv'].
  split; [|exact Hinv']. exists k. rewrite Hr. split; assumption.
Qed.

Lemma ord_begin_restart_inv (st : SeqState) :
  restart_inv st -> restart_inv (ord_begin modHeader numChannels st).
Proof.
  intros [(k & Hk & Hb) Hinv].
  destruct (ord_begin_frame modHeader numChannels st)
    as (_ & _ & _ & Hm & _ & Hc & _ & Hr & _).
  cbv zeta in Hr. unfold restart_inv. rewrite Hm, Hc, Hr.
  split; [|exact Hinv].
  destruct (MODFileHeader.restartPos modHeader =? ord st).
  - exists (length (musicData st)). split; [reflexivity|].
    destruct Hb as (s1 & s2 & Heq & _ & H1 & H2).
    exists (musicData st), []. rewrite app_nil_r.
    split; [reflexivity|]. split; [reflexivity|].
    split; [rewrite Heq; apply well_formed_concat; assumption|apply well_formed_nil].
  - exists k. split; assumption.
Qed.

Lemma ord_loop_restart_inv (fuel : nat) (st st' : SeqState) :
  restart_inv st -> ord_loop fIn modHeader numChannels fuel st = Some st' ->
  restart_inv st'.
Proof.
  revert st. induction fuel as [|fuel IH]; intros st Hinv Hrun; cbn [ord_loop] in Hrun.
  - destruct (ord st <? _); [discriminate|]. injection Hrun as <-. exact Hinv.
  - destruct (ord st <? _).
    + destruct (row_loop fIn numChannels 64 (ord_begin modHeader numChannels st))
        as [st1|] eqn:Hrow; [|discriminate].
      apply (IH (next_ord st1)); [|exact Hrun].
      exact (row_loop_restart_inv _ st1 (ord_begin_restart_inv st Hinv) Hrow).
    + injection Hrun as <-. exact Hinv.
Qed.

Lemma seq_init_restart_inv : restart_inv (seq_init numChannels).
Proof.
  split.
  - exists 0%nat. split; [reflexivity|].
    exists [], []. repeat split; try reflexivity; apply well_formed_nil.
  - cbn [seq_init channelState musicData]. split; cbn [fst snd].
    + intros k cs Hk. apply lookup_replicate in Hk as [-> _]. apply run_ok_default.
    + intros k1 k2 cs1 cs2 _ Hk _ Hnz.
      apply lookup_replicate in Hk as [-> _]. contradiction.
Qed.

End RestartBoundary.

(** X15.  On a file of bytes the restart offset of the song header is the
    length of a prefix of the final music stream that is itself a sequence
    of items, and so is the rest of the stream: the offset points at the
    first byte of an item or at the end of the stream, also after later
    cells have flagged or incremented bytes before it.  The offset is held
    as a 32-bit number; for a stream below 4 GiB it does not exceed the
    length of the stream. *)
Theorem restart_offset_at_item (fIn : list Z) (modHeader : MODFileHeader.t)
  (numChannels : nat) (st : SeqState) :
  Forall (fun b => 0 <= b < 256) fIn ->
  sequence fIn modHeader numChannels = Some st ->
  exists before after,
    musicData st = stream_of before ++ stream_of after
    /\ Forall item_ok before /\ Forall item_ok after
    /\ kmRestartPos st = to_uint32 (Z.of_nat (length (stream_of before)))
    /\ (Z.of_nat (length (musicData st)) < 2 ^ 32 ->
        KMSongHeader.restartPos (song_header modHeader numChannels st)
        = Z.of_nat (length (stream_of before))
        /\ KMSongHeader.restartPos (song_header modHeader numChannels st)
           <= KMSongHeader.musicSize (song_header modHeader numChannels st)).
Proof.
  intros Hbytes Hrun.
  destruct (ord_loop_restart_inv fIn modHeader numChannels Hbytes _ _ st
              (seq_init_restart_inv numChannels) Hrun)
    as [(k & Hk & s1 & s2 & Heq & Hlen & (i1 & -> & H1) & (i2 & -> & H2)) _].
  exists i1, i2. subst k.
  split; [exact Heq|]. split; [exact H1|]. split; [exact H2|].
  split; [exact Hk|].
  intros Hsmall. cbn [song_header KMSongHeader.restartPos KMSongHeader.musicSize].
  rewrite Hk. unfold to_uint32. rewrite Heq, length_app in *.
  rewrite !Z.mod_small by lia. lia.
Qed.

(** X15 on [flag_file] played as two orders with restart position 1: the
    9 bytes of the first order are three items. *)
Lemma restart_offset_at_item_witness :
  exists before after,
    musicData restart_final = stream_of before ++ stream_of after
    /\ Forall item_ok before /\ Forall item_ok after
    /\ kmRestartPos restart_final = to_uint32 (Z.of_nat (length (stream_of before)))
    /\ (Z.of_nat (length (musicData restart_final)) < 2 ^ 32 ->
        KMSongHeader.restartPos (song_header restart_header 1 restart_final)
        = Z.of_nat (length (stream_of before))
        /\ KMSongHeader.restartPos (song_header restart_header 1 restart_final)
           <= KMSongHeader.musicSize (song_header restart_header 1 restart_final)).
Proof.
  apply (restart_offset_at_item flag_file restart_header 1 restart_final).
  - apply (bool_decide_unpack _). vm_compute. reflexivity.
  - vm_compute. reflexivity.
Defined.

(** ** Where the sequencer reads *)



(** ** The bytes of the output *)

Lemma c_str_range (P : Z -> Prop) (s : list Z) : Forall P s -> Forall P (c_str s).
Proof.
  induction 1 as [|c s Hc Hs IH]; cbn [c_str]; [constructor|].
  destruct (c =? 0); constructor; assumption.
Qed.

Lemma clear_control_range (c : Z) : 0 <= c < 256 -> 0 <= clear_control c < 256.
Proof. unfold clear_control. destruct (_ && _); lia. Qed.

Lemma resize_range (n : nat) (s : list Z) :
  Forall (fun b => 0 <= b < 256) s -> Forall (fun b => 0 <= b < 256) (resize n s).
Proof.
  intros Hs. unfold resize. apply Forall_app. split.
  - apply Forall_take, Hs.
  - apply Forall_replicate. lia.
Qed.

Lemma clean_range (s : list Z) :
  Forall (fun b => 0 <= b < 256) s ->
  Forall (fun b => 0 <= b < 256) (map clear_control s).
Proof.
  intros Hs. apply Forall_map. eapply Forall_impl; [exact Hs|].
  intros c Hc. apply clear_control_range, Hc.
Qed.

Lemma song_name_range (modName : list Z) :
  Forall (fun b => 0 <= b < 256) modName ->
  Forall (fun b => 0 <= b < 256) (song_name modName).
Proof.
  intros Hs. unfold song_name.
  apply clean_range, resize_range, c_str_range, Forall_take, Hs.
Qed.

(** The digits of the slot number fit in a character. *)
Lemma SampleName_range (index : Z) (modName : list Z) :
  0 <= index < 100 -> Forall (fun b => 0 <= b < 256) modName ->
  Forall (fun b => 0 <= b < 256) (SampleName index modName).
Proof.
  intros Hi Hs. unfold SampleName. cbn [app alter list_alter].
  apply resize_range.
  rewrite Z.quot_div_nonneg, Z.rem_mod_nonneg by lia.
  assert (Hq : 0 <= index / 10 < 10)
    by (split; [apply Z.div_pos; lia|apply Z.div_lt_upper_bound; lia]).
  pose proof (Z.mod_pos_bound index 10 ltac:(lia)) as Hr.
  repeat (apply Forall_cons; split; [cbv beta; lia|]).
  apply clean_range, c_str_range, Forall_take, Hs.
Qed.

Lemma packed_assign_range (endianness native : endian) (T : int_type) (value : Z) :
  Forall (fun b => 0 <= b < 256) (packed_assign endianness native T value).
Proof. rewrite packed_assign_bytes. apply encode_range. Qed.

Lemma stream_of_range (items : list Item) :
  Forall item_ok items -> Forall (fun b => 0 <= b < 256) (stream_of items).
Proof.
  induction 1 as [|it items Hit Hok IH]; [constructor|].
  destruct it as [n i c p|v]; cbn [item_ok] in Hit; unfold is_count in Hit.
  - change (stream_of (Event n i c p :: items))
      with (n :: i :: c :: p :: stream_of items).
    repeat (apply Forall_cons; split; [cbv beta; lia|]). exact IH.
  - change (stream_of (Count v :: items)) with (v :: stream_of items).
    apply Forall_cons. split; [lia|exact IH].
Qed.

Section OutputBytes.

Variable native : endian.
Variable fIn : list Z.
Variable modHeader : MODFileHeader.t.
Variable numChannels : nat.

Hypothesis fIn_bytes : Forall (fun b => 0 <= b < 256) fIn.
Hypothesis name_bytes : Forall (fun b => 0 <= b < 256) (MODFileHeader.name modHeader).
Hypothesis sample_name_bytes : forall i,
  Forall (fun b => 0 <= b < 256) (MODSampleHeader.name (sample_at modHeader i)).

Lemma KMSampleReference_bytes_range (i : nat) :
  (i < 31)%nat ->
  Forall (fun b => 0 <= b < 256)
    (KMSampleReference_bytes native (sample_reference i (sample_at modHeader i))).
Proof.
  intros Hi. unfold KMSampleReference_bytes.
  apply Forall_app; split;
    [|apply Forall_app; split; apply packed_assign_range].
  unfold sample_reference. destruct (_ <? 2); cbn [KMSampleReference.name].
  - apply Forall_replicate. lia.
  - apply SampleName_range; [lia|apply sample_name_bytes].
Qed.

Lemma KMSongHeader_bytes_range (st : SeqState) :
  Forall (fun b => 0 <= b < 256)
    (KMSongHeader_bytes native (song_header modHeader numChannels st)).
Proof.
  unfold KMSongHeader_bytes, song_header.
  cbn [KMSongHeader.id KMSongHeader.chunkSize KMSongHeader.name KMSongHeader.sample
       KMSongHeader.unknown KMSongHeader.numChannels KMSongHeader.restartPos
       KMSongHeader.musicSize].
  apply Forall_app; split.
  { unfold tag_SONG. repeat (apply Forall_cons; split; [cbv beta; lia|]). constructor. }
  apply Forall_app; split; [apply packed_assign_range|].
  apply Forall_app; split; [apply song_name_range, name_bytes|].
  apply Forall_app; split.
  { apply Forall_concat. rewrite map_map. apply Forall_map, Forall_forall.
    intros i Hi. apply list_elem_of_In, in_seq in Hi.
    apply KMSampleReference_bytes_range. lia. }
  repeat (apply Forall_app; split); apply packed_assign_range.
Qed.

Lemma sample_chunk_range (i : nat) :
  (i < 31)%nat ->
  Forall (fun b => 0 <= b < 256)
    (file_bytes native (sample_chunk fIn modHeader numChannels i)).
Proof.
  intros Hi. unfold sample_chunk. destruct (_ <? 2); [constructor|].
  unfold file_bytes. cbn [map concat written_bytes]. rewrite app_nil_r.
  apply Forall_app. split; [|apply read_bytes_range, fIn_bytes].
  unfold KMSampleHeader_bytes.
  apply Forall_app; split.
  { unfold sample_header. destruct (_ && _ && _); cbn [KMSampleHeader.id];
      unfold tag_SMPL; repeat (apply Forall_cons; split; [cbv beta; lia|]); constructor. }
  apply Forall_app; split; [apply packed_assign_range|].
  apply Forall_app; split.
  { unfold sample_header. destruct (_ && _ && _); cbn [KMSampleHeader.name];
      (apply SampleName_range; [lia|apply sample_name_bytes]). }
  apply Forall_app; split; apply packed_assign_range.
Qed.

Lemma written_slots_range (i : nat) : In i (written_slots modHeader) -> (i < 31)%nat.
Proof.
  unfold written_slots. intros Hi. apply filter_In in Hi as [Hi _].
  apply in_seq in Hi. lia.
Qed.

Lemma output_range (st : SeqState) :
  sequence fIn modHeader numChannels = Some st ->
  Forall (fun b => 0 <= b < 256)
    (file_bytes native
       ([WSong (song_header modHeader numChannels st); WData (musicData st)]
        ++ concat (map (sample_chunk fIn modHeader numChannels) (seq 0 31)))).
Proof.
  intros Hrun. rewrite output_bytes_split.
  apply Forall_app. split; [apply Forall_app; split|].
  - apply KMSongHeader_bytes_range.
  - destruct (ord_loop_restart_inv fIn modHeader numChannels fIn_bytes _ _ st
                (seq_init_restart_inv numChannels) Hrun)
      as [(k & _ & s1 & s2 & -> & _ & (i1 & -> & H1) & (i2 & -> & H2)) _].
    apply Forall_app. split; apply stream_of_range; assumption.
  - apply Forall_concat, Forall_map, Forall_forall. intros i Hi.
    apply list_elem_of_In, written_slots_range in Hi.
    apply sample_chunk_range, Hi.
Qed.

End OutputBytes.

(** The names of a header read from a file of bytes. *)
Lemma read_header_names (native : endian) (fIn : list Z) :
  Forall (fun b => 0 <= b < 256) fIn ->
  Forall (fun b => 0 <= b < 256) (MODFileHeader.name (read_MODFileHeader native fIn))
  /\ forall i, Forall (fun b => 0 <= b < 256)
                 (MODSampleHeader.name (sample_at (read_MODFileHeader native fIn) i)).
Proof.
  intros Hall. split; [apply read_bytes_range, Hall|].
  intros i. destruct (Nat.lt_ge_cases i 31) as [Hi|Hi].
  - rewrite sample_at_read by exact Hi. apply read_bytes_range, Hall.
  - unfold sample_at. rewrite nth_overflow.
    + apply Forall_replicate. lia.
    + cbn [read_MODFileHeader MODFileHeader.sample].
      rewrite length_map, length_seq. exact Hi.
Qed.

(** X17.  When the conversion of a file of bytes returns 0, everything it
    wrote is a byte: the digits added to the characters of a sample name
    stay inside a character, the counts of the repeat runs and the flagged
    parameters stay below 256, and every packed field is stored as the
    bytes of its type. *)
Theorem output_is_bytes (native : endian) (fIn : list Z) (fOut : list Written) :
  Forall (fun b => 0 <= b < 256) fIn ->
  main_file native fIn = Some (0, fOut) ->
  Forall (fun b => 0 <= b < 256) (file_bytes native fOut).
Proof.
  intros Hall Hmain. unfold main_file in Hmain.
  destruct (main_output fIn _ fOut Hmain) as (st & Hrun & _ & ->).
  destruct (read_header_names native fIn Hall) as [Hname Hsamples].
  exact (output_range native fIn _ _ Hall Hname Hsamples st Hrun).
Qed.

(** X17 on [skip_mod]. *)
Lemma output_is_bytes_witness :
  Forall (fun b => 0 <= b < 256) (file_bytes endian_little skip_output).
Proof.
  apply (output_is_bytes endian_little skip_mod skip_output).
  - apply (bool_decide_unpack _). vm_compute. reflexivity.
  - vm_compute. reflexivity.
Defined.
